(** * The Log4j2 plugin cache combiner of singlejar

    A shallow embedding of [src/tools/singlejar/log4j2_plugin_dat_combiner.cc]:
    the big-endian readers and writers, the two routines that load and
    write a plugin cache, and [Log4J2PluginDatCombiner::Merge]; and of the
    functions of [src/main/native/windows/util.cc] that compute on strings
    and handles: [Strip], [NormalizeImpl], [AsShortPath],
    [AsExecutablePathForCreateProcess] and the constructor of
    [AutoAttributeList::StdHandles].

    Conventions of the embedding:
    - an integer of a C++ type is a [Z] together with the wrap-around of that
      type, see [integral];
    - [std::vector<uint8_t>] is a [list byte], [std::string] is a [string];
    - the host is little-endian, as on every platform singlejar is built for:
      the object representation of an integer lists its low byte first;
    - [std::map<std::string, V>] is the list of its pairs in iteration
      order, which is the ascending order of the keys under
      [std::less<std::string>];
    - [std::istringstream] is the unread characters and the fail state;
    - a local variable that is read into before it is initialised holds
      bytes the code does not determine, and that may differ at each call:
      they are a parameter of each call of a reader, see [uninitialized]
      and [call];
    - [diag_errx] ends the run: a function that may call it returns an
      [outcome];
    - of the collaborators, [TransientBytes] is the bytes it copies out, the
      [Inflater] is a function on bytes, and the concatenator is the bytes
      appended to it;
    - [std::wstring], and [std::basic_string<C>], is the list of the numbers
      of its characters; a read outside a string has no result;
    - what the path utilities ask of the Windows API and of the C library is
      a parameter, see [Environment].

    The definitions of the code come first, then the notions of the
    specification, then the lemmas, the properties [C1] to [C10] with
    their examples, and last further properties of the combiner and of the
    path utilities. *)

From Stdlib Require Import ZArith List Bool Lia Sorted Permutation.
From Stdlib Require Import Strings.String Strings.Ascii.
From Stdlib Require Strings.Byte.
From Stdlib Require Import Init.Byte.
From Stdlib Require Import DecimalString.
Import ListNotations.

Open Scope string_scope.
Open Scope list_scope.
Open Scope Z_scope.

(** ** Integer types *)

(** What the code needs to know about an integer type [T]: [sizeof(T)],
    the conversion of a value to [T], and the conversion to the type
    arithmetic on a [T] is carried out in (after integral promotion). *)
Record integral : Type := {
  sizeof : nat;
  convert : Z -> Z;
  promote : Z -> Z
}.

Definition wrap_unsigned (w z : Z) : Z := z mod 2 ^ w.

Definition wrap_signed (w z : Z) : Z := (z + 2 ^ (w - 1)) mod 2 ^ w - 2 ^ (w - 1).

Definition uint32_t : integral :=
  {| sizeof := 4; convert := wrap_unsigned 32; promote := wrap_unsigned 32 |}.

(** A [uint16_t] operand is promoted to [int]. *)
Definition uint16_t : integral :=
  {| sizeof := 2; convert := wrap_unsigned 16; promote := wrap_signed 32 |}.

Definition int : integral :=
  {| sizeof := 4; convert := wrap_signed 32; promote := wrap_signed 32 |}.

(** [swapped |= (val >> (8*(totalBytes-i-1)) & 0xFF) << (8*i)] for
    [i = 0 .. totalBytes-1], starting from [(T) 0]. *)
Definition swapByteOrder (T : integral) (val : Z) : Z :=
  let totalBytes := Z.of_nat (sizeof T) in
  fold_left
    (fun swapped i =>
       convert T
         (Z.lor swapped
            (promote T
               (Z.shiftl (Z.land (Z.shiftr val (8 * (totalBytes - i - 1))) 255)
                  (8 * i)))))
    (List.map Z.of_nat (seq 0 (sizeof T))) (convert T 0).

(** ** Bytes and object representations *)

Definition Z_of_byte (b : byte) : Z := Z.of_N (Byte.to_N b).

Definition byte_of_Z (z : Z) : byte :=
  match Byte.of_N (Z.to_N (z mod 256)) with
  | Some b => b
  | None => x00
  end.

(** [reinterpret_cast<const uint8_t*>(&value)]: the [sizeof(T)] bytes of the
    object, low byte first. *)
Definition object_bytes (T : integral) (value : Z) : list byte :=
  List.map (fun i => byte_of_Z (Z.shiftr value (8 * Z.of_nat i))) (seq 0 (sizeof T)).

(** The value of the unsigned object whose bytes are [bs], low byte first. *)
Fixpoint object_value (bs : list byte) : Z :=
  match bs with
  | [] => 0
  | b :: bs' => Z_of_byte b + 256 * object_value bs'
  end.

(** ** [std::istringstream] *)

Record istringstream : Type := {
  rdbuf : list byte;
  failbit : bool
}.

(** [stream.read(s, n)] where [s] holds the [n] bytes of the destination
    before the call.  On a stream that is not good nothing is extracted.
    Otherwise the characters available, at most [n], are stored at the
    front of the destination; when fewer than [n] were available the
    stream enters its fail state. *)
Definition read (stream : istringstream) (s : list byte) : list byte * istringstream :=
  if failbit stream then (s, stream)
  else
    let n := List.length s in
    let avail := rdbuf stream in
    if (n <=? List.length avail)%nat
    then (firstn n avail, {| rdbuf := skipn n avail; failbit := false |})
    else (avail ++ skipn (List.length avail) s, {| rdbuf := []; failbit := true |}).

(** ** [std::map] *)

Definition map (V : Type) : Type := list (string * V).

Fixpoint find {V : Type} (k : string) (m : map V) : option V :=
  match m with
  | [] => None
  | (k', v) :: m' =>
      match String.compare k k' with
      | Eq => Some v
      | Lt => None
      | Gt => find k m'
      end
  end.

(** [m.insert(p)]: a pair whose key is present already is not inserted. *)
Fixpoint insert {V : Type} (p : string * V) (m : map V) : map V :=
  match m with
  | [] => [p]
  | (k', v) :: m' =>
      match String.compare (fst p) k' with
      | Eq => m
      | Lt => p :: m
      | Gt => (k', v) :: insert p m'
      end
  end.

(** [m[k] = v]. *)
Fixpoint assign {V : Type} (k : string) (v : V) (m : map V) : map V :=
  match m with
  | [] => [(k, v)]
  | (k', v') :: m' =>
      match String.compare k k' with
      | Eq => (k', v) :: m'
      | Lt => (k, v) :: m
      | Gt => (k', v') :: assign k v m'
      end
  end.

(** [m[k]]: the mapped value, and the map, to which a value-initialised
    element has been added when the key was absent. *)
Definition subscript {V : Type} (init : V) (k : string) (m : map V) : V * map V :=
  match find k m with
  | Some v => (v, m)
  | None => (init, insert (k, init) m)
  end.

(** [m[k].insert(p)] on a map of maps. *)
Definition insert_into {V : Type} (k : string) (p : string * V) (m : map (map V))
  : map (map V) :=
  let '(inner, m) := subscript (V := map V) [] k m in
  assign k (insert p inner) m.

(** ** Plugin entries *)

(** Modelled from the spec: the class [PluginEntry] is declared in
    [log4j2_plugin_dat_combiner.h], which is not part of the sources at
    hand.  Its fields are those of the spec's data model, in the order in
    which the constructor call in [loadLog4j2PluginCacheFile] passes them. *)
Record PluginEntry : Type := {
  key : string;
  className : string;
  name : string;
  printable : bool;
  defer : bool;
  category : string
}.

Definition Catalog : Type := map (map PluginEntry).

(** ** Termination with a diagnostic *)

Inductive diagnostic : Type :=
| neither_stored_nor_deflated
| present_in_multiple_jars (category key : string).

(** Modelled from the spec: the macro [diag_errx] comes from [diag.h], which
    is not part of the sources at hand.  It prints its message and ends the
    process with the exit value given; [Errx] is that end of the run. *)
Inductive outcome (A : Type) : Type :=
| Returned (a : A)
| Errx (exit_value : Z) (message : diagnostic).

Arguments Returned {A} a.
Arguments Errx {A} exit_value message.

(** [for (uint32_t i = 0; i < n; ++i) body] on the state the body updates;
    the body is given the value of [i] of its round. *)
Fixpoint for_ {A : Type} (n : nat) (body : nat -> A -> A) (s : A) : A :=
  match n with
  | O => s
  | S n' => for_ n' (fun i => body (S i)) (body O s)
  end.

(** ** Writers *)

Definition writeBoolean (buffer : list byte) (value : bool) : list byte :=
  let byte := if value then x01 else x00 in
  buffer ++ [byte].

Definition writeInt (buffer : list byte) (value : Z) : list byte :=
  let value := swapByteOrder int value in
  buffer ++ object_bytes int value.

Definition writeUTFString (buffer : list byte) (str : string) : list byte :=
  let length :=
    swapByteOrder uint16_t (convert uint16_t (Z.of_nat (String.length str))) in
  (buffer ++ object_bytes uint16_t length) ++ list_byte_of_string str.

(** ** Writing a cache *)

(** The body of the loop over the plugins of a category. *)
Definition write_plugin (buffer : list byte) (pluginPair : string * PluginEntry) : list byte :=
  let plugin := snd pluginPair in
  let buffer := writeUTFString buffer (key plugin) in
  let buffer := writeUTFString buffer (className plugin) in
  let buffer := writeUTFString buffer (name plugin) in
  let buffer := writeBoolean buffer (printable plugin) in
  writeBoolean buffer (defer plugin).

(** The body of the loop over the categories. *)
Definition write_category (buffer : list byte) (categoryPair : string * map PluginEntry) : list byte :=
  let buffer := writeUTFString buffer (fst categoryPair) in
  let buffer := writeInt buffer (convert int (Z.of_nat (List.length (snd categoryPair)))) in
  fold_left write_plugin (snd categoryPair) buffer.

Definition writeLog4j2PluginCacheFile (categories : Catalog) : list byte :=
  let buffer := [] in
  let buffer := writeInt buffer (convert int (Z.of_nat (List.length categories))) in
  fold_left write_category categories buffer.

(** ** The loops of [Log4J2PluginDatCombiner::Merge] *)

Definition is_some {A : Type} (o : option A) : bool :=
  match o with
  | Some _ => true
  | None => false
  end.

(** The loop over [newPlugins], entered when [categories_] has the
    category already. *)
Fixpoint merge_plugins (no_duplicates_ : bool) (newCategoryId : string)
    (newPlugins : map PluginEntry) (categories_ : Catalog) : outcome Catalog :=
  match newPlugins with
  | [] => Returned categories_
  | pluginPair :: newPlugins' =>
      let newPluginKey := fst pluginPair in
      let '(existing, categories_) :=
        subscript (V := map PluginEntry) [] newCategoryId categories_ in
      let existingPluginKey := find newPluginKey existing in
      if is_some existingPluginKey && no_duplicates_
      then Errx 1 (present_in_multiple_jars newCategoryId newPluginKey)
      else
        merge_plugins no_duplicates_ newCategoryId newPlugins'
          (insert_into newCategoryId pluginPair categories_)
  end.

(** The loop over [newCategories]. *)
Fixpoint merge_categories (no_duplicates_ : bool) (newCategories categories_ : Catalog)
  : outcome Catalog :=
  match newCategories with
  | [] => Returned categories_
  | (newCategoryId, newPlugins) :: newCategories' =>
      let existingCategoryPair := find newCategoryId categories_ in
      if is_some existingCategoryPair
      then
        match merge_plugins no_duplicates_ newCategoryId newPlugins categories_ with
        | Returned categories_ => merge_categories no_duplicates_ newCategories' categories_
        | Errx exit_value message => Errx exit_value message
        end
      else
        merge_categories no_duplicates_ newCategories'
          (assign newCategoryId newPlugins categories_)
  end.

(** ** The combiner *)

(** The compression methods of [zlib.h]. *)
Definition Z_NO_COMPRESSION : Z := 0.
Definition Z_DEFLATED : Z := 8.

(** What [Merge] uses of the entry it is given: the compression method
    of its local header and the bytes of the entry as they are stored. *)
Record LH : Type := {
  compression_method : Z;
  data : list byte
}.

(** [inflater_] is [true] once the [Inflater] has been created. *)
Record Log4J2PluginDatCombiner : Type := {
  categories_ : Catalog;
  inflater_ : bool;
  no_duplicates_ : bool
}.

(** ** Uninitialised locals

    [readBool], [readInt] and [readUTFString] read into a local variable
    they have not initialised, and use it whatever the read did.  After a
    read that fell short the local still holds, in the bytes the read did
    not store, what the stack held before the call: the source leaves that
    content unspecified, and it may differ from one call of a reader to the
    next and from one run to the next.  A reader therefore takes the
    content for the call at hand, the loader takes one content for each of
    its calls of a reader, and a run takes one for each entry it merges.
    Every result below holds for every choice. *)

Section Reading.

(** The content of the locals of one call of a reader before the read, by
    the name of the local and byte by byte. *)
Variable indeterminate : string -> nat -> byte.

Definition uninitialized (local : string) (n : nat) : list byte :=
  List.map (indeterminate local) (seq 0 n).

(** ** Readers *)

(** The [bool] read is [true] for every byte other than zero.  The writer
    stores 0 or 1 only; for any other byte the source builds a [bool] the
    language gives no meaning to, and nothing below depends on the value
    the model gives it. *)
Definition readBool (stream : istringstream) : bool * istringstream :=
  let '(value, stream) := read stream (uninitialized "value" 1) in
  (negb (object_value value =? 0), stream).

Definition readInt (stream : istringstream) : Z * istringstream :=
  let '(values, stream) := read stream (uninitialized "values" (sizeof uint32_t)) in
  (swapByteOrder uint32_t (object_value values), stream).

Definition readUTFString (stream : istringstream) : string * istringstream :=
  let '(length, stream) := read stream (uninitialized "length" (sizeof uint16_t)) in
  let length := swapByteOrder uint16_t (object_value length) in
  let result := repeat x00 (Z.to_nat length) in
  let '(result, stream) := read stream result in
  (string_of_list_byte result, stream).

End Reading.

(** The calls of the readers in one run of [loadLog4j2PluginCacheFile]:
    the variable the result goes to, in round [i] of the loop over the
    categories and round [j] of the loop over the entries of a category. *)
Inductive call : Type :=
| categoriesCount_call
| category_call (i : nat)
| entries_call (i : nat)
| key_call (i j : nat)
| className_call (i j : nat)
| name_call (i j : nat)
| printable_call (i j : nat)
| defer_call (i j : nat).

Section Combiner.

(** The content of the locals of the readers before their read, for each
    call of a reader in one run of [loadLog4j2PluginCacheFile]. *)
Variable indeterminate : call -> string -> nat -> byte.

(** [TransientBytes::DecompressEntryContents], the collaborator that
    inflates the bytes of a deflated entry. *)
Variable DecompressEntryContents : list byte -> list byte.

(** ** Loading a cache *)

(** The body of the loop over the entries of a category, in round [i] of
    the loop over the categories and round [j] of its own. *)
Definition load_plugin (category : string) (i j : nat) (st : istringstream * Catalog)
  : istringstream * Catalog :=
  let '(buffer, categories) := st in
  let '(key, buffer) := readUTFString (indeterminate (key_call i j)) buffer in
  let '(className, buffer) := readUTFString (indeterminate (className_call i j)) buffer in
  let '(name, buffer) := readUTFString (indeterminate (name_call i j)) buffer in
  let '(printable, buffer) := readBool (indeterminate (printable_call i j)) buffer in
  let '(defer, buffer) := readBool (indeterminate (defer_call i j)) buffer in
  let entry := Build_PluginEntry key className name printable defer category in
  (buffer, insert_into category (key, entry) categories).

(** The body of the loop over the categories, in round [i]. *)
Definition load_category (i : nat) (st : istringstream * Catalog)
  : istringstream * Catalog :=
  let '(buffer, categories) := st in
  let '(category, buffer) := readUTFString (indeterminate (category_call i)) buffer in
  let '(entries, buffer) := readInt (indeterminate (entries_call i)) buffer in
  for_ (Z.to_nat entries) (load_plugin category i) (buffer, categories).

(** [loadLog4j2PluginCacheFile] together with the stream it leaves behind. *)
Definition load_stream (byteData : list byte) : istringstream * Catalog :=
  let buffer := {| rdbuf := byteData; failbit := false |} in
  let categories := [] in
  let '(categoriesCount, buffer) := readInt (indeterminate categoriesCount_call) buffer in
  for_ (Z.to_nat categoriesCount) load_category (buffer, categories).

Definition loadLog4j2PluginCacheFile (byteData : list byte) : Catalog :=
  snd (load_stream byteData).

(** ** [Merge] and [OutputEntry] *)

(** [Merge] returns [true] whenever it returns; the result is the combiner
    it leaves. *)
Definition Merge (this : Log4J2PluginDatCombiner) (lh : LH) : outcome Log4J2PluginDatCombiner :=
  let bytes_ :=
    if compression_method lh =? Z_NO_COMPRESSION
    then Returned (data lh, inflater_ this)
    else if compression_method lh =? Z_DEFLATED
    then Returned (DecompressEntryContents (data lh), true)
    else Errx 2 neither_stored_nor_deflated in
  match bytes_ with
  | Errx exit_value message => Errx exit_value message
  | Returned (bytes_, inflater) =>
      let newCategories := loadLog4j2PluginCacheFile bytes_ in
      match merge_categories (no_duplicates_ this) newCategories (categories_ this) with
      | Errx exit_value message => Errx exit_value message
      | Returned categories =>
          Returned {| categories_ := categories;
                      inflater_ := inflater;
                      no_duplicates_ := no_duplicates_ this |}
      end
  end.

(** The bytes [OutputEntry] appends to the buffer of the concatenator. *)
Definition OutputEntry (this : Log4J2PluginDatCombiner) (concatenator : list byte) : list byte :=
  let buffer := writeLog4j2PluginCacheFile (categories_ this) in
  concatenator ++ buffer.

End Combiner.

(** A run of the pipeline: one [Merge] for each entry, in the order given;
    [indeterminate] gives the content of the uninitialised locals for the
    load of each entry, the first at 0. *)
Fixpoint merge_all (indeterminate : nat -> call -> string -> nat -> byte)
  (DecompressEntryContents : list byte -> list byte)
  (this : Log4J2PluginDatCombiner) (lhs : list LH)
  : outcome Log4J2PluginDatCombiner :=
  match lhs with
  | [] => Returned this
  | lh :: lhs' =>
      match Merge (indeterminate O) DecompressEntryContents this lh with
      | Returned this' =>
          merge_all (fun entry => indeterminate (S entry)) DecompressEntryContents this' lhs'
      | Errx exit_value message => Errx exit_value message
      end
  end.

(** * The path utilities of the Windows launcher

    The functions of [src/main/native/windows/util.cc] that compute on
    strings and handles. *)

(** ** Wide strings *)

(** A character is the number that encodes it, a [std::wstring] the list
    of its characters.  [s[i]] is [nth i s 0]: the character at [i] below the
    size, and the terminating null at the size itself. *)
Definition wchar_t : Type := Z.
Definition wstring : Type := list wchar_t.

(** A character literal and a string literal. *)
Definition chr (a : ascii) : wchar_t := Z.of_N (N_of_ascii a).
Definition L (s : string) : wstring := List.map chr (list_ascii_of_string s).

(** ** [Strip] *)

(** The loop that strips from the right, at the index [i] and below.
    The index is unsigned, so that [i >= 0] holds always: when the
    character at 0 is [c] too, [--i] wraps around and [s[i]] lies outside the
    string, a read to which the language gives no meaning: [None]. *)
Fixpoint Strip_right (s : wstring) (c : wchar_t) (i : nat) : option wstring :=
  if negb (nth i s 0 =? c) then
    Some (if nth (i + 1) s 0 =? c then firstn (i + 1) s else s)
  else
    match i with
    | O => None
    | S i' => Strip_right s c i'
    end.

(** The loop that strips from the left, over the indices it has still to
    visit. *)
Fixpoint Strip_left (s : wstring) (c : wchar_t) (indices : list nat) : wstring :=
  match indices with
  | [] => s
  | i :: indices' =>
      if (i =? List.length s)%nat || negb (nth i s 0 =? c) then
        if (0 <? i)%nat && (nth (i - 1) s 0 =? c) then skipn i s else s
      else Strip_left s c indices'
  end.

(** [Strip], or [None] when its first loop reads outside the string. *)
Definition Strip (s : wstring) (c : wchar_t) : option wstring :=
  let s :=
    if (1 <? List.length s)%nat && (nth (List.length s - 1) s 0 =? c)
    then Strip_right s c (List.length s - 2)
    else Some s in
  match s with
  | None => None
  | Some s =>
      Some (if negb (List.length s =? 0)%nat && (nth 0 s 0 =? c)
            then Strip_left s c (seq 1 (List.length s))
            else s)
  end.

(** ** [AutoAttributeList::StdHandles] *)

(** A handle is the number it holds; [INVALID_HANDLE_VALUE] is -1 in the
    Windows headers. *)
Definition HANDLE : Type := Z.
Definition INVALID_HANDLE_VALUE : HANDLE := -1.

(** The members of the class, as its constructors initialise them: the
    array has the three entries they set. *)
Record StdHandles : Type := {
  valid_handles_ : nat;
  valid_handle_array_ : list HANDLE;
  stdin_h_ : HANDLE;
  stdout_h_ : HANDLE;
  stderr_h_ : HANDLE
}.

(** [a[i] = v] on an array. *)
Definition store {A : Type} (a : list A) (i : nat) (v : A) : list A :=
  firstn i a ++ v :: skipn (i + 1) a.

(** [if (h != INVALID_HANDLE_VALUE) valid_handle_array_[valid_handles_++] = h]
    on the two members it updates. *)
Definition add_valid_handle (h : HANDLE) (members : nat * list HANDLE) : nat * list HANDLE :=
  let '(valid_handles_, valid_handle_array_) := members in
  if negb (h =? INVALID_HANDLE_VALUE)
  then (S valid_handles_, store valid_handle_array_ valid_handles_ h)
  else (valid_handles_, valid_handle_array_).

(** The constructor that takes the three handles. *)
Definition new_StdHandles (stdin_h stdout_h stderr_h : HANDLE) : StdHandles :=
  let members :=
    (0%nat, [INVALID_HANDLE_VALUE; INVALID_HANDLE_VALUE; INVALID_HANDLE_VALUE]) in
  let members := add_valid_handle stdin_h members in
  let members := add_valid_handle stdout_h members in
  let members := add_valid_handle stderr_h members in
  {| valid_handles_ := fst members;
     valid_handle_array_ := snd members;
     stdin_h_ := stdin_h;
     stdout_h_ := stdout_h;
     stderr_h_ := stderr_h |}.

(** ** [NormalizeImpl] *)

(** [std::basic_string<C>], for [char] and for [wchar_t]: the list of the
    numbers of its characters. *)
Definition Str : Type := list Z.

Definition kDot : Str := [chr "."].
Definition kDotDot : Str := [chr "."; chr "."].

Fixpoint Str_eqb (s1 s2 : Str) : bool :=
  match s1, s2 with
  | [], [] => true
  | c1 :: s1', c2 :: s2' => (c1 =? c2) && Str_eqb s1' s2'
  | _, _ => false
  end.

(** [p.substr(pos, n)], and [p.compare(pos, n, s) == 0], for a position
    within [p]. *)
Definition substr (p : Str) (pos n : nat) : Str := firstn n (skipn pos p).

Definition compare_is_0 (p : Str) (pos n : nat) (s : Str) : bool :=
  Str_eqb (substr p pos n) s.

(** The local variables of [NormalizeImpl] that its loop updates; [start]
    is [None] for [Str::npos]. *)
Record Normalizing : Type := {
  segs : list (nat * nat);
  start : option nat;
  first : bool;
  abs : bool;
  starts_with_dot : bool
}.

(** What the loop does at the end of the segment that began at [start], the
    index being [i]. *)
Definition end_of_segment (p : Str) (v : Normalizing) (start i : nat) : Normalizing :=
  let len := (i - start)%nat in
  if first v then
    let abs :=
      (len =? 2)%nat
      && (((chr "A" <=? nth start p 0) && (nth start p 0 <=? chr "Z"))
          || ((chr "a" <=? nth start p 0) && (nth start p 0 <=? chr "z")))
      && (nth (start + 1) p 0 =? chr ":") in
    {| segs := segs v ++ [(start, len)];
       start := None;
       first := false;
       abs := abs;
       starts_with_dot := negb abs && compare_is_0 p start len kDot |}
  else if compare_is_0 p start len kDot then
    if (List.length (segs v) =? 0)%nat then
      {| segs := segs v ++ [(start, len)];
         start := None;
         first := first v;
         abs := abs v;
         starts_with_dot := true |}
    else
      {| segs := segs v; start := None; first := first v; abs := abs v;
         starts_with_dot := starts_with_dot v |}
  else
    let '(segs, starts_with_dot) :=
      if starts_with_dot v then ([], false) else (segs v, starts_with_dot v) in
    let segs :=
      if compare_is_0 p start len kDotDot then
        if (List.length segs =? 0)%nat
           || compare_is_0 p (fst (last segs (0%nat, 0%nat)))
                (snd (last segs (0%nat, 0%nat))) kDotDot
        then segs ++ [(start, len)]
        else if negb (abs v) || (1 <? List.length segs)%nat
        then removelast segs
        else segs
      else segs ++ [(start, len)] in
    {| segs := segs; start := None; first := first v; abs := abs v;
       starts_with_dot := starts_with_dot |}.

(** The body of the loop, at the index [i]. *)
Definition Normalize_step (p : Str) (v : Normalizing) (i : nat) : Normalizing :=
  match start v with
  | None =>
      if (i <? List.length p)%nat
         && negb (nth i p 0 =? chr "/") && negb (nth i p 0 =? chr "\")
      then {| segs := segs v; start := Some i; first := first v; abs := abs v;
              starts_with_dot := starts_with_dot v |}
      else v
  | Some start =>
      if (i =? List.length p)%nat
         || ((nth i p 0 =? chr "/") || (nth i p 0 =? chr "\"))
      then end_of_segment p v start i
      else v
  end.

(** The loop that writes the segments kept, on the result so far and the
    flag [first]. *)
Definition write_segment (p : Str) (res : Str * bool) (i : nat * nat) : Str * bool :=
  let s := substr p (fst i) (snd i) in
  if snd res then (fst res ++ s, false) else ((fst res ++ [chr "\"]) ++ s, false).

Definition NormalizeImpl (p : Str) : Str :=
  let has_unc :=
    (4 <=? List.length p)%nat && (nth 0 p 0 =? chr "\") && (nth 1 p 0 =? chr "\")
    && ((nth 2 p 0 =? chr "?") || (nth 2 p 0 =? chr ".")) && (nth 3 p 0 =? chr "\") in
  let from := if has_unc then 4%nat else 0%nat in
  let v :=
    fold_left (Normalize_step p) (seq from (List.length p + 1 - from))
      {| segs := []; start := None; first := true; abs := false;
         starts_with_dot := false |} in
  let res := fst (fold_left (write_segment p) (segs v) ([], true)) in
  if abs v && (List.length (segs v) =? 1)%nat then res ++ [chr "\"] else res.

(** The two instances of the template. *)
Definition Normalize (p : Str) : Str := NormalizeImpl p.

(** ** Error messages *)

(** [stream << n] for an integer: its decimal digits. *)
Definition decimal (n : Z) : wstring := L (NilZero.string_of_int (Z.to_int n)).

(** The overload of [MakeErrorMessage] that takes the message. *)
Definition MakeErrorMessage (file : wstring) (line : Z) (failed_func func_arg message : wstring)
  : wstring :=
  L "ERROR: " ++ file ++ L "(" ++ decimal line ++ L "): " ++ failed_func ++ L "("
  ++ func_arg ++ L "): " ++ message.

(** ** Paths *)

(** The double quote. *)
Definition quote : wchar_t := 34.

(** [MAX_PATH] of the Windows headers. *)
Definition MAX_PATH : nat := 260.

Definition QuotePath (path : wstring) : wstring := ([quote] ++ path) ++ [quote].

Definition IsSeparator (c : wchar_t) : bool := (c =? chr "/") || (c =? chr "\").

(** [s.find_first_of(c)], [None] for [npos]. *)
Fixpoint find_first_of (s : wstring) (c : wchar_t) : option nat :=
  match s with
  | [] => None
  | x :: s' => if x =? c then Some 0%nat else option_map S (find_first_of s' c)
  end.

(** [s] begins with [substr]. *)
Fixpoint begins_with (s substr : wstring) : bool :=
  match substr, s with
  | [], _ => true
  | c :: substr', x :: s' => (x =? c) && begins_with s' substr'
  | _ :: _, [] => false
  end.

(** [s.find(substr)], [None] for [npos]. *)
Fixpoint find_substr (s substr : wstring) : option nat :=
  if begins_with s substr then Some 0%nat
  else match s with
       | [] => None
       | _ :: s' => option_map S (find_substr s' substr)
       end.

Definition found (pos : option nat) : bool :=
  match pos with
  | Some _ => true
  | None => false
  end.

Definition HasSeparator (s : wstring) : bool :=
  found (find_first_of s (chr "/")) || found (find_first_of s (chr "\")).

Definition Contains (s substr : wstring) : bool := found (find_substr s substr).

(** [std::replace(first, last, old_value, new_value)] *)
Definition replace (s : wstring) (old_value new_value : wchar_t) : wstring :=
  List.map (fun c => if c =? old_value then new_value else c) s.

(** The string that a null-terminated array holds. *)
Fixpoint c_str (a : list wchar_t) : wstring :=
  match a with
  | [] => []
  | c :: a' => if c =? 0 then [] else c :: c_str a'
  end.

(** What the functions below take from their environment:
    - [file] is [WSTR(__FILE__)], the name of the source file as the
      compiler has it;
    - [isalpha] is that of the C library, which depends on the locale;
    - [GetShortPathNameW path size] is the value the call returns for a
      buffer of [size] characters, and the characters it leaves in the
      buffer;
    - [GetLastError path] is the error code after the call for [path] has
      failed;
    - [FormatMessageW code] is the size and the message the system gives for
      an error code, and [GetLastError_FormatMessageW code] the error code
      after it has failed. *)
Record Environment : Type := {
  file : wstring;
  isalpha : wchar_t -> bool;
  GetShortPathNameW : wstring -> Z -> Z * list wchar_t;
  GetLastError : wstring -> Z;
  FormatMessageW : Z -> Z * wstring;
  GetLastError_FormatMessageW : Z -> Z
}.

Section Paths.

Variable env : Environment.

Definition GetLastErrorString (error_code : Z) : wstring :=
  if error_code =? 0 then []
  else
    let '(size, message) := FormatMessageW env error_code in
    if size =? 0 then
      let format_message_error := GetLastError_FormatMessageW env error_code in
      L "Error code " ++ decimal error_code
      ++ L "; cannot format message due to error code " ++ decimal format_message_error
    else message.

(** [AsShortPath]: the string returned, and [*result] as it leaves it. *)
Definition AsShortPath (path result : wstring) : wstring * wstring :=
  if (List.length path =? 0)%nat then ([], [])
  else if nth 0 path 0 =? quote then
    (MakeErrorMessage (file env) 202 (L "AsShortPath") path (L "path should not be quoted"),
     result)
  else if IsSeparator (nth 0 path 0) then
    (MakeErrorMessage (file env) 206 (L "AsShortPath") path
       (L "path is absolute without a drive letter"),
     result)
  else if Contains path (L "/./") || Contains path (L "\.\")
          || Contains path (L "/..") || Contains path (L "\..") then
    (MakeErrorMessage (file env) 211 (L "AsShortPath") path (L "path is not normalized"),
     result)
  else if (MAX_PATH <=? List.length path)%nat && negb (HasSeparator path) then
    (MakeErrorMessage (file env) 215 (L "AsShortPath") path
       (L "path is just a file name but too long"),
     result)
  else if HasSeparator path
          && negb (isalpha env (nth 0 path 0) && (nth 1 path 0 =? chr ":")
                   && IsSeparator (nth 2 path 0)) then
    (MakeErrorMessage (file env) 220 (L "AsShortPath") path (L "path is not absolute"),
     result)
  else
    let path := replace path (chr "/") (chr "\") in
    if (List.length path <? MAX_PATH)%nat then ([], path)
    else
      let wlong := L "\\?\" ++ path in
      let kMaxShortPath := Z.of_nat MAX_PATH + 4 in
      let wshort_size := fst (GetShortPathNameW env wlong 0) in
      if wshort_size =? 0 then
        let err_code := GetLastError env wlong in
        (MakeErrorMessage (file env) 251 (L "GetShortPathNameW") wlong
           (GetLastErrorString err_code),
         result)
      else if kMaxShortPath <=? wshort_size then
        (MakeErrorMessage (file env) 257 (L "GetShortPathNameW") wlong
           (L "cannot shorten the path enough"),
         result)
      else
        let wshort := snd (GetShortPathNameW env wlong kMaxShortPath) in
        ([], c_str (skipn 4 wshort)).

Definition AsExecutablePathForCreateProcess (path result : wstring) : wstring * wstring :=
  if (List.length path =? 0)%nat then
    (MakeErrorMessage (file env) 267 (L "AsExecutablePathForCreateProcess") path
       (L "path should not be empty"),
     result)
  else
    let '(error, result) := AsShortPath path result in
    if negb (List.length error =? 0)%nat then
      (MakeErrorMessage (file env) 274 (L "AsExecutablePathForCreateProcess") path error,
       result)
    else ([], QuotePath result).

End Paths.

(** * Specification

    The notions the properties below are stated with.  None of them is
    part of the code; each is related to the code by a lemma. *)

(** ** Big-endian fields *)

(** [swapByteOrder] on four bytes and on two, in arithmetic. *)
Definition swapped32 (v : Z) : Z :=
  (v / 16777216) mod 256 + (v / 65536) mod 256 * 256
  + (v / 256) mod 256 * 65536 + v mod 256 * 16777216.

Definition swapped16 (v : Z) : Z := (v / 256) mod 256 + v mod 256 * 256.

(** The four bytes of a count and the two bytes of a length, high byte
    first. *)
Definition be32 (v : Z) : list byte :=
  [byte_of_Z (v / 16777216); byte_of_Z (v / 65536); byte_of_Z (v / 256); byte_of_Z v].

Definition be16 (v : Z) : list byte := [byte_of_Z (v / 256); byte_of_Z v].

(** A string fits the length field of the format. *)
Definition fits (s : string) : Prop := Z.of_nat (String.length s) <= 65535.

(** ** The order of the keys *)

(** [s1 < s2] for [std::string]: the lexicographic order of the bytes. *)
Definition less (s1 s2 : string) : Prop := String.compare s1 s2 = Lt.

(** The three outcomes of a comparison, as facts about the keys. *)
Variant compare_cases (s1 s2 : string) : comparison -> Prop :=
| compare_is_Eq : s1 = s2 -> compare_cases s1 s2 Eq
| compare_is_Lt : less s1 s2 -> compare_cases s1 s2 Lt
| compare_is_Gt : less s2 s1 -> compare_cases s1 s2 Gt.

Definition keys {V : Type} (m : map V) : list string := List.map fst m.

(** The invariant of [std::map]: the keys ascend strictly. *)
Definition map_ok {V : Type} (m : map V) : Prop := StronglySorted less (keys m).

Definition Catalog_ok (c : Catalog) : Prop :=
  map_ok c /\ Forall (fun categoryPair => map_ok (snd categoryPair)) c.

(** ** What a catalog holds *)

(** The inner map under a key, empty when the key is absent. *)
Definition get {V : Type} (k : string) (m : map (map V)) : map V :=
  match find k m with
  | Some inner => inner
  | None => []
  end.

(** The entry a catalog holds under a category and a key. *)
Definition lookup (category key : string) (c : Catalog) : option PluginEntry :=
  match find category c with
  | Some plugins => find key plugins
  | None => None
  end.

(** A property of every pair of every category. *)
Definition each_plugin (P : string -> string * PluginEntry -> Prop) (c : Catalog) : Prop :=
  Forall (fun cp => Forall (P (fst cp)) (snd cp)) c.

(** Every entry is held under its own key. *)
Definition keyed_by_key (c : Catalog) : Prop :=
  Forall (fun categoryPair =>
    Forall (fun pluginPair => fst pluginPair = key (snd pluginPair)) (snd categoryPair)) c.

(** Every entry has the name of the category that holds it as its
    [category]. *)
Definition owned_by_category (c : Catalog) : Prop :=
  Forall (fun categoryPair =>
    Forall (fun pluginPair => category (snd pluginPair) = fst categoryPair)
      (snd categoryPair)) c.

Definition no_empty_category (c : Catalog) : Prop :=
  Forall (fun categoryPair => snd categoryPair <> []) c.

(** What every catalog the code builds satisfies. *)
Definition invariant (c : Catalog) : Prop :=
  Catalog_ok c /\ keyed_by_key c /\ owned_by_category c /\ no_empty_category c.

(** Every string fits its length field, every count its four bytes. *)
Definition plugin_fits (pluginPair : string * PluginEntry) : Prop :=
  fits (key (snd pluginPair)) /\ fits (className (snd pluginPair))
  /\ fits (name (snd pluginPair)).

Definition strings_fit (c : Catalog) : Prop :=
  Forall (fun categoryPair =>
    fits (fst categoryPair) /\ Forall plugin_fits (snd categoryPair)) c.

Definition counts_fit (c : Catalog) : Prop :=
  Z.of_nat (List.length c) < 4294967296 /\
  Forall (fun categoryPair => Z.of_nat (List.length (snd categoryPair)) < 4294967296) c.

(** ** The records of a cache

    A cache is a sequence of category records, each a name and a sequence
    of plugin records; names and keys may repeat.  The type [Catalog]
    without its invariant serves for such sequences, and
    [writeLog4j2PluginCacheFile] gives their bytes. *)

(** The entry [e] as a cache gives it back under the category [cat]: the
    category of an entry is not written, it is that of the enclosing record. *)
Definition with_category (cat : string) (e : PluginEntry) : PluginEntry :=
  {| key := key e; className := className e; name := name e;
     printable := printable e; defer := defer e; category := cat |}.

(** What loading makes of the records of a cache, record by record. *)
Definition replay_plugins (cat : string) (l : map PluginEntry) (c : Catalog) : Catalog :=
  fold_left (fun c p => insert_into cat (key (snd p), with_category cat (snd p)) c) l c.

Definition replay (records c : Catalog) : Catalog :=
  fold_left (fun c cp => replay_plugins (fst cp) (snd cp) c) records c.

(** The first record of a cache with the category and the key given. *)
Fixpoint first_plugin (k : string) (l : map PluginEntry) : option PluginEntry :=
  match l with
  | [] => None
  | p :: l' => if String.eqb (key (snd p)) k then Some (snd p) else first_plugin k l'
  end.

Fixpoint first_occurrence (cat k : string) (records : Catalog) : option PluginEntry :=
  match records with
  | [] => None
  | (cat', l) :: records' =>
      if String.eqb cat' cat
      then match first_plugin k l with
           | Some e => Some (with_category cat e)
           | None => first_occurrence cat k records'
           end
      else first_occurrence cat k records'
  end.

(** All the records of a cache with the category and the key given, in the
    order of the cache. *)
Definition occurrences (cat k : string) (records : Catalog) : list PluginEntry :=
  flat_map
    (fun cp =>
       if String.eqb (fst cp) cat
       then List.map (fun p => with_category cat (snd p))
              (filter (fun p => String.eqb (key (snd p)) k) (snd cp))
       else [])
    records.

(** ** Sequences of insertions *)

(** [categories[category].insert({key, entry})] for an entry, as
    [loadLog4j2PluginCacheFile] inserts it. *)
Definition put (c : Catalog) (e : PluginEntry) : Catalog :=
  insert_into (category e) (key e, e) c.

(** The catalog a sequence of insertions builds. *)
Definition build (entries : list PluginEntry) : Catalog := fold_left put entries [].


(** The entries of a catalog, in its iteration order. *)
Definition entries_of (c : Catalog) : list PluginEntry :=
  flat_map (fun categoryPair => List.map snd (snd categoryPair)) c.

(** ** What the loops of [Merge] compute *)

(** What the loop over [newCategories] leaves when no duplicate is
    rejected. *)
Fixpoint merged (newCategories categories_ : Catalog) : Catalog :=
  match newCategories with
  | [] => categories_
  | (newCategoryId, newPlugins) :: newCategories' =>
      merged newCategories'
        (if is_some (find newCategoryId categories_)
         then fold_left (fun c p => insert_into newCategoryId p c) newPlugins categories_
         else assign newCategoryId newPlugins categories_)
  end.

(** The first pair of [newCategories], in the order [Merge] visits them,
    that [categories_] holds already. *)
Fixpoint first_duplicate_key (cat : string) (l : map PluginEntry) (c : Catalog)
  : option string :=
  match l with
  | [] => None
  | p :: l' =>
      if is_some (lookup cat (fst p) c) then Some (fst p)
      else first_duplicate_key cat l' c
  end.

Fixpoint first_duplicate (inc c : Catalog) : option (string * string) :=
  match inc with
  | [] => None
  | (cat, l) :: inc' =>
      match first_duplicate_key cat l c with
      | Some k => Some (cat, k)
      | None => first_duplicate inc' c
      end
  end.

(** The order in which the loops of [Merge] visit the pairs of
    [newCategories]: the categories ascending and, within a category, the
    keys ascending. *)
Definition before (p q : string * string) : Prop :=
  less (fst p) (fst q) \/ (fst p = fst q /\ less (snd p) (snd q)).

(** ** Merging pair by pair *)

(** The pairs of a catalog with their categories, in its iteration order. *)
Definition pairs (c : Catalog) : list (string * (string * PluginEntry)) :=
  flat_map (fun categoryPair => List.map (pair (fst categoryPair)) (snd categoryPair)) c.

(** [categories_[category].insert(pair)] for a pair and its category. *)
Definition insert_pair (c : Catalog) (x : string * (string * PluginEntry)) : Catalog :=
  insert_into (fst x) (snd x) c.

(** The entries for which [Merge] creates the [Inflater]. *)
Definition deflated (lh : LH) : bool := compression_method lh =? Z_DEFLATED.

(** [Merge] reads the entries that are stored or deflated, and no other. *)
Definition supported (lh : LH) : bool :=
  (compression_method lh =? Z_NO_COMPRESSION) || (compression_method lh =? Z_DEFLATED).

(** The bytes [Merge] loads from an entry it can read: its data, inflated
    when the entry is deflated. *)
Definition contents (DecompressEntryContents : list byte -> list byte) (lh : LH)
  : list byte :=
  if compression_method lh =? Z_NO_COMPRESSION then data lh
  else DecompressEntryContents (data lh).

(** Two states of the loader that agree: the streams are the same, and so
    are the catalogs unless a read has fallen short. *)
Definition agree (st st' : istringstream * Catalog) : Prop :=
  fst st = fst st' /\ (failbit (fst st) = false -> snd st = snd st').

(** ** The segments of a path

    The notions the properties of [NormalizeImpl] are stated with. *)

Definition is_separator (c : Z) : bool := (c =? chr "/") || (c =? chr "\").

(** The segments of a path are its longest runs of characters other than
    separators; [cur] is the run that has begun. *)
Fixpoint segments_from (cur q : Str) : list Str :=
  match q with
  | [] => match cur with [] => [] | _ => [cur] end
  | c :: q' =>
      if is_separator c
      then match cur with
           | [] => segments_from [] q'
           | _ => cur :: segments_from [] q'
           end
      else segments_from (cur ++ [c]) q'
  end.

Definition segments (q : Str) : list Str := segments_from [] q.

(** Segments joined by backslashes. *)
Fixpoint join (l : list Str) : Str :=
  match l with
  | [] => []
  | [s] => s
  | s :: l' => s ++ chr "\" :: join l'
  end.

(** A drive: a letter and a colon. *)
Definition is_drive (s : Str) : bool :=
  (List.length s =? 2)%nat
  && (((chr "A" <=? nth 0 s 0) && (nth 0 s 0 <=? chr "Z"))
      || ((chr "a" <=? nth 0 s 0) && (nth 0 s 0 <=? chr "z")))
  && (nth 1 s 0 =? chr ":").

(** The path has the prefix of a UNC path, which [NormalizeImpl] skips. *)
Definition has_unc (p : Str) : bool :=
  (4 <=? List.length p)%nat && (nth 0 p 0 =? chr "\") && (nth 1 p 0 =? chr "\")
  && ((nth 2 p 0 =? chr "?") || (nth 2 p 0 =? chr ".")) && (nth 3 p 0 =? chr "\").

(** The segments [NormalizeImpl] keeps, as strings, with its flags. *)
Record Kept : Type := {
  kept : list Str;
  at_first : bool;
  absolute : bool;
  dot_only : bool
}.

(** What [NormalizeImpl] does with one more segment. *)
Definition keep (k : Kept) (seg : Str) : Kept :=
  if at_first k then
    let a := is_drive seg in
    {| kept := kept k ++ [seg]; at_first := false; absolute := a;
       dot_only := negb a && Str_eqb seg kDot |}
  else if Str_eqb seg kDot then
    if (List.length (kept k) =? 0)%nat
    then {| kept := kept k ++ [seg]; at_first := at_first k; absolute := absolute k;
            dot_only := true |}
    else k
  else
    let '(l, d) := if dot_only k then ([], false) else (kept k, dot_only k) in
    let l :=
      if Str_eqb seg kDotDot then
        if (List.length l =? 0)%nat || Str_eqb (last l []) kDotDot
        then l ++ [seg]
        else if negb (absolute k) || (1 <? List.length l)%nat
        then removelast l
        else l
      else l ++ [seg] in
    {| kept := l; at_first := at_first k; absolute := absolute k; dot_only := d |}.

Definition nothing_kept : Kept :=
  {| kept := []; at_first := true; absolute := false; dot_only := false |}.

(** The path written for the segments kept. *)
Definition written (k : Kept) : Str :=
  if absolute k && (List.length (kept k) =? 1)%nat
  then join (kept k) ++ [chr "\"]
  else join (kept k).

(** [NormalizeImpl] on the segments of a path. *)
Definition normal (l : list Str) : Str := written (fold_left keep l nothing_kept).

(** The variables of [NormalizeImpl] read as the segments kept. *)
Definition kept_of (p : Str) (v : Normalizing) : Kept :=
  {| kept := List.map (fun i => substr p (fst i) (snd i)) (segs v);
     at_first := first v;
     absolute := abs v;
     dot_only := starts_with_dot v |}.

(** The part of [Strip] that strips from the left. *)
Definition Strip_from_left (s : wstring) (c : wchar_t) : wstring :=
  if negb (List.length s =? 0)%nat && (nth 0 s 0 =? c)
  then Strip_left s c (seq 1 (List.length s))
  else s.

(** The segment that has begun, at the index [i]. *)
Definition begun (p : Str) (v : Normalizing) (i : nat) : Str :=
  match start v with
  | Some s => substr p s (i - s)
  | None => []
  end.

Definition begun_before (v : Normalizing) (i : nat) : Prop :=
  match start v with
  | Some s => (s < i)%nat
  | None => True
  end.

(** Segments after the first, each behind its backslash. *)
Definition join_tail (l : list Str) : Str := flat_map (fun s => chr "\" :: s) l.

(** Where the loop of [NormalizeImpl] begins. *)
Definition after_unc (p : Str) : Str := skipn (if has_unc p then 4 else 0) p.

Definition free_of_separators (s : Str) : Prop := Forall (fun c => is_separator c = false) s.

(** What every segment is: not empty, and free of separators. *)
Definition segment (s : Str) : Prop := s <> [] /\ free_of_separators s.

(** Every [..] stands before every other segment. *)
Definition leading_dotdots (l : list Str) : Prop :=
  exists n rest, l = repeat kDotDot n ++ rest /\ ~ In kDotDot rest.

(** The invariant of the loop of [NormalizeImpl], on the segments kept. *)
Definition kept_ok (k : Kept) : Prop :=
  Forall segment (kept k)
  /\ (at_first k = true -> kept k = [] /\ absolute k = false /\ dot_only k = false)
  /\ (dot_only k = true -> kept k = [kDot] /\ absolute k = false)
  /\ (dot_only k = false -> ~ In kDot (kept k))
  /\ (absolute k = true ->
      exists d rest, kept k = d :: rest /\ is_drive d = true /\ ~ In kDotDot rest)
  /\ (absolute k = false -> leading_dotdots (kept k)).

(** What the loop of [NormalizeImpl] has kept at its end. *)
Definition kept_at_end (p : Str) : Kept := fold_left keep (segments (after_unc p)) nothing_kept.

(** A handle that [StdHandles] counts. *)
Definition valid_handle (h : HANDLE) : bool := negb (h =? INVALID_HANDLE_VALUE).

(** ** Examples *)

(** The plugin of the end-to-end example. *)
Definition appender : PluginEntry :=
  {| key := "Append";
     className := "org.apache.logging.log4j.core.appender.Appender";
     name := "Appender";
     printable := true;
     defer := false;
     category := "Core" |}.

Definition core_catalog : Catalog := [("Core", [("Append", appender)])].

(** The cache of [core_catalog]. *)
Definition core_bytes : list byte :=
  [x00; x00; x00; x01; x00; x04] ++ list_byte_of_string "Core"
  ++ [x00; x00; x00; x01; x00; x06] ++ list_byte_of_string "Append"
  ++ [x00; x2f] ++ list_byte_of_string "org.apache.logging.log4j.core.appender.Appender"
  ++ [x00; x08] ++ list_byte_of_string "Appender"
  ++ [x01; x00].

(** The same bytes with [00 35] for the length of the class name. *)
Definition claimed_bytes : list byte :=
  [x00; x00; x00; x01; x00; x04] ++ list_byte_of_string "Core"
  ++ [x00; x00; x00; x01; x00; x06] ++ list_byte_of_string "Append"
  ++ [x00; x35] ++ list_byte_of_string "org.apache.logging.log4j.core.appender.Appender"
  ++ [x00; x08] ++ list_byte_of_string "Appender"
  ++ [x01; x00].

(** A second plugin under the same category and key. *)
Definition other_appender : PluginEntry :=
  {| key := "Append";
     className := "com.example.OtherAppender";
     name := "Other";
     printable := false;
     defer := true;
     category := "Core" |}.

Definition other_catalog : Catalog := [("Core", [("Append", other_appender)])].

(** A plugin under another key. *)
Definition console : PluginEntry :=
  {| key := "Console";
     className := "org.apache.logging.log4j.core.appender.ConsoleAppender";
     name := "Console";
     printable := true;
     defer := false;
     category := "Core" |}.

(** The records of a cache in which a pair occurs twice. *)
Definition repeated_records : Catalog :=
  [("Core", [("Append", appender); ("Append", other_appender)])].

(** A catalog with an empty category. *)
Definition empty_core : Catalog := [("Core", [])].


(** A name of 65536 bytes. *)
Definition long_name : string := string_of_list_ascii (repeat "a"%char (256 * 256)).

(** An entry that is stored uncompressed. *)
Definition stored (bytes : list byte) : LH :=
  {| compression_method := Z_NO_COMPRESSION; data := bytes |}.

(** The combiner as its constructor leaves it. *)
Definition new_combiner (no_duplicates : bool) : Log4J2PluginDatCombiner :=
  {| categories_ := []; inflater_ := false; no_duplicates_ := no_duplicates |}.

(** A choice of the bytes uninitialised locals hold, and of the inflater, to
    run the code on. *)
Definition zeros : string -> nat -> byte := fun _ _ => x00.

(** Locals that hold zeros at every call of a reader in a load, and at
    every load of a run. *)
Definition all_zeros : call -> string -> nat -> byte := fun _ => zeros.

Definition always_zeros : nat -> call -> string -> nat -> byte := fun _ => all_zeros.

(** Locals that hold ones in all their bits. *)
Definition ones : string -> nat -> byte := fun _ _ => xff.

Definition all_ones : call -> string -> nat -> byte := fun _ => ones.

Definition always_ones : nat -> call -> string -> nat -> byte := fun _ => all_ones.

Definition no_inflater : list byte -> list byte := fun bytes => bytes.

(** A cache with the plugin [console] alone. *)
Definition console_catalog : Catalog := [("Core", [("Console", console)])].

(** A cache with the two plugins. *)
Definition core_plugins : Catalog :=
  [("Core", [("Append", appender); ("Console", console)])].


(** A stream on which a read has fallen short. *)
Definition failed_stream : istringstream := {| rdbuf := [x01; x02]; failbit := true |}.

(** An environment to run the path functions in: the letters of ASCII for
    [isalpha], and a system that knows no short name and no message. *)
Definition example_environment : Environment :=
  {| file := L "src/main/native/windows/util.cc";
     isalpha := fun c => ((chr "A" <=? c) && (c <=? chr "Z"))
                         || ((chr "a" <=? c) && (c <=? chr "z"));
     GetShortPathNameW := fun _ _ => (0, []);
     GetLastError := fun _ => 2;
     FormatMessageW := fun _ => (0, []);
     GetLastError_FormatMessageW := fun _ => 0 |}.

(** * Bytes and byte order *)

Lemma Z_of_byte_range (b : byte) : 0 <= Z_of_byte b < 256.
Proof.
  unfold Z_of_byte. pose proof (Byte.to_N_bounded b) as H.
  split; [apply N2Z.is_nonneg|]. 
  apply N2Z.inj_le in H. change (Z.of_N 255) with 255 in H. lia.
Qed.

Lemma byte_of_Z_of_byte (b : byte) : byte_of_Z (Z_of_byte b) = b.
Proof.
  unfold byte_of_Z. rewrite Z.mod_small by apply Z_of_byte_range.
  unfold Z_of_byte. rewrite N2Z.id, Byte.of_to_N. reflexivity.
Qed.

Lemma Z_of_byte_of_Z (z : Z) : Z_of_byte (byte_of_Z z) = z mod 256.
Proof.
  unfold byte_of_Z, Z_of_byte.
  assert (Hr : 0 <= z mod 256 < 256) by (apply Z.mod_pos_bound; lia).
  destruct (Byte.of_N (Z.to_N (z mod 256))) as [b|] eqn:E.
  - apply Byte.to_of_N in E. rewrite E, Z2N.id; lia.
  - apply Byte.of_N_None_iff in E. lia.
Qed.

Lemma byte_of_Z_mod (z : Z) : byte_of_Z (z mod 256) = byte_of_Z z.
Proof. unfold byte_of_Z. rewrite Z.mod_mod by lia. reflexivity. Qed.

Lemma lor_add_shifted (a x k : Z) :
  0 <= k -> 0 <= a < 2 ^ k -> Z.lor a (x * 2 ^ k) = a + x * 2 ^ k.
Proof.
  intros Hk Ha.
  assert (Hland : Z.land a (x * 2 ^ k) = 0).
  { apply Z.bits_inj'. intros n Hn. rewrite Z.land_spec, Z.bits_0.
    destruct (Z.lt_ge_cases n k) as [Hlt|Hge].
    - rewrite Z.mul_pow2_bits_low by lia. apply andb_false_r.
    - replace (Z.testbit a n) with false; [reflexivity|].
      symmetry. destruct (Z.eq_dec a 0) as [->|Hne]; [apply Z.bits_0|].
      assert (2 ^ k <= 2 ^ n) by (apply Z.pow_le_mono_r; lia).
      apply Z.bits_above_log2; [lia|].
      apply Z.log2_lt_pow2; lia. }
  rewrite <- Z.lxor_lor by exact Hland.
  symmetry. apply Z.add_nocarry_lxor. exact Hland.
Qed.

Lemma land_255 (z : Z) : Z.land z 255 = z mod 256.
Proof. change 255 with (Z.ones 8). rewrite Z.land_ones by lia. reflexivity. Qed.

Lemma swapByteOrder_uint32_t (v : Z) : swapByteOrder uint32_t v = swapped32 v.
Proof.
  unfold swapByteOrder, swapped32. cbn [sizeof uint32_t convert promote seq List.map fold_left].
  unfold wrap_unsigned.
  change (Z.of_nat 4) with 4. change (Z.of_nat 0) with 0. change (Z.of_nat 1) with 1.
  change (Z.of_nat 2) with 2. change (Z.of_nat 3) with 3.
  cbn [Z.mul Z.sub Z.add Z.opp Z.pos_sub Pos.mul Pos.add Pos.succ Pos.pred_double Z.succ_double Z.pred_double Z.double].
  rewrite !land_255, !Z.shiftr_div_pow2, !Z.shiftl_mul_pow2 by lia.
  change (2 ^ 32) with 4294967296. change (2 ^ 24) with 16777216.
  change (2 ^ 16) with 65536. change (2 ^ 8) with 256. change (2 ^ 0) with 1.
  rewrite Z.div_1_r.
  pose proof (Z.mod_pos_bound (v / 16777216) 256 ltac:(lia)) as H3.
  pose proof (Z.mod_pos_bound (v / 65536) 256 ltac:(lia)) as H2.
  pose proof (Z.mod_pos_bound (v / 256) 256 ltac:(lia)) as H1.
  pose proof (Z.mod_pos_bound v 256 ltac:(lia)) as H0.
  set (d3 := (v / 16777216) mod 256) in *. set (d2 := (v / 65536) mod 256) in *.
  set (d1 := (v / 256) mod 256) in *. set (d0 := v mod 256) in *.
  rewrite (Z.mod_small 0) by lia. rewrite Z.lor_0_l.
  rewrite (Z.mod_small (d3 * 1)) by lia. rewrite (Z.mod_small (d3 * 1)) by lia.
  rewrite (Z.mod_small (d2 * 256)) by lia.
  change 256 with (2 ^ 8) at 1. rewrite lor_add_shifted by lia. change (2 ^ 8) with 256.
  rewrite (Z.mod_small (d3 * 1 + d2 * 256)) by lia.
  rewrite (Z.mod_small (d1 * 65536)) by lia.
  change 65536 with (2 ^ 16) at 1. rewrite lor_add_shifted by lia. change (2 ^ 16) with 65536.
  rewrite (Z.mod_small (d3 * 1 + d2 * 256 + d1 * 65536)) by lia.
  rewrite (Z.mod_small (d0 * 16777216)) by lia.
  change 16777216 with (2 ^ 24) at 1. rewrite lor_add_shifted by lia. change (2 ^ 24) with 16777216.
  rewrite Z.mod_small by lia. lia.
Qed.

Lemma wrap_signed_small (x : Z) :
  -2147483648 <= x < 2147483648 -> wrap_signed 32 x = x.
Proof.
  intros H. unfold wrap_signed.
  change (2 ^ (32 - 1)) with 2147483648. change (2 ^ 32) with 4294967296.
  rewrite Z.mod_small; lia.
Qed.

Lemma lor_add_256 (a x : Z) : 0 <= a < 256 -> Z.lor a (x * 256) = a + x * 256.
Proof. intros H. apply (lor_add_shifted a x 8); lia. Qed.

Lemma lor_add_65536 (a x : Z) : 0 <= a < 65536 -> Z.lor a (x * 65536) = a + x * 65536.
Proof. intros H. apply (lor_add_shifted a x 16); lia. Qed.

Lemma lor_add_16777216 (a x : Z) :
  0 <= a < 16777216 -> Z.lor a (x * 16777216) = a + x * 16777216.
Proof. intros H. apply (lor_add_shifted a x 24); lia. Qed.

Lemma swapByteOrder_int (v : Z) : swapByteOrder int v = wrap_signed 32 (swapped32 v).
Proof.
  unfold swapByteOrder, swapped32. cbn [sizeof int convert promote seq List.map fold_left].
  change (Z.of_nat 4) with 4. change (Z.of_nat 0) with 0. change (Z.of_nat 1) with 1.
  change (Z.of_nat 2) with 2. change (Z.of_nat 3) with 3.
  change (8 * (4 - 0 - 1)) with 24. change (8 * (4 - 1 - 1)) with 16.
  change (8 * (4 - 2 - 1)) with 8. change (8 * (4 - 3 - 1)) with 0.
  change (8 * 0) with 0. change (8 * 1) with 8. change (8 * 2) with 16. change (8 * 3) with 24.
  rewrite !land_255, !Z.shiftr_div_pow2, !Z.shiftl_mul_pow2 by lia.
  change (2 ^ 24) with 16777216.
  change (2 ^ 16) with 65536. change (2 ^ 8) with 256. change (2 ^ 0) with 1.
  rewrite Z.div_1_r.
  pose proof (Z.mod_pos_bound (v / 16777216) 256 ltac:(lia)) as H3.
  pose proof (Z.mod_pos_bound (v / 65536) 256 ltac:(lia)) as H2.
  pose proof (Z.mod_pos_bound (v / 256) 256 ltac:(lia)) as H1.
  pose proof (Z.mod_pos_bound v 256 ltac:(lia)) as H0.
  set (d3 := (v / 16777216) mod 256) in *. set (d2 := (v / 65536) mod 256) in *.
  set (d1 := (v / 256) mod 256) in *. set (d0 := v mod 256) in *.
  rewrite (wrap_signed_small 0) by lia. rewrite Z.lor_0_l.
  rewrite (wrap_signed_small (d3 * 1)) by lia. rewrite (wrap_signed_small (d3 * 1)) by lia.
  rewrite (wrap_signed_small (d2 * 256)) by lia.
  rewrite lor_add_256 by lia.
  rewrite (wrap_signed_small (d3 * 1 + d2 * 256)) by lia.
  rewrite (wrap_signed_small (d1 * 65536)) by lia.
  rewrite lor_add_65536 by lia.
  rewrite (wrap_signed_small (d3 * 1 + d2 * 256 + d1 * 65536)) by lia.
  assert (Hw : wrap_signed 32 (d0 * 16777216) = (d0 - 256 * (d0 / 128)) * 16777216).
  { unfold wrap_signed. change (2 ^ (32 - 1)) with 2147483648.
    change (2 ^ 32) with 4294967296. Z.div_mod_to_equations. lia. }
  rewrite Hw. rewrite lor_add_16777216 by lia.
  rewrite wrap_signed_small by (Z.div_mod_to_equations; lia).
  unfold wrap_signed. change (2 ^ (32 - 1)) with 2147483648.
  change (2 ^ 32) with 4294967296. Z.div_mod_to_equations. lia.
Qed.

Lemma swapByteOrder_uint16_t (v : Z) : swapByteOrder uint16_t v = swapped16 v.
Proof.
  unfold swapByteOrder, swapped16. cbn [sizeof uint16_t convert promote seq List.map fold_left].
  change (Z.of_nat 2) with 2. change (Z.of_nat 0) with 0. change (Z.of_nat 1) with 1.
  change (8 * (2 - 0 - 1)) with 8. change (8 * (2 - 1 - 1)) with 0.
  change (8 * 0) with 0. change (8 * 1) with 8.
  rewrite !land_255, !Z.shiftr_div_pow2, !Z.shiftl_mul_pow2 by lia.
  change (2 ^ 8) with 256. change (2 ^ 0) with 1.
  rewrite Z.div_1_r. unfold wrap_unsigned. change (2 ^ 16) with 65536.
  pose proof (Z.mod_pos_bound (v / 256) 256 ltac:(lia)) as H1.
  pose proof (Z.mod_pos_bound v 256 ltac:(lia)) as H0.
  set (d1 := (v / 256) mod 256) in *. set (d0 := v mod 256) in *.
  rewrite (Z.mod_small 0) by lia. rewrite Z.lor_0_l.
  rewrite (wrap_signed_small (d1 * 1)) by lia. rewrite (Z.mod_small (d1 * 1)) by lia.
  rewrite (wrap_signed_small (d0 * 256)) by lia.
  rewrite lor_add_256 by lia.
  rewrite Z.mod_small by lia. lia.
Qed.

Lemma byte_of_Z_congr (x y : Z) : x mod 256 = y mod 256 -> byte_of_Z x = byte_of_Z y.
Proof. intros H. unfold byte_of_Z. rewrite H. reflexivity. Qed.

Lemma writeInt_be32 (buffer : list byte) (v : Z) : writeInt buffer v = buffer ++ be32 v.
Proof.
  unfold writeInt. f_equal. rewrite swapByteOrder_int.
  unfold object_bytes, be32. cbn [sizeof int seq List.map].
  change (8 * Z.of_nat 0) with 0. change (8 * Z.of_nat 1) with 8.
  change (8 * Z.of_nat 2) with 16. change (8 * Z.of_nat 3) with 24.
  rewrite !Z.shiftr_div_pow2 by lia.
  change (2 ^ 24) with 16777216.
  change (2 ^ 16) with 65536. change (2 ^ 8) with 256. change (2 ^ 0) with 1.
  unfold wrap_signed, swapped32. change (2 ^ (32 - 1)) with 2147483648.
  change (2 ^ 32) with 4294967296.
  repeat (apply (f_equal2 cons);
          [apply byte_of_Z_congr; Z.div_mod_to_equations; lia|]).
  reflexivity.
Qed.

Lemma writeUTFString_be16 (buffer : list byte) (str : string) :
  writeUTFString buffer str =
  buffer ++ be16 (Z.of_nat (String.length str) mod 65536) ++ list_byte_of_string str.
Proof.
  unfold writeUTFString. rewrite <- app_assoc. do 2 f_equal.
  rewrite swapByteOrder_uint16_t.
  unfold object_bytes, be16. cbn [sizeof uint16_t convert seq List.map].
  unfold wrap_unsigned. change (2 ^ 16) with 65536.
  change (8 * Z.of_nat 0) with 0. change (8 * Z.of_nat 1) with 8.
  rewrite !Z.shiftr_div_pow2 by lia.
  change (2 ^ 8) with 256. change (2 ^ 0) with 1.
  unfold swapped16.
  repeat (apply (f_equal2 cons);
          [apply byte_of_Z_congr; Z.div_mod_to_equations; lia|]).
  reflexivity.
Qed.

Lemma writeBoolean_app (buffer : list byte) (value : bool) :
  writeBoolean buffer value = buffer ++ [if value then x01 else x00].
Proof. reflexivity. Qed.

Lemma read_exact (bs rest s : list byte) :
  List.length s = List.length bs ->
  read {| rdbuf := bs ++ rest; failbit := false |} s
  = (bs, {| rdbuf := rest; failbit := false |}).
Proof.
  intros H. unfold read. cbn [failbit rdbuf]. rewrite H.
  rewrite length_app.
  replace (List.length bs <=? List.length bs + List.length rest)%nat with true
    by (symmetry; apply Nat.leb_le; lia).
  rewrite firstn_app, Nat.sub_diag, firstn_all, firstn_O, app_nil_r.
  rewrite skipn_app, Nat.sub_diag, skipn_all, skipn_O. reflexivity.
Qed.

Lemma length_uninitialized (ind : string -> nat -> byte) (local : string) (n : nat) :
  List.length (uninitialized ind local n) = n.
Proof. unfold uninitialized. rewrite length_map, length_seq. reflexivity. Qed.

Lemma swapped32_digits (a b c d : Z) :
  0 <= a < 256 /\ 0 <= b < 256 /\ 0 <= c < 256 /\ 0 <= d < 256 ->
  swapped32 (a + 256 * (b + 256 * (c + 256 * (d + 256 * 0))))
  = d + c * 256 + b * 65536 + a * 16777216.
Proof. intros H. unfold swapped32. Z.div_mod_to_equations. lia. Qed.

Lemma swapped16_digits (a b : Z) :
  0 <= a < 256 /\ 0 <= b < 256 ->
  swapped16 (a + 256 * (b + 256 * 0)) = b + a * 256.
Proof. intros H. unfold swapped16. Z.div_mod_to_equations. lia. Qed.

Section Readers.
Variable indeterminate : string -> nat -> byte.

Lemma readInt_be32 (v : Z) (rest : list byte) :
  readInt indeterminate {| rdbuf := be32 v ++ rest; failbit := false |}
  = (v mod 4294967296, {| rdbuf := rest; failbit := false |}).
Proof.
  unfold readInt. rewrite read_exact by (rewrite length_uninitialized; reflexivity).
  f_equal. rewrite swapByteOrder_uint32_t.
  unfold be32. cbn [object_value]. rewrite !Z_of_byte_of_Z.
  rewrite swapped32_digits by (repeat split; apply Z.mod_pos_bound; lia).
  Z.div_mod_to_equations. lia.
Qed.

Lemma readBool_byte (value : bool) (rest : list byte) :
  readBool indeterminate
    {| rdbuf := (if value then x01 else x00) :: rest; failbit := false |}
  = (value, {| rdbuf := rest; failbit := false |}).
Proof. destruct value; reflexivity. Qed.

Lemma readUTFString_be16 (str : string) (rest : list byte) :
  Z.of_nat (String.length str) <= 65535 ->
  readUTFString indeterminate
    {| rdbuf := be16 (Z.of_nat (String.length str) mod 65536)
                ++ list_byte_of_string str ++ rest;
       failbit := false |}
  = (str, {| rdbuf := rest; failbit := false |}).
Proof.
  intros Hlen. unfold readUTFString.
  rewrite read_exact by (rewrite length_uninitialized; reflexivity).
  rewrite swapByteOrder_uint16_t.
  assert (Hv : swapped16 (object_value (be16 (Z.of_nat (String.length str) mod 65536)))
               = Z.of_nat (String.length str)).
  { unfold be16. cbn [object_value]. rewrite !Z_of_byte_of_Z.
    rewrite swapped16_digits by (repeat split; apply Z.mod_pos_bound; lia).
    Z.div_mod_to_equations. lia. }
  rewrite Hv, Nat2Z.id.
  rewrite read_exact.
  - rewrite string_of_list_byte_of_string. reflexivity.
  - rewrite repeat_length. unfold list_byte_of_string.
    rewrite length_map. clear. induction str; simpl; congruence.
Qed.

End Readers.

(** * The order of strings and [std::map] *)

Lemma ascii_compare_refl (a : ascii) : Ascii.compare a a = Eq.
Proof. unfold Ascii.compare. apply N.compare_refl. Qed.

Lemma ascii_compare_trans (a b c : ascii) :
  Ascii.compare a b = Lt -> Ascii.compare b c = Lt -> Ascii.compare a c = Lt.
Proof.
  unfold Ascii.compare. rewrite !N.compare_lt_iff. apply N.lt_trans.
Qed.

Lemma compare_refl (s : string) : String.compare s s = Eq.
Proof. induction s as [|a s IH]; simpl; [reflexivity|]. now rewrite ascii_compare_refl. Qed.

Lemma compare_Eq (s1 s2 : string) : String.compare s1 s2 = Eq <-> s1 = s2.
Proof.
  split; [apply String.compare_eq_iff|]. intros ->. apply compare_refl.
Qed.

Lemma compare_Gt (s1 s2 : string) : String.compare s1 s2 = Gt <-> less s2 s1.
Proof.
  unfold less. rewrite (String.compare_antisym s2 s1).
  destruct (String.compare s1 s2); simpl; split; congruence.
Qed.

Lemma less_irrefl (s : string) : ~ less s s.
Proof. unfold less. rewrite compare_refl. discriminate. Qed.

Lemma less_trans (s1 s2 s3 : string) : less s1 s2 -> less s2 s3 -> less s1 s3.
Proof.
  unfold less. revert s2 s3.
  induction s1 as [|a s1 IH]; intros [|b s2] [|c s3]; simpl; try congruence.
  destruct (Ascii.compare a b) eqn:Eab; try discriminate;
    destruct (Ascii.compare b c) eqn:Ebc; try discriminate; intros H1 H2.
  - apply Ascii.compare_eq_iff in Eab, Ebc. subst.
    rewrite ascii_compare_refl. eauto.
  - apply Ascii.compare_eq_iff in Eab. subst. now rewrite Ebc.
  - apply Ascii.compare_eq_iff in Ebc. subst. now rewrite Eab.
  - now rewrite (ascii_compare_trans a b c).
Qed.

Lemma less_not_eq (s1 s2 : string) : less s1 s2 -> s1 <> s2.
Proof. intros H ->. exact (less_irrefl _ H). Qed.

Lemma less_asym (s1 s2 : string) : less s1 s2 -> ~ less s2 s1.
Proof. intros H1 H2. exact (less_irrefl _ (less_trans _ _ _ H1 H2)). Qed.

Lemma compare_spec (s1 s2 : string) : compare_cases s1 s2 (String.compare s1 s2).
Proof.
  destruct (String.compare s1 s2) eqn:E; constructor.
  - now apply compare_Eq.
  - exact E.
  - now apply compare_Gt.
Qed.

Lemma compare_lt (s1 s2 : string) : less s1 s2 -> String.compare s1 s2 = Lt.
Proof. exact (fun H => H). Qed.

Lemma compare_gt (s1 s2 : string) : less s2 s1 -> String.compare s1 s2 = Gt.
Proof. apply compare_Gt. Qed.

(** Rewrites every comparison whose outcome the context decides. *)
Ltac order :=
  repeat match goal with
    | H : less ?a ?a |- _ => destruct (less_irrefl a H)
    | H1 : less ?a ?b, H2 : less ?b ?a |- _ => destruct (less_asym a b H1 H2)
    | H1 : less ?a ?b, H2 : less ?b ?c |- _ =>
        lazymatch goal with
        | _ : less a c |- _ => fail
        | _ => pose proof (less_trans a b c H1 H2)
        end
    end.

Ltac cmp a b :=
  let H := fresh "Hcmp" in
  destruct (compare_spec a b) as [H|H|H]; [try subst| |]; order.

Ltac cmp_rewrite :=
  repeat first
    [ rewrite compare_refl
    | match goal with
      | H : less ?a ?b |- context [String.compare ?a ?b] => rewrite (compare_lt a b H)
      | H : less ?b ?a |- context [String.compare ?a ?b] => rewrite (compare_gt a b H)
      end ].

(** Decides every comparison of the goal, case by case. *)
Ltac cmp_all :=
  repeat first
    [ progress (simpl; cmp_rewrite)
    | match goal with
      | |- context [String.compare ?a ?b] => cmp a b
      end ].

Section Maps.
Context {V : Type}.
Implicit Types (m : map V) (k : string) (v : V).

Lemma find_insert_same k v m :
  find k (insert (k, v) m) = match find k m with Some v' => Some v' | None => Some v end.
Proof. induction m as [|[k' v'] m IH]; cmp_all; auto. Qed.

Lemma find_insert_other k k' v m : k <> k' -> find k (insert (k', v) m) = find k m.
Proof. intros Hne. induction m as [|[k0 v0] m IH]; cmp_all; auto; congruence. Qed.

Lemma find_assign_same k v m : find k (assign k v m) = Some v.
Proof. induction m as [|[k' v'] m IH]; cmp_all; auto. Qed.

Lemma find_assign_other k k' v m : k <> k' -> find k (assign k' v m) = find k m.
Proof. intros Hne. induction m as [|[k0 v0] m IH]; cmp_all; auto; congruence. Qed.

Lemma find_In k v m : find k m = Some v -> In (k, v) m.
Proof.
  induction m as [|[k' v'] m IH]; cmp_all; intros H; try discriminate.
  - left. congruence.
  - right. auto.
Qed.

Lemma In_insert (x : string * V) p m : In x (insert p m) -> x = p \/ In x m.
Proof. induction m as [|[k' v'] m IH]; cmp_all; intuition. Qed.

Lemma In_assign (x : string * V) k v m : In x (assign k v m) -> x = (k, v) \/ In x m.
Proof. induction m as [|[k' v'] m IH]; cmp_all; intuition. Qed.

Lemma keys_insert_Forall (P : string -> Prop) p m :
  P (fst p) -> Forall P (keys m) -> Forall P (keys (insert p m)).
Proof.
  intros Hp. induction m as [|[k' v'] m IH]; simpl; intros H.
  - constructor; auto.
  - inversion H; subst. cmp (fst p) k'; simpl; repeat constructor; auto.
Qed.

Lemma keys_assign_Forall (P : string -> Prop) k v m :
  P k -> Forall P (keys m) -> Forall P (keys (assign k v m)).
Proof.
  intros Hp. induction m as [|[k' v'] m IH]; simpl; intros H.
  - constructor; auto.
  - inversion H; subst. cmp k k'; simpl; repeat constructor; auto.
Qed.

Lemma Forall_less_trans k k' (l : list string) :
  less k k' -> Forall (less k') l -> Forall (less k) l.
Proof.
  intros Hlt H. eapply Forall_impl; [|exact H]. intros a Ha. exact (less_trans _ _ _ Hlt Ha).
Qed.

Lemma map_ok_insert p m : map_ok m -> map_ok (insert p m).
Proof.
  unfold map_ok. induction m as [|[k' v'] m IH]; simpl; intros H.
  - repeat constructor.
  - inversion H as [|? ? Hs Hall]; subst.
    destruct (compare_spec (fst p) k') as [E|E|E]; simpl.
    + exact H.
    + constructor; [exact H|]. constructor; [exact E|].
      exact (Forall_less_trans _ _ _ E Hall).
    + constructor; [auto|]. apply keys_insert_Forall; assumption.
Qed.

Lemma map_ok_assign k v m : map_ok m -> map_ok (assign k v m).
Proof.
  unfold map_ok. induction m as [|[k' v'] m IH]; simpl; intros H.
  - repeat constructor.
  - inversion H as [|? ? Hs Hall]; subst.
    destruct (compare_spec k k') as [E|E|E]; simpl.
    + constructor; assumption.
    + constructor; [exact H|]. constructor; [exact E|].
      exact (Forall_less_trans _ _ _ E Hall).
    + constructor; [auto|]. apply keys_assign_Forall; assumption.
Qed.

Lemma In_find k v m : map_ok m -> In (k, v) m -> find k m = Some v.
Proof.
  unfold map_ok. induction m as [|[k' v'] m IH]; simpl; intros Hok Hin; [contradiction|].
  inversion Hok as [|? ? Hs Hall]; subst.
  destruct Hin as [E|Hin].
  - inversion E; subst. now rewrite compare_refl.
  - assert (Hlt : less k' k).
    { rewrite Forall_forall in Hall. apply Hall. change k with (fst (k, v)).
      apply in_map. exact Hin. }
    rewrite (compare_gt k k') by exact Hlt. auto.
Qed.

(** Appending at the end: what [insert] and [assign] do with a key above
    all others. *)
Lemma insert_last k v m : Forall (fun k' => less k' k) (keys m) -> insert (k, v) m = m ++ [(k, v)].
Proof.
  induction m as [|[k' v'] m IH]; simpl; intros H; [reflexivity|].
  inversion H; subst. rewrite (compare_gt k k') by assumption. f_equal. auto.
Qed.

Lemma find_above k m : Forall (fun k' => less k' k) (keys m) -> find k m = None.
Proof.
  induction m as [|[k' v'] m IH]; simpl; intros H; [reflexivity|].
  inversion H; subst. rewrite (compare_gt k k') by assumption. auto.
Qed.

Lemma find_last k v m : Forall (fun k' => less k' k) (keys m) -> find k (m ++ [(k, v)]) = Some v.
Proof.
  induction m as [|[k' v'] m IH]; simpl; intros H.
  - now rewrite compare_refl.
  - inversion H; subst. rewrite (compare_gt k k') by assumption. auto.
Qed.

Lemma assign_last k v v' m :
  Forall (fun k' => less k' k) (keys m) -> assign k v (m ++ [(k, v')]) = m ++ [(k, v)].
Proof.
  induction m as [|[k0 v0] m IH]; simpl; intros H.
  - now rewrite compare_refl.
  - inversion H; subst. rewrite (compare_gt k k0) by assumption. f_equal. auto.
Qed.

End Maps.

Section Nested.
Context {V : Type}.
Implicit Types (m : map (map V)) (k : string).

Lemma insert_into_new k (p : string * V) m :
  Forall (fun k' => less k' k) (keys m) -> insert_into k p m = m ++ [(k, [p])].
Proof.
  intros H. unfold insert_into, subscript. rewrite find_above by exact H.
  rewrite insert_last by exact H. apply assign_last. exact H.
Qed.

Lemma insert_into_last k (p : string * V) (pre : map V) m :
  Forall (fun k' => less k' k) (keys m) ->
  Forall (fun k' => less k' (fst p)) (keys pre) ->
  insert_into k p (m ++ [(k, pre)]) = m ++ [(k, pre ++ [p])].
Proof.
  intros H Hp. unfold insert_into, subscript. rewrite find_last by exact H.
  destruct p as [kp v]. rewrite insert_last by exact Hp. apply assign_last. exact H.
Qed.

End Nested.

(** * Loading what was written *)

Lemma write_plugin_app (buffer : list byte) (p : string * PluginEntry) :
  write_plugin buffer p = buffer ++ write_plugin [] p.
Proof.
  unfold write_plugin. rewrite !writeBoolean_app, !writeUTFString_be16.
  cbn [app]. rewrite <- !app_assoc. reflexivity.
Qed.

Lemma fold_write_plugin (l : map PluginEntry) (buffer : list byte) :
  fold_left write_plugin l buffer = buffer ++ flat_map (write_plugin []) l.
Proof.
  revert buffer. induction l as [|p l IH]; intros buffer; simpl.
  - now rewrite app_nil_r.
  - rewrite IH, write_plugin_app, <- app_assoc. reflexivity.
Qed.

Lemma write_category_app (buffer : list byte) (cp : string * map PluginEntry) :
  write_category buffer cp = buffer ++ write_category [] cp.
Proof.
  unfold write_category. rewrite !fold_write_plugin, !writeInt_be32, !writeUTFString_be16.
  cbn [app]. rewrite <- !app_assoc. reflexivity.
Qed.

Lemma fold_write_category (c : Catalog) (buffer : list byte) :
  fold_left write_category c buffer = buffer ++ flat_map (write_category []) c.
Proof.
  revert buffer. induction c as [|p l IH]; intros buffer; simpl.
  - now rewrite app_nil_r.
  - rewrite IH, write_category_app, <- app_assoc. reflexivity.
Qed.

(** The layout of the bytes written. *)
Lemma write_plugin_layout (p : string * PluginEntry) :
  write_plugin [] p =
  be16 (Z.of_nat (String.length (key (snd p))) mod 65536) ++ list_byte_of_string (key (snd p))
  ++ be16 (Z.of_nat (String.length (className (snd p))) mod 65536)
  ++ list_byte_of_string (className (snd p))
  ++ be16 (Z.of_nat (String.length (name (snd p))) mod 65536)
  ++ list_byte_of_string (name (snd p))
  ++ [if printable (snd p) then x01 else x00] ++ [if defer (snd p) then x01 else x00].
Proof.
  unfold write_plugin. rewrite !writeBoolean_app, !writeUTFString_be16.
  cbn [app]. rewrite <- !app_assoc. reflexivity.
Qed.

Lemma write_category_layout (cp : string * map PluginEntry) :
  write_category [] cp =
  be16 (Z.of_nat (String.length (fst cp)) mod 65536) ++ list_byte_of_string (fst cp)
  ++ be32 (convert int (Z.of_nat (List.length (snd cp))))
  ++ flat_map (write_plugin []) (snd cp).
Proof.
  unfold write_category. rewrite fold_write_plugin, writeInt_be32, writeUTFString_be16.
  cbn [app]. rewrite <- !app_assoc. reflexivity.
Qed.

Lemma writeLog4j2PluginCacheFile_layout (c : Catalog) :
  writeLog4j2PluginCacheFile c =
  be32 (convert int (Z.of_nat (List.length c))) ++ flat_map (write_category []) c.
Proof.
  unfold writeLog4j2PluginCacheFile. rewrite fold_write_category, writeInt_be32. reflexivity.
Qed.

Lemma readInt_count (ind : string -> nat -> byte) (n : nat) (rest : list byte) :
  Z.of_nat n < 4294967296 ->
  readInt ind {| rdbuf := be32 (convert int (Z.of_nat n)) ++ rest; failbit := false |}
  = (Z.of_nat n, {| rdbuf := rest; failbit := false |}).
Proof.
  intros H. rewrite readInt_be32. f_equal.
  cbn [convert int]. unfold wrap_signed.
  change (2 ^ (32 - 1)) with 2147483648. change (2 ^ 32) with 4294967296.
  Z.div_mod_to_equations. lia.
Qed.

Lemma for_S {A : Type} (n : nat) (body : nat -> A -> A) (s : A) :
  for_ (S n) body s = for_ n (fun i => body (S i)) (body O s).
Proof. reflexivity. Qed.

(** What every round of a loop keeps holds after the loop. *)
Lemma for_keeps {A : Type} (P : A -> Prop) (n : nat) (body : nat -> A -> A) (s : A) :
  (forall i s, P s -> P (body i s)) -> P s -> P (for_ n body s).
Proof.
  revert body s. induction n as [|n IH]; intros body s Hbody Hs.
  - exact Hs.
  - rewrite for_S. apply IH.
    + intros i s'. apply Hbody.
    + apply Hbody. exact Hs.
Qed.


Lemma flat_map_head {A B : Type} (f : A -> list B) (a : A) (l : list A) :
  flat_map f (a :: l) = f a ++ flat_map f l.
Proof. reflexivity. Qed.

(** A loop whose every round reads one written plugin replays the plugins
    written. *)
Lemma plugins_written (body : nat -> istringstream * Catalog -> istringstream * Catalog)
    (cat : string) (l : map PluginEntry) (c : Catalog) (rest : list byte) :
  (forall j p rest c, plugin_fits p ->
     body j ({| rdbuf := write_plugin [] p ++ rest; failbit := false |}, c)
     = ({| rdbuf := rest; failbit := false |},
        insert_into cat (key (snd p), with_category cat (snd p)) c)) ->
  Forall plugin_fits l ->
  for_ (List.length l) body
    ({| rdbuf := flat_map (write_plugin []) l ++ rest; failbit := false |}, c)
  = ({| rdbuf := rest; failbit := false |}, replay_plugins cat l c).
Proof.
  intros Hbody Hfit. revert body Hbody c.
  induction l as [|p l IH]; intros body Hbody c.
  - reflexivity.
  - apply Forall_cons_iff in Hfit as [Hp Hfit].
    rewrite length_cons, for_S, flat_map_head, <- app_assoc.
    rewrite Hbody by exact Hp.
    rewrite (IH Hfit (fun i => body (S i))).
    + reflexivity.
    + intros j. apply Hbody.
Qed.

(** A loop whose every round reads one written category replays the
    records written. *)
Lemma categories_written (body : nat -> istringstream * Catalog -> istringstream * Catalog)
    (records c : Catalog) (rest : list byte) :
  (forall i cp rest c,
     fits (fst cp) -> Forall plugin_fits (snd cp) ->
     Z.of_nat (List.length (snd cp)) < 4294967296 ->
     body i ({| rdbuf := write_category [] cp ++ rest; failbit := false |}, c)
     = ({| rdbuf := rest; failbit := false |}, replay_plugins (fst cp) (snd cp) c)) ->
  strings_fit records ->
  Forall (fun cp => Z.of_nat (List.length (snd cp)) < 4294967296) records ->
  for_ (List.length records) body
    ({| rdbuf := flat_map (write_category []) records ++ rest; failbit := false |}, c)
  = ({| rdbuf := rest; failbit := false |}, replay records c).
Proof.
  intros Hbody Hfit Hlen. revert body Hbody c.
  induction records as [|cp records IH]; intros body Hbody c.
  - reflexivity.
  - apply Forall_cons_iff in Hfit as [[Hf Hfs] Hfit].
    apply Forall_cons_iff in Hlen as [Hl Hlen].
    rewrite length_cons, for_S, flat_map_head, <- app_assoc.
    rewrite Hbody by assumption.
    rewrite (IH Hfit Hlen (fun i => body (S i))).
    + reflexivity.
    + intros i. apply Hbody.
Qed.

Section Loading.
Variable indeterminate : call -> string -> nat -> byte.

Lemma load_plugin_written (cat : string) (i j : nat) (p : string * PluginEntry)
    (rest : list byte) (categories : Catalog) :
  plugin_fits p ->
  load_plugin indeterminate cat i j
    ({| rdbuf := write_plugin [] p ++ rest; failbit := false |}, categories)
  = ({| rdbuf := rest; failbit := false |},
     insert_into cat (key (snd p), with_category cat (snd p)) categories).
Proof.
  intros [Hk [Hc Hn]]. unfold load_plugin.
  rewrite write_plugin_layout, <- !app_assoc.
  rewrite readUTFString_be16 by exact Hk.
  rewrite readUTFString_be16 by exact Hc.
  rewrite readUTFString_be16 by exact Hn.
  cbn [app]. rewrite readBool_byte. cbv beta iota.
  rewrite readBool_byte. reflexivity.
Qed.

Lemma load_plugins_written (cat : string) (i : nat) (l : map PluginEntry)
    (c : Catalog) (rest : list byte) :
  Forall plugin_fits l ->
  for_ (List.length l) (load_plugin indeterminate cat i)
    ({| rdbuf := flat_map (write_plugin []) l ++ rest; failbit := false |}, c)
  = ({| rdbuf := rest; failbit := false |}, replay_plugins cat l c).
Proof.
  apply plugins_written. intros j p rest' c'. apply load_plugin_written.
Qed.

Lemma load_category_written (i : nat) (cp : string * map PluginEntry)
    (c : Catalog) (rest : list byte) :
  fits (fst cp) -> Forall plugin_fits (snd cp) ->
  Z.of_nat (List.length (snd cp)) < 4294967296 ->
  load_category indeterminate i
    ({| rdbuf := write_category [] cp ++ rest; failbit := false |}, c)
  = ({| rdbuf := rest; failbit := false |}, replay_plugins (fst cp) (snd cp) c).
Proof.
  intros Hfit Hfits Hlen. unfold load_category.
  rewrite write_category_layout, <- !app_assoc.
  rewrite readUTFString_be16 by exact Hfit.
  rewrite readInt_count by exact Hlen. rewrite Nat2Z.id.
  apply load_plugins_written. exact Hfits.
Qed.

Lemma load_categories_written (records c : Catalog) (rest : list byte) :
  strings_fit records ->
  Forall (fun cp => Z.of_nat (List.length (snd cp)) < 4294967296) records ->
  for_ (List.length records) (load_category indeterminate)
    ({| rdbuf := flat_map (write_category []) records ++ rest; failbit := false |}, c)
  = ({| rdbuf := rest; failbit := false |}, replay records c).
Proof.
  apply categories_written. intros i cp rest' c'. apply load_category_written.
Qed.

(** Loading what was written replays the records, whatever their order
    and repetitions. *)
Lemma load_stream_written (records : Catalog) :
  strings_fit records -> counts_fit records ->
  load_stream indeterminate (writeLog4j2PluginCacheFile records)
  = ({| rdbuf := []; failbit := false |}, replay records []).
Proof.
  intros Hfit [Hn Hlen]. unfold load_stream.
  rewrite writeLog4j2PluginCacheFile_layout.
  rewrite readInt_count by exact Hn. rewrite Nat2Z.id.
  rewrite <- (app_nil_r (flat_map (write_category []) records)).
  apply load_categories_written; assumption.
Qed.

End Loading.

Lemma replay_plugins_cons (cat : string) (p : string * PluginEntry)
    (l : map PluginEntry) (c : Catalog) :
  replay_plugins cat (p :: l) c
  = replay_plugins cat l (insert_into cat (key (snd p), with_category cat (snd p)) c).
Proof. reflexivity. Qed.

Lemma replay_cons (cp : string * map PluginEntry) (records c : Catalog) :
  replay (cp :: records) c = replay records (replay_plugins (fst cp) (snd cp) c).
Proof. reflexivity. Qed.

(** Replaying the pairs of a map in their order rebuilds the map. *)
Lemma with_category_same (e : PluginEntry) : with_category (category e) e = e.
Proof. destruct e. reflexivity. Qed.

Lemma replay_plugins_sorted (cat : string) (l pre : map PluginEntry) (acc : Catalog) :
  Forall (fun p => fst p = key (snd p) /\ category (snd p) = cat) l ->
  StronglySorted less (keys l) ->
  Forall (fun k' => Forall (less k') (keys l)) (keys pre) ->
  Forall (fun k' => less k' cat) (keys acc) ->
  replay_plugins cat l (acc ++ [(cat, pre)]) = acc ++ [(cat, pre ++ l)].
Proof.
  intros Hok Hs Hpre Hacc. revert pre Hpre.
  induction l as [|[k e] l IH]; intros pre Hpre.
  - rewrite app_nil_r. reflexivity.
  - apply Forall_cons_iff in Hok as [[Hkey Hcat] Hok'].
    change (keys ((k, e) :: l)) with (k :: keys l) in Hs, Hpre.
    apply StronglySorted_inv in Hs as [Hs' Hk].
    cbn [fst snd] in Hkey, Hcat.
    assert (Hpre1 : Forall (fun k' => less k' k) (keys pre)).
    { eapply Forall_impl; [|exact Hpre]. intros a Ha.
      apply Forall_cons_iff in Ha. tauto. }
    rewrite replay_plugins_cons. cbn [fst snd].
    rewrite <- Hkey, <- Hcat, with_category_same, Hcat.
    rewrite insert_into_last by assumption.
    rewrite (IH Hok' Hs').
    + rewrite <- app_assoc. reflexivity.
    + unfold keys. rewrite map_app. apply Forall_app. split.
      * eapply Forall_impl; [|exact Hpre]. intros a Ha.
        apply Forall_cons_iff in Ha. tauto.
      * repeat constructor. exact Hk.
Qed.

Lemma replay_category_sorted (cat : string) (l : map PluginEntry) (acc : Catalog) :
  l <> [] ->
  Forall (fun p => fst p = key (snd p) /\ category (snd p) = cat) l ->
  StronglySorted less (keys l) ->
  Forall (fun k' => less k' cat) (keys acc) ->
  replay_plugins cat l acc = acc ++ [(cat, l)].
Proof.
  intros Hne Hok Hs Hacc. destruct l as [|[k e] l]; [congruence|].
  pose proof Hok as Hok0. pose proof Hs as Hs0.
  apply Forall_cons_iff in Hok as [[Hkey Hcat] Hok'].
  change (keys ((k, e) :: l)) with (k :: keys l) in Hs.
  apply StronglySorted_inv in Hs as [Hs' Hk].
  cbn [fst snd] in Hkey, Hcat.
  rewrite replay_plugins_cons. cbn [fst snd].
  rewrite <- Hkey, <- Hcat, with_category_same, Hcat.
  rewrite insert_into_new by assumption.
  rewrite replay_plugins_sorted; try assumption.
  - reflexivity.
  - repeat constructor. exact Hk.
Qed.

Lemma replay_sorted (c acc : Catalog) :
  Catalog_ok c -> keyed_by_key c -> owned_by_category c -> no_empty_category c ->
  Forall (fun k' => Forall (less k') (keys c)) (keys acc) ->
  replay c acc = acc ++ c.
Proof.
  intros [Hs Hm] Hk Ho Hn. revert acc.
  unfold keyed_by_key, owned_by_category, no_empty_category, map_ok in *.
  induction c as [|[cat l] c IH]; intros acc Hacc.
  - rewrite app_nil_r. reflexivity.
  - apply Forall_cons_iff in Hm as [Hm1 Hm].
    apply Forall_cons_iff in Hk as [Hk1 Hk].
    apply Forall_cons_iff in Ho as [Ho1 Ho].
    apply Forall_cons_iff in Hn as [Hn1 Hn].
    change (keys ((cat, l) :: c)) with (cat :: keys c) in Hs, Hacc.
    apply StronglySorted_inv in Hs as [Hs' Hlt].
    cbn [fst snd] in *.
    rewrite replay_cons. cbn [fst snd].
    rewrite replay_category_sorted; try assumption.
    + rewrite IH; try assumption.
      * rewrite <- app_assoc. reflexivity.
      * unfold keys. rewrite map_app. apply Forall_app. split.
        -- eapply Forall_impl; [|exact Hacc]. intros a Ha.
           apply Forall_cons_iff in Ha. tauto.
        -- repeat constructor. exact Hlt.
    + rewrite Forall_forall in *. intros p Hp. split; auto.
    + eapply Forall_impl; [|exact Hacc]. intros a Ha.
      apply Forall_cons_iff in Ha. tauto.
Qed.

(** * Lookups, replayed records and the lenient merge *)

Section InsertInto.
Context {V : Type}.
Implicit Types (m : map (map V)) (k : string).

Lemma assign_insert k (v v0 : map V) m : assign k v (insert (k, v0) m) = assign k v m.
Proof. induction m as [|[k' v'] m IH]; cmp_all; congruence. Qed.

Lemma insert_into_assign k (p : string * V) m :
  insert_into k p m = assign k (insert p (get k m)) m.
Proof.
  unfold insert_into, subscript, get. destruct (find k m); [reflexivity|].
  apply assign_insert.
Qed.

Lemma find_insert_into_same k (p : string * V) m :
  find k (insert_into k p m) = Some (insert p (get k m)).
Proof. rewrite insert_into_assign. apply find_assign_same. Qed.

Lemma find_insert_into_other k k' (p : string * V) m :
  k <> k' -> find k (insert_into k' p m) = find k m.
Proof. intros H. rewrite insert_into_assign. now apply find_assign_other. Qed.

End InsertInto.

Lemma lookup_insert_into_same (cat k : string) (e : PluginEntry) (c : Catalog) :
  lookup cat k (insert_into cat (k, e) c)
  = match lookup cat k c with Some e' => Some e' | None => Some e end.
Proof.
  unfold lookup. rewrite find_insert_into_same, find_insert_same.
  unfold get. destruct (find cat c); [reflexivity|]. reflexivity.
Qed.

Lemma lookup_insert_into_other (cat k cat' k' : string) (e : PluginEntry) (c : Catalog) :
  cat <> cat' \/ k <> k' ->
  lookup cat k (insert_into cat' (k', e) c) = lookup cat k c.
Proof.
  intros H. unfold lookup.
  destruct (string_dec cat cat') as [->|Hne].
  - destruct H as [H|H]; [congruence|].
    rewrite find_insert_into_same, find_insert_other by exact H.
    unfold get. destruct (find cat' c); reflexivity.
  - rewrite find_insert_into_other by exact Hne. reflexivity.
Qed.

(** An entry a catalog holds stays, whatever is inserted. *)
Lemma lookup_insert_into_kept (cat k cat' : string) (p : string * PluginEntry)
    (e : PluginEntry) (c : Catalog) :
  lookup cat k c = Some e -> lookup cat k (insert_into cat' p c) = Some e.
Proof.
  intros H. destruct p as [k' e'].
  destruct (string_dec cat cat') as [->|Hc].
  - destruct (string_dec k k') as [->|Hk].
    + rewrite lookup_insert_into_same, H. reflexivity.
    + rewrite lookup_insert_into_other by (right; exact Hk). exact H.
  - rewrite lookup_insert_into_other by (left; exact Hc). exact H.
Qed.

Lemma lookup_assign_other (cat k cat' : string) (l : map PluginEntry) (c : Catalog) :
  cat <> cat' -> lookup cat k (assign cat' l c) = lookup cat k c.
Proof. intros H. unfold lookup. now rewrite find_assign_other. Qed.

Lemma lookup_assign_same (cat k : string) (l : map PluginEntry) (c : Catalog) :
  lookup cat k (assign cat l c) = find k l.
Proof. unfold lookup. now rewrite find_assign_same. Qed.

(** ** Replaying records keeps the first occurrence *)

Lemma lookup_replay_plugins_other (cat k cat' : string) (l : map PluginEntry) (c : Catalog) :
  cat <> cat' -> lookup cat k (replay_plugins cat' l c) = lookup cat k c.
Proof.
  intros H. revert c. induction l as [|p l IH]; intros c; [reflexivity|].
  rewrite replay_plugins_cons, IH. apply lookup_insert_into_other. left. exact H.
Qed.

Lemma lookup_replay_plugins (cat k : string) (l : map PluginEntry) (c : Catalog) :
  lookup cat k (replay_plugins cat l c)
  = match lookup cat k c with
    | Some e => Some e
    | None => option_map (with_category cat) (first_plugin k l)
    end.
Proof.
  revert c. induction l as [|p l IH]; intros c.
  - cbn. destruct (lookup cat k c); reflexivity.
  - rewrite replay_plugins_cons, IH. cbn [first_plugin]. destruct (String.eqb_spec (key (snd p)) k) as [->|Hne].
    + rewrite lookup_insert_into_same. destruct (lookup cat k c); reflexivity.
    + rewrite lookup_insert_into_other by (right; congruence). reflexivity.
Qed.

Lemma lookup_replay (cat k : string) (records c : Catalog) :
  lookup cat k (replay records c)
  = match lookup cat k c with
    | Some e => Some e
    | None => first_occurrence cat k records
    end.
Proof.
  revert c. induction records as [|[cat' l] records IH]; intros c.
  - cbn. destruct (lookup cat k c); reflexivity.
  - rewrite replay_cons, IH. cbn [first_occurrence fst snd]. destruct (String.eqb_spec cat' cat) as [->|Hne].
    + rewrite lookup_replay_plugins. destruct (lookup cat k c); [reflexivity|].
      destruct (first_plugin k l); reflexivity.
    + rewrite lookup_replay_plugins_other by congruence. reflexivity.
Qed.


(** ** The loops of [Merge] when duplicates are accepted *)

Lemma merge_plugins_lenient (cat : string) (l : map PluginEntry) (c : Catalog) :
  merge_plugins false cat l c = Returned (fold_left (fun c p => insert_into cat p c) l c).
Proof.
  revert c. induction l as [|p l IH]; intros c; [reflexivity|].
  cbn [merge_plugins fold_left]. unfold subscript.
  destruct (find cat c) as [inner|] eqn:E.
  - rewrite andb_false_r. apply IH.
  - rewrite andb_false_r. rewrite IH. do 2 f_equal.
    rewrite !insert_into_assign. unfold get.
    rewrite find_insert_same, E. rewrite assign_insert. reflexivity.
Qed.

Lemma merge_categories_lenient (inc c : Catalog) :
  merge_categories false inc c = Returned (merged inc c).
Proof.
  revert c. induction inc as [|[cat l] inc IH]; intros c; [reflexivity|].
  cbn [merge_categories merged]. destruct (is_some (find cat c)).
  - rewrite merge_plugins_lenient. apply IH.
  - apply IH.
Qed.

Lemma lookup_fold_insert_into_kept (cat k cat' : string) (l : map PluginEntry)
    (e : PluginEntry) (c : Catalog) :
  lookup cat k c = Some e ->
  lookup cat k (fold_left (fun c p => insert_into cat' p c) l c) = Some e.
Proof.
  revert c. induction l as [|p l IH]; intros c H; [exact H|].
  cbn [fold_left]. apply IH. now apply lookup_insert_into_kept.
Qed.

Lemma lookup_merged_kept (cat k : string) (e : PluginEntry) (inc c : Catalog) :
  lookup cat k c = Some e -> lookup cat k (merged inc c) = Some e.
Proof.
  revert c. induction inc as [|[cat' l] inc IH]; intros c H; [exact H|].
  cbn [merged]. apply IH. destruct (find cat' c) as [inner|] eqn:E; cbn [is_some].
  - now apply lookup_fold_insert_into_kept.
  - rewrite lookup_assign_other; [exact H|].
    intros ->. unfold lookup in H. rewrite E in H. discriminate.
Qed.

(** * The strict merge *)

Lemma first_duplicate_key_ext (cat : string) (l : map PluginEntry) (c1 c2 : Catalog) :
  (forall p, In p l -> lookup cat (fst p) c1 = lookup cat (fst p) c2) ->
  first_duplicate_key cat l c1 = first_duplicate_key cat l c2.
Proof.
  induction l as [|p l IH]; intros H; [reflexivity|].
  cbn [first_duplicate_key]. rewrite (H p (or_introl eq_refl)).
  rewrite IH; [reflexivity|]. intros q Hq. apply H. now right.
Qed.

Lemma first_duplicate_ext (inc c1 c2 : Catalog) :
  (forall cp k, In cp inc -> lookup (fst cp) k c1 = lookup (fst cp) k c2) ->
  first_duplicate inc c1 = first_duplicate inc c2.
Proof.
  induction inc as [|[cat l] inc IH]; intros H; [reflexivity|].
  cbn [first_duplicate].
  rewrite (first_duplicate_key_ext cat l c1 c2).
  - rewrite IH; [reflexivity|]. intros cp k Hin. apply H. now right.
  - intros p _. apply (H (cat, l)). now left.
Qed.

Lemma lookup_fold_insert_into_other (cat k cat' : string) (l : map PluginEntry) (c : Catalog) :
  cat <> cat' ->
  lookup cat k (fold_left (fun c p => insert_into cat' p c) l c) = lookup cat k c.
Proof.
  intros H. revert c. induction l as [|[k' e'] l IH]; intros c; [reflexivity|].
  cbn [fold_left]. rewrite IH. apply lookup_insert_into_other. now left.
Qed.

Lemma keys_above (k : string) (l : list string) (x : string) :
  Forall (less k) l -> In x l -> x <> k.
Proof.
  intros H Hin ->. rewrite Forall_forall in H. exact (less_irrefl _ (H _ Hin)).
Qed.

Lemma merge_plugins_strict (cat : string) (l : map PluginEntry) (c : Catalog) :
  map_ok l ->
  merge_plugins true cat l c
  = match first_duplicate_key cat l c with
    | Some k => Errx 1 (present_in_multiple_jars cat k)
    | None => Returned (fold_left (fun c p => insert_into cat p c) l c)
    end.
Proof.
  unfold map_ok. revert c. induction l as [|[k e] l IH]; intros c Hs; [reflexivity|].
  change (keys ((k, e) :: l)) with (k :: keys l) in Hs.
  apply StronglySorted_inv in Hs as [Hs Hk].
  cbn [merge_plugins first_duplicate_key fst fold_left].
  assert (Hfind : find k (fst (subscript (V := map PluginEntry) [] cat c)) = lookup cat k c).
  { unfold subscript, lookup. destruct (find cat c); reflexivity. }
  assert (Hcat : insert_into cat (k, e) (snd (subscript (V := map PluginEntry) [] cat c))
                 = insert_into cat (k, e) c).
  { unfold subscript. destruct (find cat c) eqn:E; [reflexivity|]. cbn [snd].
    rewrite !insert_into_assign. unfold get.
    rewrite find_insert_same, E. now rewrite assign_insert. }
  destruct (subscript (V := map PluginEntry) [] cat c) as [existing c1].
  cbn [fst snd] in Hfind, Hcat. rewrite Hfind, andb_true_r.
  destruct (is_some (lookup cat k c)); [reflexivity|].
  rewrite Hcat, (IH _ Hs).
  rewrite (first_duplicate_key_ext cat l (insert_into cat (k, e) c) c); [reflexivity|].
  intros p Hp. apply lookup_insert_into_other. right.
  apply (keys_above k (keys l)); [exact Hk|]. now apply in_map.
Qed.

Lemma first_duplicate_key_absent (cat : string) (l : map PluginEntry) (c : Catalog) :
  find cat c = None -> first_duplicate_key cat l c = None.
Proof.
  intros H. induction l as [|p l IH]; [reflexivity|].
  cbn [first_duplicate_key]. unfold lookup at 1. rewrite H. exact IH.
Qed.

Lemma merge_categories_strict (inc c : Catalog) :
  Catalog_ok inc ->
  merge_categories true inc c
  = match first_duplicate inc c with
    | Some (cat, k) => Errx 1 (present_in_multiple_jars cat k)
    | None => Returned (merged inc c)
    end.
Proof.
  intros [Hs Hm]. unfold map_ok in Hs. revert c.
  induction inc as [|[cat l] inc IH]; intros c; [reflexivity|].
  change (keys ((cat, l) :: inc)) with (cat :: keys inc) in Hs.
  apply StronglySorted_inv in Hs as [Hs Hk].
  apply Forall_cons_iff in Hm as [Hl Hm]. cbn [snd] in Hl.
  cbn [merge_categories first_duplicate merged].
  destruct (find cat c) as [inner|] eqn:E; cbn [is_some].
  - rewrite merge_plugins_strict by exact Hl.
    destruct (first_duplicate_key cat l c); [reflexivity|].
    rewrite (IH Hs Hm).
    rewrite (first_duplicate_ext inc _ c); [reflexivity|].
    intros cp k Hin. apply lookup_fold_insert_into_other.
    apply (keys_above cat (keys inc)); [exact Hk|]. now apply in_map.
  - rewrite first_duplicate_key_absent by exact E.
    rewrite (IH Hs Hm).
    rewrite (first_duplicate_ext inc _ c); [reflexivity|].
    intros cp k Hin. apply lookup_assign_other.
    apply (keys_above cat (keys inc)); [exact Hk|]. now apply in_map.
Qed.

Lemma is_some_true {A : Type} (o : option A) : is_some o = true <-> o <> None.
Proof. destruct o; cbn; split; congruence. Qed.

Lemma first_duplicate_key_sound (cat k : string) (l : map PluginEntry) (c : Catalog) :
  first_duplicate_key cat l c = Some k ->
  lookup cat k c <> None /\ exists e, In (k, e) l.
Proof.
  induction l as [|[k' e'] l IH]; cbn [first_duplicate_key fst]; [discriminate|].
  destruct (is_some (lookup cat k' c)) eqn:E.
  - intros [= <-]. split; [now apply is_some_true|]. exists e'. now left.
  - intros H. destruct (IH H) as [H1 [e He]]. split; [exact H1|]. exists e. now right.
Qed.

Lemma first_duplicate_key_complete (cat : string) (p : string * PluginEntry)
    (l : map PluginEntry) (c : Catalog) :
  In p l -> lookup cat (fst p) c <> None -> first_duplicate_key cat l c <> None.
Proof.
  intros Hin Hl. induction l as [|q l IH]; [contradiction|].
  cbn [first_duplicate_key]. destruct (is_some (lookup cat (fst q) c)) eqn:E; [discriminate|].
  destruct Hin as [->|Hin]; [|auto].
  apply is_some_true in Hl. congruence.
Qed.

Lemma first_duplicate_sound (cat k : string) (inc c : Catalog) :
  Catalog_ok inc -> first_duplicate inc c = Some (cat, k) ->
  lookup cat k c <> None /\ lookup cat k inc <> None.
Proof.
  intros Hok H.
  assert (Hin : lookup cat k c <> None /\ exists l e, In (cat, l) inc /\ In (k, e) l).
  { clear Hok. induction inc as [|[cat' l] inc IH]; cbn [first_duplicate] in H; [discriminate|].
    destruct (first_duplicate_key cat' l c) as [k'|] eqn:E.
    - injection H as <- <-. destruct (first_duplicate_key_sound _ _ _ _ E) as [H1 [e He]].
      split; [exact H1|]. exists l, e. split; [now left|exact He].
    - destruct (IH H) as [H1 [l' [e [Hl He]]]]. split; [exact H1|].
      exists l', e. split; [now right|exact He]. }
  destruct Hin as [H1 [l [e [Hl He]]]]. split; [exact H1|].
  destruct Hok as [Hs Hm]. unfold lookup.
  rewrite (In_find cat l inc Hs Hl).
  rewrite Forall_forall in Hm. rewrite (In_find k e l (Hm _ Hl) He). discriminate.
Qed.

Lemma first_duplicate_complete (cat k : string) (inc c : Catalog) :
  lookup cat k c <> None -> lookup cat k inc <> None -> first_duplicate inc c <> None.
Proof.
  intros Hc Hi. unfold lookup in Hi.
  destruct (find cat inc) as [l|] eqn:El; [|congruence].
  destruct (find k l) as [e|] eqn:Ee; [|congruence].
  apply find_In in El, Ee. clear Hi.
  induction inc as [|[cat' l'] inc IH]; [contradiction|].
  cbn [first_duplicate]. destruct (first_duplicate_key cat' l' c) eqn:E; [discriminate|].
  destruct El as [[= -> ->]|El]; [|auto].
  exfalso. revert E. apply (first_duplicate_key_complete cat (k, e)); assumption.
Qed.

Lemma map_ok_head {V : Type} (k0 k : string) (v0 v : V) (m : map V) :
  map_ok ((k0, v0) :: m) -> In (k, v) m -> less k0 k.
Proof.
  unfold map_ok. cbn [keys List.map fst]. intros H Hin.
  apply StronglySorted_inv in H as [_ H]. rewrite Forall_forall in H.
  apply H. change k with (fst (k, v)). now apply in_map.
Qed.

Lemma map_ok_tail {V : Type} (p : string * V) (m : map V) :
  map_ok (p :: m) -> map_ok m.
Proof. unfold map_ok. cbn [keys List.map]. intros H. now apply StronglySorted_inv in H. Qed.

(** The key [first_duplicate_key] returns is the least of those both hold. *)
Lemma first_duplicate_key_least (cat k : string) (l : map PluginEntry) (c : Catalog) :
  map_ok l -> first_duplicate_key cat l c = Some k ->
  forall k2 e2, In (k2, e2) l -> lookup cat k2 c <> None -> k2 = k \/ less k k2.
Proof.
  induction l as [|[k0 e0] l IH]; cbn [first_duplicate_key fst]; [discriminate|].
  intros Hok H k2 e2 Hin Hl.
  destruct (is_some (lookup cat k0 c)) eqn:E.
  - injection H as <-. destruct Hin as [[= <- <-]|Hin]; [now left|].
    right. exact (map_ok_head k0 k2 e0 e2 l Hok Hin).
  - destruct Hin as [[= <- <-]|Hin].
    + apply is_some_true in Hl. congruence.
    + exact (IH (map_ok_tail _ _ Hok) H k2 e2 Hin Hl).
Qed.

(** The pair [first_duplicate] returns comes first, in the order in which
    the incoming catalog is visited, among those both catalogs hold. *)
Lemma first_duplicate_least (cat k : string) (inc c : Catalog) :
  Catalog_ok inc -> first_duplicate inc c = Some (cat, k) ->
  forall c2 k2, lookup c2 k2 c <> None -> lookup c2 k2 inc <> None ->
  (c2, k2) = (cat, k) \/ before (cat, k) (c2, k2).
Proof.
  intros Hok H c2 k2 Hc Hi. unfold lookup in Hi.
  destruct (find c2 inc) as [l2|] eqn:El; [|congruence].
  destruct (find k2 l2) as [e2|] eqn:Ee; [|congruence].
  apply find_In in El, Ee. clear Hi.
  induction inc as [|[c0 l0] inc IH]; [contradiction|].
  destruct Hok as [Hs Hm]. apply Forall_cons_iff in Hm as [Hl0 Hm]. cbn [snd] in Hl0.
  cbn [first_duplicate] in H.
  destruct (first_duplicate_key c0 l0 c) as [k0|] eqn:E.
  - injection H as <- <-. destruct El as [[= <- <-]|El].
    + destruct (first_duplicate_key_least c0 k0 l0 c Hl0 E k2 e2 Ee Hc) as [->|Hlt].
      * now left.
      * right. right. split; [reflexivity|exact Hlt].
    + right. left. exact (map_ok_head c0 c2 l0 l2 inc Hs El).
  - destruct El as [[= <- <-]|El].
    + exfalso. revert E. apply (first_duplicate_key_complete c0 (k2, e2)); assumption.
    + apply IH; [|exact H|exact El]. split; [exact (map_ok_tail _ _ Hs)|exact Hm].
Qed.

Lemma before_irrefl (p : string * string) : ~ before p p.
Proof.
  intros [H|[_ H]]; unfold less in H; rewrite compare_refl in H; discriminate.
Qed.

(** * The invariant of the catalogs built *)

Section Forall_maps.
Context {V : Type}.
Implicit Types (m : map V) (k : string) (v : V).

Lemma Forall_insert (Q : string * V -> Prop) p m :
  Forall Q m -> Q p -> Forall Q (insert p m).
Proof.
  intros Hm Hp. rewrite Forall_forall in *. intros x Hx.
  apply In_insert in Hx as [->|Hx]; auto.
Qed.

Lemma Forall_assign (Q : string * V -> Prop) k v m :
  Forall Q m -> Q (k, v) -> Forall Q (assign k v m).
Proof.
  intros Hm Hp. rewrite Forall_forall in *. intros x Hx.
  apply In_assign in Hx as [->|Hx]; auto.
Qed.

Lemma insert_nonempty p m : insert p m <> [].
Proof. destruct m as [|[k' v'] m]; cbn; [discriminate|]. destruct (String.compare (fst p) k'); discriminate. Qed.

End Forall_maps.

Lemma Forall_get {V : Type} (Q : string * map V -> Prop) (R : map V -> Prop) (k : string) (m : map (map V)) :
  (forall cp, Q cp -> R (snd cp)) -> R [] -> Forall Q m -> R (get k m).
Proof.
  intros HQ Hnil Hm. unfold get. destruct (find k m) as [inner|] eqn:E; [|exact Hnil].
  apply find_In in E. rewrite Forall_forall in Hm. exact (HQ _ (Hm _ E)).
Qed.

Lemma Catalog_ok_insert_into (cat : string) (p : string * PluginEntry) (c : Catalog) :
  Catalog_ok c -> Catalog_ok (insert_into cat p c).
Proof.
  intros [Hs Hm]. rewrite insert_into_assign. split.
  - now apply map_ok_assign.
  - apply Forall_assign; [exact Hm|]. cbn [snd]. apply map_ok_insert.
    apply (Forall_get (fun cp => map_ok (snd cp)) map_ok cat c); auto.
    constructor.
Qed.

Lemma Catalog_ok_assign (cat : string) (l : map PluginEntry) (c : Catalog) :
  Catalog_ok c -> map_ok l -> Catalog_ok (assign cat l c).
Proof.
  intros [Hs Hm] Hl. split.
  - now apply map_ok_assign.
  - apply Forall_assign; assumption.
Qed.

Lemma no_empty_insert_into (cat : string) (p : string * PluginEntry) (c : Catalog) :
  no_empty_category c -> no_empty_category (insert_into cat p c).
Proof.
  intros H. rewrite insert_into_assign. apply Forall_assign; [exact H|].
  apply insert_nonempty.
Qed.

Lemma each_plugin_get (P : string -> string * PluginEntry -> Prop) (cat : string) (c : Catalog) :
  each_plugin P c -> Forall (P cat) (get cat c).
Proof.
  intros H. unfold get. destruct (find cat c) as [inner|] eqn:E; [|constructor].
  apply find_In in E. unfold each_plugin in H. rewrite Forall_forall in H.
  exact (H _ E).
Qed.

Lemma each_plugin_insert_into (P : string -> string * PluginEntry -> Prop)
    (cat : string) (p : string * PluginEntry) (c : Catalog) :
  each_plugin P c -> P cat p -> each_plugin P (insert_into cat p c).
Proof.
  intros H Hp. rewrite insert_into_assign. apply Forall_assign; [exact H|].
  cbn [fst snd]. apply Forall_insert; [|exact Hp]. now apply each_plugin_get.
Qed.

Lemma each_plugin_assign (P : string -> string * PluginEntry -> Prop)
    (cat : string) (l : map PluginEntry) (c : Catalog) :
  each_plugin P c -> Forall (P cat) l -> each_plugin P (assign cat l c).
Proof. intros H Hl. apply Forall_assign; assumption. Qed.

Lemma invariant_nil : invariant [].
Proof. repeat split; constructor. Qed.

Lemma invariant_insert_into (cat : string) (p : string * PluginEntry) (c : Catalog) :
  invariant c -> fst p = key (snd p) -> category (snd p) = cat ->
  invariant (insert_into cat p c).
Proof.
  intros [Hok [Hk [Ho Hn]]] Hkey Hcat. repeat split.
  - now apply Catalog_ok_insert_into.
  - now apply Catalog_ok_insert_into.
  - now apply (each_plugin_insert_into (fun _ p => fst p = key (snd p))).
  - now apply (each_plugin_insert_into (fun cat p => category (snd p) = cat)).
  - now apply no_empty_insert_into.
Qed.

Lemma invariant_fold_insert_into (cat : string) (l : map PluginEntry) (c : Catalog) :
  invariant c ->
  Forall (fun p => fst p = key (snd p) /\ category (snd p) = cat) l ->
  invariant (fold_left (fun c p => insert_into cat p c) l c).
Proof.
  revert c. induction l as [|p l IH]; intros c Hc Hl; [exact Hc|].
  apply Forall_cons_iff in Hl as [[Hk Ho] Hl]. cbn [fold_left].
  apply IH; [|exact Hl]. now apply invariant_insert_into.
Qed.

Lemma invariant_category (cat : string) (l : map PluginEntry) (c : Catalog) :
  invariant c -> In (cat, l) c ->
  map_ok l /\ l <> [] /\ Forall (fun p => fst p = key (snd p) /\ category (snd p) = cat) l.
Proof.
  intros [[_ Hm] [Hk [Ho Hn]]] Hin.
  unfold keyed_by_key, owned_by_category, no_empty_category in *.
  rewrite Forall_forall in Hm, Hk, Ho, Hn.
  specialize (Hm _ Hin). specialize (Hk _ Hin). specialize (Ho _ Hin).
  specialize (Hn _ Hin). cbn [fst snd] in *. repeat split; try assumption.
  rewrite Forall_forall in *. intros p Hp. split; auto.
Qed.

Lemma invariant_tail (cp : string * map PluginEntry) (c : Catalog) :
  invariant (cp :: c) -> invariant c.
Proof.
  intros [[Hs Hm] [Hk [Ho Hn]]].
  unfold keyed_by_key, owned_by_category, no_empty_category, map_ok in *.
  change (keys (cp :: c)) with (fst cp :: keys c) in Hs.
  apply StronglySorted_inv in Hs as [Hs _].
  apply Forall_cons_iff in Hm as [_ Hm]. apply Forall_cons_iff in Hk as [_ Hk].
  apply Forall_cons_iff in Ho as [_ Ho]. apply Forall_cons_iff in Hn as [_ Hn].
  repeat split; assumption.
Qed.

Lemma invariant_assign (cat : string) (l : map PluginEntry) (c : Catalog) :
  invariant c -> map_ok l -> l <> [] ->
  Forall (fun p => fst p = key (snd p) /\ category (snd p) = cat) l ->
  invariant (assign cat l c).
Proof.
  intros [Hok [Hk [Ho Hn]]] Hl Hne Hp. repeat split.
  - now apply Catalog_ok_assign.
  - now apply Catalog_ok_assign.
  - apply (each_plugin_assign (fun _ p => fst p = key (snd p))); [exact Hk|].
    eapply Forall_impl; [|exact Hp]. cbn. tauto.
  - apply (each_plugin_assign (fun cat p => category (snd p) = cat)); [exact Ho|].
    eapply Forall_impl; [|exact Hp]. cbn. tauto.
  - apply Forall_assign; assumption.
Qed.

Lemma invariant_merged (inc c : Catalog) :
  invariant inc -> invariant c -> invariant (merged inc c).
Proof.
  revert c. induction inc as [|[cat l] inc IH]; intros c Hinc Hc; [exact Hc|].
  destruct (invariant_category cat l _ Hinc (or_introl eq_refl)) as [Hl [Hne Hp]].
  cbn [merged]. apply IH; [exact (invariant_tail _ _ Hinc)|].
  destruct (is_some (find cat c)).
  - now apply invariant_fold_insert_into.
  - now apply invariant_assign.
Qed.

(** Whenever the loops of [Merge] return, they return [merged]. *)
Lemma merge_plugins_returned (nd : bool) (cat : string) (l : map PluginEntry) (c c' : Catalog) :
  merge_plugins nd cat l c = Returned c' ->
  c' = fold_left (fun c p => insert_into cat p c) l c.
Proof.
  destruct nd.
  - revert c. induction l as [|p l IH]; intros c; cbn [merge_plugins fold_left].
    + congruence.
    + assert (Hcat : insert_into cat p (snd (subscript (V := map PluginEntry) [] cat c))
                     = insert_into cat p c).
      { unfold subscript. destruct (find cat c) eqn:E; [reflexivity|]. cbn [snd].
        rewrite !insert_into_assign. unfold get.
        rewrite find_insert_same, E. now rewrite assign_insert. }
      destruct (subscript (V := map PluginEntry) [] cat c) as [existing c1].
      cbn [snd] in Hcat. destruct (is_some (find (fst p) existing) && true); [discriminate|].
      rewrite Hcat. apply IH.
  - rewrite merge_plugins_lenient. congruence.
Qed.

Lemma merge_categories_returned (nd : bool) (inc c c' : Catalog) :
  merge_categories nd inc c = Returned c' -> c' = merged inc c.
Proof.
  revert c. induction inc as [|[cat l] inc IH]; intros c; cbn [merge_categories merged].
  - congruence.
  - destruct (is_some (find cat c)).
    + destruct (merge_plugins nd cat l c) as [c1|] eqn:E; [|discriminate].
      apply merge_plugins_returned in E. subst c1. apply IH.
    + apply IH.
Qed.

Lemma invariant_for (n : nat)
    (body : nat -> istringstream * Catalog -> istringstream * Catalog)
    (st : istringstream * Catalog) :
  (forall i st, invariant (snd st) -> invariant (snd (body i st))) ->
  invariant (snd st) -> invariant (snd (for_ n body st)).
Proof. apply (for_keeps (fun st => invariant (snd st))). Qed.

Section Loaded.
Variable indeterminate : call -> string -> nat -> byte.
Variable DecompressEntryContents : list byte -> list byte.

Lemma invariant_load_plugin (cat : string) (i j : nat) (st : istringstream * Catalog) :
  invariant (snd st) -> invariant (snd (load_plugin indeterminate cat i j st)).
Proof.
  destruct st as [s c]. cbn [snd]. intros H. unfold load_plugin.
  destruct (readUTFString _ s) as [k s1].
  destruct (readUTFString _ s1) as [cn s2].
  destruct (readUTFString _ s2) as [n s3].
  destruct (readBool _ s3) as [p s4].
  destruct (readBool _ s4) as [d s5].
  cbn [snd]. now apply invariant_insert_into.
Qed.

Lemma invariant_load_category (i : nat) (st : istringstream * Catalog) :
  invariant (snd st) -> invariant (snd (load_category indeterminate i st)).
Proof.
  destruct st as [s c]. cbn [snd]. intros H. unfold load_category.
  destruct (readUTFString _ s) as [cat s1].
  destruct (readInt _ s1) as [n s2].
  apply invariant_for; [|exact H]. apply invariant_load_plugin.
Qed.

Lemma invariant_load (byteData : list byte) :
  invariant (loadLog4j2PluginCacheFile indeterminate byteData).
Proof.
  unfold loadLog4j2PluginCacheFile, load_stream.
  destruct (readInt _ _) as [n s].
  apply invariant_for; [|exact invariant_nil]. apply invariant_load_category.
Qed.

Lemma invariant_Merge (this this' : Log4J2PluginDatCombiner) (lh : LH) :
  invariant (categories_ this) ->
  Merge indeterminate DecompressEntryContents this lh = Returned this' ->
  invariant (categories_ this').
Proof.
  intros H. unfold Merge.
  destruct (if compression_method lh =? Z_NO_COMPRESSION then _ else _)
    as [[bytes_ inflater]|]; [|discriminate].
  destruct (merge_categories _ _ _) as [c|] eqn:E; [|discriminate].
  intros [= <-]. cbn [categories_].
  apply merge_categories_returned in E. subst c.
  apply invariant_merged; [apply invariant_load|exact H].
Qed.

End Loaded.

Lemma invariant_merge_all (indeterminate : nat -> call -> string -> nat -> byte)
    (DecompressEntryContents : list byte -> list byte)
    (lhs : list LH) (this this' : Log4J2PluginDatCombiner) :
  invariant (categories_ this) ->
  merge_all indeterminate DecompressEntryContents this lhs = Returned this' ->
  invariant (categories_ this').
Proof.
  revert indeterminate this.
  induction lhs as [|lh lhs IH]; intros indeterminate this H; cbn [merge_all].
  - now intros [= <-].
  - destruct (Merge _ _ this lh) as [this1|] eqn:E; [|discriminate].
    apply IH. exact (invariant_Merge _ _ _ _ _ H E).
Qed.

(** * The order of insertions *)

Section Commute.
Context {V : Type}.
Implicit Types (m : map V) (k : string) (v : V).

Lemma insert_comm (p q : string * V) m :
  fst p <> fst q -> insert p (insert q m) = insert q (insert p m).
Proof.
  destruct p as [kp vp], q as [kq vq]. cbn [fst]. intros H.
  induction m as [|[k v] m IH]; cmp_all; congruence.
Qed.

Lemma assign_comm k1 k2 v1 v2 m :
  k1 <> k2 -> assign k1 v1 (assign k2 v2 m) = assign k2 v2 (assign k1 v1 m).
Proof.
  intros H. induction m as [|[k v] m IH]; cmp_all; congruence.
Qed.

Lemma assign_assign k v1 v2 m : assign k v1 (assign k v2 m) = assign k v1 m.
Proof. induction m as [|[k' v'] m IH]; cmp_all; congruence. Qed.

End Commute.

Lemma get_assign_same {V : Type} (k : string) (v : map V) (m : map (map V)) :
  get k (assign k v m) = v.
Proof. unfold get. now rewrite find_assign_same. Qed.

Lemma get_assign_other {V : Type} (k k' : string) (v : map V) (m : map (map V)) :
  k <> k' -> get k (assign k' v m) = get k m.
Proof. intros H. unfold get. now rewrite find_assign_other. Qed.

Lemma insert_into_comm {V : Type} (k1 k2 : string) (p1 p2 : string * V) (m : map (map V)) :
  k1 <> k2 \/ fst p1 <> fst p2 ->
  insert_into k1 p1 (insert_into k2 p2 m) = insert_into k2 p2 (insert_into k1 p1 m).
Proof.
  intros H. rewrite !insert_into_assign.
  destruct (string_dec k1 k2) as [->|Hne].
  - destruct H as [H|H]; [congruence|].
    rewrite !get_assign_same, !assign_assign. f_equal. now apply insert_comm.
  - rewrite (get_assign_other k1 k2) by exact Hne.
    rewrite (get_assign_other k2 k1) by congruence.
    now apply assign_comm.
Qed.




(** Every catalog that satisfies the invariant is built by inserting its
    entries. *)
Lemma fold_put_replay_plugins (cat : string) (l : map PluginEntry) (c : Catalog) :
  Forall (fun p => fst p = key (snd p) /\ category (snd p) = cat) l ->
  fold_left put (List.map snd l) c = replay_plugins cat l c.
Proof.
  revert c. induction l as [|p l IH]; intros c H; [reflexivity|].
  apply Forall_cons_iff in H as [[_ Hcat] H].
  rewrite replay_plugins_cons. cbn [List.map fold_left]. rewrite (IH _ H).
  unfold put. rewrite <- Hcat, with_category_same. reflexivity.
Qed.

Lemma fold_put_replay (records c : Catalog) :
  keyed_by_key records -> owned_by_category records ->
  fold_left put (entries_of records) c = replay records c.
Proof.
  unfold keyed_by_key, owned_by_category.
  revert c. induction records as [|cp records IH]; intros c Hk Ho; [reflexivity|].
  apply Forall_cons_iff in Hk as [Hk1 Hk]. apply Forall_cons_iff in Ho as [Ho1 Ho].
  rewrite replay_cons. unfold entries_of. cbn [flat_map].
  rewrite fold_left_app. fold (entries_of records).
  rewrite (fold_put_replay_plugins (fst cp)).
  - apply IH; assumption.
  - rewrite Forall_forall in *. intros p Hp. split; auto.
Qed.

Lemma build_entries_of (c : Catalog) : invariant c -> build (entries_of c) = c.
Proof.
  intros [Hok [Hk [Ho Hn]]]. unfold build.
  rewrite fold_put_replay by assumption.
  rewrite replay_sorted by (assumption || constructor). reflexivity.
Qed.

(** * Reads that fall short *)

Lemma read_failed (stream : istringstream) (s : list byte) :
  failbit stream = true -> read stream s = (s, stream).
Proof. intros H. unfold read. rewrite H. reflexivity. Qed.


(** The stream a read leaves depends on the size of the destination alone,
    and so does what is read when the read does not fall short; a stream
    that is good after a read was good before it. *)
Lemma read_agree (stream : istringstream) (s s' : list byte) :
  List.length s = List.length s' ->
  snd (read stream s) = snd (read stream s')
  /\ (failbit (snd (read stream s)) = false ->
      failbit stream = false /\ fst (read stream s) = fst (read stream s')).
Proof.
  intros Hlen. unfold read. destruct (failbit stream) eqn:F; cbn [fst snd].
  - split; [reflexivity|]. intros H. congruence.
  - rewrite <- Hlen.
    destruct (List.length s <=? List.length (rdbuf stream))%nat; cbn [fst snd failbit].
    + split; [reflexivity|]. intros _. split; reflexivity.
    + split; [reflexivity|]. discriminate.
Qed.

Section Stale.
Variables indeterminate indeterminate' : string -> nat -> byte.

Lemma readUTFString_failed (stream : istringstream) :
  failbit stream = true -> snd (readUTFString indeterminate stream) = stream.
Proof.
  intros H. unfold readUTFString. rewrite read_failed by exact H.
  rewrite read_failed by exact H. reflexivity.
Qed.

Lemma readInt_failed (stream : istringstream) :
  failbit stream = true -> snd (readInt indeterminate stream) = stream.
Proof. intros H. unfold readInt. rewrite read_failed by exact H. reflexivity. Qed.

Lemma readBool_failed (stream : istringstream) :
  failbit stream = true -> snd (readBool indeterminate stream) = stream.
Proof. intros H. unfold readBool. rewrite read_failed by exact H. reflexivity. Qed.




(** The stream a reader leaves does not depend on what its local held, and
    neither does the value it returns when the stream is good after it. *)
Lemma readInt_agree (stream : istringstream) :
  snd (readInt indeterminate stream) = snd (readInt indeterminate' stream)
  /\ (failbit (snd (readInt indeterminate stream)) = false ->
      failbit stream = false
      /\ fst (readInt indeterminate stream) = fst (readInt indeterminate' stream)).
Proof.
  unfold readInt.
  destruct (read_agree stream (uninitialized indeterminate "values" (sizeof uint32_t))
              (uninitialized indeterminate' "values" (sizeof uint32_t))) as [Hs Hv].
  { now rewrite !length_uninitialized. }
  destruct (read stream (uninitialized indeterminate _ _)) as [v s].
  destruct (read stream (uninitialized indeterminate' _ _)) as [v' s'].
  cbn [fst snd] in *. split; [exact Hs|].
  intros F. destruct (Hv F) as [F0 ->]. split; [exact F0|reflexivity].
Qed.

Lemma readBool_agree (stream : istringstream) :
  snd (readBool indeterminate stream) = snd (readBool indeterminate' stream)
  /\ (failbit (snd (readBool indeterminate stream)) = false ->
      failbit stream = false
      /\ fst (readBool indeterminate stream) = fst (readBool indeterminate' stream)).
Proof.
  unfold readBool.
  destruct (read_agree stream (uninitialized indeterminate "value" 1)
              (uninitialized indeterminate' "value" 1)) as [Hs Hv].
  { now rewrite !length_uninitialized. }
  destruct (read stream (uninitialized indeterminate _ _)) as [v s].
  destruct (read stream (uninitialized indeterminate' _ _)) as [v' s'].
  cbn [fst snd] in *. split; [exact Hs|].
  intros F. destruct (Hv F) as [F0 ->]. split; [exact F0|reflexivity].
Qed.

Lemma readUTFString_agree (stream : istringstream) :
  snd (readUTFString indeterminate stream) = snd (readUTFString indeterminate' stream)
  /\ (failbit (snd (readUTFString indeterminate stream)) = false ->
      failbit stream = false
      /\ fst (readUTFString indeterminate stream)
         = fst (readUTFString indeterminate' stream)).
Proof.
  unfold readUTFString.
  destruct (read_agree stream (uninitialized indeterminate "length" (sizeof uint16_t))
              (uninitialized indeterminate' "length" (sizeof uint16_t))) as [Hs Hv].
  { now rewrite !length_uninitialized. }
  destruct (read stream (uninitialized indeterminate _ _)) as [v s].
  destruct (read stream (uninitialized indeterminate' _ _)) as [v' s'].
  cbn [fst snd] in Hs, Hv. subst s'.
  destruct (failbit s) eqn:F.
  - rewrite !read_failed by exact F. cbn [fst snd]. split; [reflexivity|]. congruence.
  - destruct (Hv eq_refl) as [F0 ->].
    destruct (read s _) as [result s'] eqn:E. cbn [fst snd].
    split; [reflexivity|]. intros _. split; [exact F0|reflexivity].
Qed.

End Stale.

Section Short.
Variable indeterminate : call -> string -> nat -> byte.

Lemma load_plugin_failed (cat : string) (i j : nat) (stream : istringstream) (c : Catalog) :
  failbit stream = true -> fst (load_plugin indeterminate cat i j (stream, c)) = stream.
Proof.
  intros H. unfold load_plugin.
  pose proof (readUTFString_failed (indeterminate (key_call i j)) stream H) as H1.
  destruct (readUTFString _ stream) as [k s1]. cbn [snd] in H1. subst s1.
  pose proof (readUTFString_failed (indeterminate (className_call i j)) stream H) as H1.
  destruct (readUTFString _ stream) as [cn s1]. cbn [snd] in H1. subst s1.
  pose proof (readUTFString_failed (indeterminate (name_call i j)) stream H) as H1.
  destruct (readUTFString _ stream) as [nm s1]. cbn [snd] in H1. subst s1.
  pose proof (readBool_failed (indeterminate (printable_call i j)) stream H) as H1.
  destruct (readBool _ stream) as [b1 s1]. cbn [snd] in H1. subst s1.
  pose proof (readBool_failed (indeterminate (defer_call i j)) stream H) as H1.
  destruct (readBool _ stream) as [b2 s1]. cbn [snd] in H1. subst s1.
  reflexivity.
Qed.

Lemma load_plugins_failed (n : nat)
    (body : nat -> istringstream * Catalog -> istringstream * Catalog)
    (stream : istringstream) (c : Catalog) :
  (forall j c, fst (body j (stream, c)) = stream) ->
  fst (for_ n body (stream, c)) = stream.
Proof.
  intros H. apply (for_keeps (fun st => fst st = stream)); [|reflexivity].
  intros j [s c'] E. cbn [fst] in E. subst s. apply H.
Qed.

Lemma load_category_failed (i : nat) (stream : istringstream) (c : Catalog) :
  failbit stream = true -> fst (load_category indeterminate i (stream, c)) = stream.
Proof.
  intros H. unfold load_category.
  pose proof (readUTFString_failed (indeterminate (category_call i)) stream H) as H1.
  destruct (readUTFString _ stream) as [cat s1]. cbn [snd] in H1. subst s1.
  pose proof (readInt_failed (indeterminate (entries_call i)) stream H) as H1.
  destruct (readInt _ stream) as [n s1]. cbn [snd] in H1. subst s1.
  apply load_plugins_failed. intros j c'. now apply load_plugin_failed.
Qed.






End Short.

(** Two loads of the same bytes, each with its own content of the
    uninitialised locals, leave the same stream, and the same catalog when
    that stream is good. *)
Lemma agree_failed (s : istringstream) (c c' : Catalog) :
  failbit s = true -> agree (s, c) (s, c').
Proof. intros F. split; [reflexivity|]. cbn [fst]. congruence. Qed.

Lemma for_agree (n : nat)
    (body body' : nat -> istringstream * Catalog -> istringstream * Catalog)
    (st st' : istringstream * Catalog) :
  (forall i st st', agree st st' -> agree (body i st) (body' i st')) ->
  agree st st' -> agree (for_ n body st) (for_ n body' st').
Proof.
  revert body body' st st'. induction n as [|n IH]; intros body body' st st' Hbody H.
  - exact H.
  - rewrite !for_S. apply IH.
    + intros i. apply Hbody.
    + apply Hbody. exact H.
Qed.

Section Agree.
Variables indeterminate indeterminate' : call -> string -> nat -> byte.

Lemma load_plugin_agree (cat : string) (i j : nat) (st st' : istringstream * Catalog) :
  agree st st' ->
  agree (load_plugin indeterminate cat i j st) (load_plugin indeterminate' cat i j st').
Proof.
  destruct st as [s c], st' as [s' c']. intros [Hs Hc]. cbn [fst snd] in Hs, Hc. subst s'.
  unfold load_plugin.
  destruct (readUTFString_agree (indeterminate (key_call i j))
              (indeterminate' (key_call i j)) s) as [E1 V1].
  destruct (readUTFString (indeterminate (key_call i j)) s) as [k s1].
  destruct (readUTFString (indeterminate' (key_call i j)) s) as [k' s1'].
  cbn [fst snd] in E1, V1. subst s1'.
  destruct (readUTFString_agree (indeterminate (className_call i j))
              (indeterminate' (className_call i j)) s1) as [E2 V2].
  destruct (readUTFString (indeterminate (className_call i j)) s1) as [cn s2].
  destruct (readUTFString (indeterminate' (className_call i j)) s1) as [cn' s2'].
  cbn [fst snd] in E2, V2. subst s2'.
  destruct (readUTFString_agree (indeterminate (name_call i j))
              (indeterminate' (name_call i j)) s2) as [E3 V3].
  destruct (readUTFString (indeterminate (name_call i j)) s2) as [nm s3].
  destruct (readUTFString (indeterminate' (name_call i j)) s2) as [nm' s3'].
  cbn [fst snd] in E3, V3. subst s3'.
  destruct (readBool_agree (indeterminate (printable_call i j))
              (indeterminate' (printable_call i j)) s3) as [E4 V4].
  destruct (readBool (indeterminate (printable_call i j)) s3) as [p s4].
  destruct (readBool (indeterminate' (printable_call i j)) s3) as [p' s4'].
  cbn [fst snd] in E4, V4. subst s4'.
  destruct (readBool_agree (indeterminate (defer_call i j))
              (indeterminate' (defer_call i j)) s4) as [E5 V5].
  destruct (readBool (indeterminate (defer_call i j)) s4) as [d s5].
  destruct (readBool (indeterminate' (defer_call i j)) s4) as [d' s5'].
  cbn [fst snd] in E5, V5. subst s5'.
  split; [reflexivity|]. cbn [fst snd]. intros F5.
  destruct (V5 F5) as [F4 <-]. destruct (V4 F4) as [F3 <-].
  destruct (V3 F3) as [F2 <-]. destruct (V2 F2) as [F1 <-].
  destruct (V1 F1) as [F0 <-]. rewrite (Hc F0). reflexivity.
Qed.

Lemma load_category_agree (i : nat) (st st' : istringstream * Catalog) :
  agree st st' ->
  agree (load_category indeterminate i st) (load_category indeterminate' i st').
Proof.
  destruct st as [s c], st' as [s' c']. intros [Hs Hc]. cbn [fst snd] in Hs, Hc. subst s'.
  unfold load_category.
  destruct (readUTFString_agree (indeterminate (category_call i))
              (indeterminate' (category_call i)) s) as [E1 V1].
  destruct (readUTFString (indeterminate (category_call i)) s) as [cat s1].
  destruct (readUTFString (indeterminate' (category_call i)) s) as [cat' s1'].
  cbn [fst snd] in E1, V1. subst s1'.
  destruct (readInt_agree (indeterminate (entries_call i))
              (indeterminate' (entries_call i)) s1) as [E2 V2].
  destruct (readInt (indeterminate (entries_call i)) s1) as [n s2].
  destruct (readInt (indeterminate' (entries_call i)) s1) as [n' s2'].
  cbn [fst snd] in E2, V2. subst s2'.
  destruct (failbit s2) eqn:F2.
  - pose proof (load_plugins_failed (Z.to_nat n) (load_plugin indeterminate cat i) s2 c
                  (fun j c0 => load_plugin_failed indeterminate cat i j s2 c0 F2)) as H1.
    pose proof (load_plugins_failed (Z.to_nat n') (load_plugin indeterminate' cat' i) s2 c'
                  (fun j c0 => load_plugin_failed indeterminate' cat' i j s2 c0 F2)) as H2.
    destruct (for_ (Z.to_nat n) _ _) as [t1 c1].
    destruct (for_ (Z.to_nat n') _ _) as [t2 c2].
    cbn [fst] in H1, H2. subst t1 t2. now apply agree_failed.
  - destruct (V2 eq_refl) as [F1 <-]. destruct (V1 F1) as [F0 <-].
    apply for_agree.
    + intros j. apply load_plugin_agree.
    + split; [reflexivity|]. intros _. cbn [snd]. exact (Hc F0).
Qed.

Lemma load_stream_agree (bytes : list byte) :
  agree (load_stream indeterminate bytes) (load_stream indeterminate' bytes).
Proof.
  unfold load_stream.
  destruct (readInt_agree (indeterminate categoriesCount_call)
              (indeterminate' categoriesCount_call)
              {| rdbuf := bytes; failbit := false |}) as [E1 V1].
  destruct (readInt (indeterminate categoriesCount_call) _) as [n s1].
  destruct (readInt (indeterminate' categoriesCount_call) _) as [n' s1'].
  cbn [fst snd] in E1, V1. subst s1'.
  destruct (failbit s1) eqn:F1.
  - pose proof (load_plugins_failed (Z.to_nat n) (load_category indeterminate) s1 []
                  (fun i c0 => load_category_failed indeterminate i s1 c0 F1)) as H1.
    pose proof (load_plugins_failed (Z.to_nat n') (load_category indeterminate') s1 []
                  (fun i c0 => load_category_failed indeterminate' i s1 c0 F1)) as H2.
    destruct (for_ (Z.to_nat n) _ _) as [t1 c1].
    destruct (for_ (Z.to_nat n') _ _) as [t2 c2].
    cbn [fst] in H1, H2. subst t1 t2. now apply agree_failed.
  - destruct (V1 eq_refl) as [_ <-].
    apply for_agree.
    + intros i. apply load_category_agree.
    + split; reflexivity.
Qed.

(** When no read fell short, the catalog loaded is the same whatever the
    uninitialised locals held. *)
Lemma load_agree (bytes : list byte) :
  failbit (fst (load_stream indeterminate bytes)) = false ->
  loadLog4j2PluginCacheFile indeterminate' bytes
  = loadLog4j2PluginCacheFile indeterminate bytes.
Proof.
  intros F. unfold loadLog4j2PluginCacheFile.
  symmetry. exact (proj2 (load_stream_agree bytes) F).
Qed.

End Agree.

(** * The claims *)

Lemma first_plugin_hd (k : string) (l : map PluginEntry) :
  first_plugin k l
  = hd_error (List.map snd (filter (fun p => String.eqb (key (snd p)) k) l)).
Proof.
  induction l as [|p l IH]; [reflexivity|]. cbn [first_plugin filter].
  destruct (String.eqb (key (snd p)) k); [reflexivity|exact IH].
Qed.

Lemma first_occurrence_hd (cat k : string) (records : Catalog) :
  first_occurrence cat k records = hd_error (occurrences cat k records).
Proof.
  induction records as [|[cat' l] records IH]; [reflexivity|].
  cbn [first_occurrence occurrences flat_map fst snd].
  fold (occurrences cat k records).
  destruct (String.eqb cat' cat); [|exact IH].
  rewrite first_plugin_hd, IH.
  destruct (filter (fun p => String.eqb (key (snd p)) k) l); reflexivity.
Qed.

Lemma Catalog_ok_merged (inc c : Catalog) :
  Catalog_ok inc -> Catalog_ok c -> Catalog_ok (merged inc c).
Proof.
  revert c. induction inc as [|[cat l] inc IH]; intros c [Hs Hm] Hc; [exact Hc|].
  unfold map_ok in Hs. change (keys ((cat, l) :: inc)) with (cat :: keys inc) in Hs.
  apply StronglySorted_inv in Hs as [Hs _].
  apply Forall_cons_iff in Hm as [Hl Hm]. cbn [snd] in Hl.
  cbn [merged]. apply IH; [split; assumption|].
  destruct (is_some (find cat c)).
  - clear -Hc. revert c Hc. induction l as [|p l IHl]; intros c Hc; [exact Hc|].
    cbn [fold_left]. apply IHl. now apply Catalog_ok_insert_into.
  - now apply Catalog_ok_assign.
Qed.

Lemma Catalog_ok_find (cat : string) (l : map PluginEntry) (c : Catalog) :
  Catalog_ok c -> find cat c = Some l -> map_ok l.
Proof.
  intros [_ Hm] H. apply find_In in H. rewrite Forall_forall in Hm. exact (Hm _ H).
Qed.


Lemma length_string_of_list_ascii (l : list ascii) :
  String.length (string_of_list_ascii l) = List.length l.
Proof. induction l as [|a l IH]; [reflexivity|]. cbn. now rewrite IH. Qed.

Section Claims.

(** The content of the uninitialised locals: for each call of a reader in
    one load, and for the load of each entry of a run. *)
Variable indeterminate : call -> string -> nat -> byte.
Variable indeterminates : nat -> call -> string -> nat -> byte.
Variable DecompressEntryContents : list byte -> list byte.

(** The accumulator of a combiner is a catalog that insertions build: what
    holds of every [build] holds of it. *)
Lemma accumulator_is_built (no_duplicates : bool) (lhs : list LH)
    (this : Log4J2PluginDatCombiner) :
  merge_all indeterminates DecompressEntryContents (new_combiner no_duplicates) lhs
  = Returned this ->
  build (entries_of (categories_ this)) = categories_ this.
Proof.
  intros H. apply build_entries_of.
  exact (invariant_merge_all indeterminates DecompressEntryContents lhs
           (new_combiner no_duplicates) this invariant_nil H).
Qed.

(** C1, as amended: a catalog that keeps the invariant of [std::map], has no
    empty category, holds fewer than 2^32 categories and fewer than 2^32
    entries in each, whose entries are keyed by their own key and carry the
    name of their category, and whose strings are at most 65535 bytes long,
    is what loading the bytes written for it returns. *)
Theorem C1_round_trip (c : Catalog) :
  Catalog_ok c -> keyed_by_key c -> owned_by_category c -> strings_fit c ->
  no_empty_category c -> counts_fit c ->
  loadLog4j2PluginCacheFile indeterminate (writeLog4j2PluginCacheFile c) = c.
Proof.
  intros Hok Hk Ho Hs Hn Hc. unfold loadLog4j2PluginCacheFile.
  rewrite load_stream_written by assumption. cbn [snd].
  rewrite replay_sorted by (assumption || constructor). reflexivity.
Qed.

(** C2, as amended: when duplicates are accepted and the accumulator and the
    incoming catalog both hold a pair of category and key, the loops of
    [Merge] return, and the only entry the accumulator then holds under that
    pair is the one it held before: [insert] leaves an element that is
    present. *)
Theorem C2_lenient_merge_keeps_existing (acc inc : Catalog) (cat k : string)
    (e e' : PluginEntry) :
  Catalog_ok acc -> Catalog_ok inc ->
  lookup cat k acc = Some e -> lookup cat k inc = Some e' ->
  exists acc' plugins,
    merge_categories false inc acc = Returned acc'
    /\ find cat acc' = Some plugins
    /\ forall x, In (k, x) plugins <-> x = e.
Proof.
  intros Hacc Hinc He He'.
  pose proof (lookup_merged_kept cat k e inc acc He) as Hkept.
  unfold lookup in Hkept. destruct (find cat (merged inc acc)) as [plugins|] eqn:E;
    [|discriminate].
  exists (merged inc acc), plugins. split; [apply merge_categories_lenient|].
  split; [exact E|].
  assert (Hok : map_ok plugins).
  { apply (Catalog_ok_find cat plugins (merged inc acc)); [|exact E].
    now apply Catalog_ok_merged. }
  intros x. split.
  - intros Hin. apply (In_find k x plugins Hok) in Hin. congruence.
  - intros ->. now apply find_In.
Qed.

(** C3, as amended: when duplicates are rejected and some pair of category
    and key is held by the accumulator and by the incoming catalog, the
    loops of [Merge] end the run with exit value 1 and the diagnostic naming
    a category and a key that both catalogs hold: the pair that comes first,
    in the order in which the incoming catalog is visited, among those both
    hold.  The run ends there and no catalog is returned.  A pair that both
    hold is the one named when no other that both hold comes before it. *)
Theorem C3_strict_merge_rejects_duplicate (acc inc : Catalog) (cat k : string) :
  Catalog_ok inc -> lookup cat k acc <> None -> lookup cat k inc <> None ->
  exists cat' k',
    merge_categories true inc acc = Errx 1 (present_in_multiple_jars cat' k')
    /\ lookup cat' k' acc <> None /\ lookup cat' k' inc <> None
    /\ (forall c2 k2, lookup c2 k2 acc <> None -> lookup c2 k2 inc <> None ->
          (c2, k2) = (cat', k') \/ before (cat', k') (c2, k2))
    /\ ((forall c2 k2, lookup c2 k2 acc <> None -> lookup c2 k2 inc <> None ->
           ~ before (c2, k2) (cat, k)) -> cat' = cat /\ k' = k).
Proof.
  intros Hinc Ha Hi. rewrite (merge_categories_strict inc acc Hinc).
  pose proof (first_duplicate_complete cat k inc acc Ha Hi) as Hsome.
  destruct (first_duplicate inc acc) as [[cat' k']|] eqn:E; [|congruence].
  destruct (first_duplicate_sound cat' k' inc acc Hinc E) as [H1 H2].
  pose proof (first_duplicate_least cat' k' inc acc Hinc E) as Hleast.
  exists cat', k'. split; [reflexivity|]. split; [exact H1|]. split; [exact H2|].
  split; [exact Hleast|].
  intros Hnone. destruct (Hleast cat k Ha Hi) as [[= -> ->]|Hb]; [split; reflexivity|].
  exfalso. exact (Hnone cat' k' H1 H2 Hb).
Qed.



(** C6, as amended: the catalog of the single plugin [Append] of category
    [Core] is written as [core_bytes], in which the length of the class name,
    47 bytes, reads [00 2f]; and loading [core_bytes] returns that catalog. *)
Theorem C6_core_example :
  writeLog4j2PluginCacheFile core_catalog = core_bytes
  /\ loadLog4j2PluginCacheFile indeterminate core_bytes = core_catalog.
Proof. split; reflexivity. Qed.

(** C7, as amended: when a cache holds two or more records with the same
    category and key, the catalog loaded from it maps the key to the earliest
    of them. *)
Theorem C7_decode_keeps_first (records : Catalog) (cat k : string)
    (earlier later : PluginEntry) (others : list PluginEntry) :
  strings_fit records -> counts_fit records ->
  occurrences cat k records = earlier :: later :: others ->
  lookup cat k
    (loadLog4j2PluginCacheFile indeterminate (writeLog4j2PluginCacheFile records))
  = Some earlier.
Proof.
  intros Hfit Hcount Hocc. unfold loadLog4j2PluginCacheFile.
  rewrite load_stream_written by assumption. cbn [snd].
  rewrite lookup_replay. cbn [lookup find].
  rewrite first_occurrence_hd, Hocc. reflexivity.
Qed.

(** C8, as amended: [writeUTFString] has no failing path.  For a string of
    any length it appends the length modulo 65536 in two bytes, high byte
    first, and then all the bytes of the string. *)
Theorem C8_encode_never_fails (buffer : list byte) (str : string) :
  let length := Z.of_nat (String.length str) mod 65536 in
  writeUTFString buffer str
  = buffer ++ [byte_of_Z (length / 256); byte_of_Z length] ++ list_byte_of_string str.
Proof. apply writeUTFString_be16. Qed.

(** C9: after any sequence of calls of [Merge] on a new combiner that all
    return, every entry of the accumulator has the name of the category that
    holds it as its [category]. *)
Theorem C9_category_field_invariant (no_duplicates : bool) (lhs : list LH)
    (this : Log4J2PluginDatCombiner) :
  merge_all indeterminates DecompressEntryContents (new_combiner no_duplicates) lhs
  = Returned this ->
  owned_by_category (categories_ this).
Proof.
  intros H.
  apply (invariant_merge_all indeterminates DecompressEntryContents lhs
           (new_combiner no_duplicates) this invariant_nil H).
Qed.

(** C10: both insertions keep the entry seen first.  Loading one record
    leaves every entry the catalog holds already; the catalog loaded from a
    cache maps a category and key to the first record with them; and the
    loops of [Merge] with duplicates accepted return an accumulator that
    still holds the entries it held. *)
Theorem C10_first_seen_kept :
  (forall (cat : string) (i j : nat) (st : istringstream * Catalog) (cat' k : string)
          (e : PluginEntry),
      lookup cat' k (snd st) = Some e ->
      lookup cat' k (snd (load_plugin indeterminate cat i j st)) = Some e)
  /\ (forall (records : Catalog) (cat k : string),
         strings_fit records -> counts_fit records ->
         lookup cat k
           (loadLog4j2PluginCacheFile indeterminate (writeLog4j2PluginCacheFile records))
         = first_occurrence cat k records)
  /\ (forall (acc inc : Catalog) (cat k : string) (e : PluginEntry),
         lookup cat k acc = Some e ->
         exists acc',
           merge_categories false inc acc = Returned acc'
           /\ lookup cat k acc' = Some e).
Proof.
  split; [|split].
  - intros cat i j [s c] cat' k e H. cbn [snd] in H. unfold load_plugin.
    destruct (readUTFString _ s) as [k1 s1].
    destruct (readUTFString _ s1) as [cn s2].
    destruct (readUTFString _ s2) as [n s3].
    destruct (readBool _ s3) as [p s4].
    destruct (readBool _ s4) as [d s5].
    cbn [snd]. now apply lookup_insert_into_kept.
  - intros records cat k Hfit Hcount. unfold loadLog4j2PluginCacheFile.
    rewrite load_stream_written by assumption. cbn [snd].
    rewrite lookup_replay. reflexivity.
  - intros acc inc cat k e H. exists (merged inc acc).
    split; [apply merge_categories_lenient|now apply lookup_merged_kept].
Qed.

End Claims.

(** Decides the side conditions on a concrete catalog. *)
Ltac concrete :=
  repeat first
    [ split
    | constructor
    | progress unfold fits, plugin_fits, less ];
  try (vm_compute; congruence).

(** The round trip of [core_catalog]. *)
Lemma C1_round_trip_witness :
  (Catalog_ok core_catalog /\ keyed_by_key core_catalog
   /\ owned_by_category core_catalog /\ strings_fit core_catalog
   /\ no_empty_category core_catalog /\ counts_fit core_catalog)
  /\ loadLog4j2PluginCacheFile all_zeros (writeLog4j2PluginCacheFile core_catalog)
     = core_catalog.
Proof.
  assert (H : Catalog_ok core_catalog /\ keyed_by_key core_catalog
              /\ owned_by_category core_catalog /\ strings_fit core_catalog
              /\ no_empty_category core_catalog /\ counts_fit core_catalog)
    by concrete.
  split; [exact H|].
  destruct H as [Hok [Hk [Ho [Hs [Hn Hc]]]]].
  exact (C1_round_trip all_zeros core_catalog Hok Hk Ho Hs Hn Hc).
Defined.

(** A catalog with an empty category meets the conditions C1 states, yet it
    is written as a record with no entries, from which loading inserts
    nothing: the category is lost. *)
Lemma C1_counterexample :
  (Catalog_ok empty_core /\ keyed_by_key empty_core /\ owned_by_category empty_core
   /\ strings_fit empty_core)
  /\ (forall indeterminate,
        loadLog4j2PluginCacheFile indeterminate (writeLog4j2PluginCacheFile empty_core) = [])
  /\ [] <> empty_core.
Proof.
  split; [concrete|]. split; [intros ind; reflexivity|discriminate].
Qed.

(** Merging [other_catalog] into [core_catalog]. *)
Lemma C2_lenient_merge_witness :
  (Catalog_ok core_catalog /\ Catalog_ok other_catalog
   /\ lookup "Core" "Append" core_catalog = Some appender
   /\ lookup "Core" "Append" other_catalog = Some other_appender)
  /\ exists acc' plugins,
       merge_categories false other_catalog core_catalog = Returned acc'
       /\ find "Core" acc' = Some plugins
       /\ forall x, In ("Append", x) plugins <-> x = appender.
Proof.
  assert (H : Catalog_ok core_catalog /\ Catalog_ok other_catalog
              /\ lookup "Core" "Append" core_catalog = Some appender
              /\ lookup "Core" "Append" other_catalog = Some other_appender)
    by concrete.
  split; [exact H|].
  destruct H as [Hacc [Hinc [He He']]].
  exact (C2_lenient_merge_keeps_existing core_catalog other_catalog "Core" "Append"
           appender other_appender Hacc Hinc He He').
Defined.

(** Both catalogs hold [Append] of [Core]; merged second, [other_catalog]
    leaves the accumulator as it was, with the entry of the first. *)
Lemma C2_counterexample :
  lookup "Core" "Append" core_catalog = Some appender
  /\ lookup "Core" "Append" other_catalog = Some other_appender
  /\ merge_categories false other_catalog core_catalog = Returned core_catalog
  /\ merge_all always_zeros no_inflater (new_combiner false)
       [stored (writeLog4j2PluginCacheFile core_catalog);
        stored (writeLog4j2PluginCacheFile other_catalog)]
     = Returned {| categories_ := core_catalog; inflater_ := false; no_duplicates_ := false |}
  /\ lookup "Core" "Append" core_catalog <> Some other_appender.
Proof. repeat split; try reflexivity. discriminate. Qed.

(** The same merge with duplicates rejected. *)
Lemma C3_strict_merge_witness :
  (Catalog_ok other_catalog
   /\ lookup "Core" "Append" core_catalog <> None
   /\ lookup "Core" "Append" other_catalog <> None)
  /\ exists cat' k',
       merge_categories true other_catalog core_catalog
       = Errx 1 (present_in_multiple_jars cat' k')
       /\ lookup cat' k' core_catalog <> None /\ lookup cat' k' other_catalog <> None
       /\ (forall c2 k2, lookup c2 k2 core_catalog <> None ->
             lookup c2 k2 other_catalog <> None ->
             (c2, k2) = (cat', k') \/ before (cat', k') (c2, k2))
       /\ ((forall c2 k2, lookup c2 k2 core_catalog <> None ->
              lookup c2 k2 other_catalog <> None ->
              ~ before (c2, k2) ("Core", "Append")) ->
           cat' = "Core" /\ k' = "Append").
Proof.
  assert (H : Catalog_ok other_catalog
              /\ lookup "Core" "Append" core_catalog <> None
              /\ lookup "Core" "Append" other_catalog <> None)
    by concrete.
  split; [exact H|].
  destruct H as [Hinc [Ha Hi]].
  exact (C3_strict_merge_rejects_duplicate core_catalog other_catalog "Core" "Append"
           Hinc Ha Hi).
Defined.

(** Two catalogs that both hold [Append] and [Console] of [Core]: the
    diagnostic names [Append], the first of the two, and not [Console],
    though both catalogs hold it. *)
Lemma C3_counterexample :
  (Catalog_ok core_plugins
   /\ lookup "Core" "Console" core_plugins <> None)
  /\ merge_categories true core_plugins core_plugins
     = Errx 1 (present_in_multiple_jars "Core" "Append")
  /\ present_in_multiple_jars "Core" "Append" <> present_in_multiple_jars "Core" "Console".
Proof.
  split; [concrete|]. split; [reflexivity|discriminate].
Qed.




(** The bytes written differ from those C6 lists, which give the class name
    a length of 53; and loading the bytes C6 lists returns another catalog. *)
Lemma C6_counterexample :
  writeLog4j2PluginCacheFile core_catalog = core_bytes
  /\ core_bytes <> claimed_bytes
  /\ forall indeterminate, loadLog4j2PluginCacheFile indeterminate claimed_bytes <> core_catalog.
Proof.
  split; [reflexivity|]. split; [discriminate|].
  intros ind H.
  apply (f_equal (fun c => option_map (fun e => String.length (className e))
                             (lookup "Core" "Append" c))) in H.
  vm_compute in H. discriminate.
Qed.

(** Loading the cache of [repeated_records]. *)
Lemma C7_decode_witness :
  (strings_fit repeated_records /\ counts_fit repeated_records
   /\ occurrences "Core" "Append" repeated_records = [appender; other_appender])
  /\ lookup "Core" "Append"
       (loadLog4j2PluginCacheFile all_zeros (writeLog4j2PluginCacheFile repeated_records))
     = Some appender.
Proof.
  assert (H : strings_fit repeated_records /\ counts_fit repeated_records
              /\ occurrences "Core" "Append" repeated_records
                 = [appender; other_appender])
    by concrete.
  split; [exact H|].
  destruct H as [Hs [Hc Ho]].
  exact (C7_decode_keeps_first all_zeros repeated_records "Core" "Append"
           appender other_appender [] Hs Hc Ho).
Defined.

(** [repeated_records] holds [Append] of [Core] twice; the catalog loaded maps
    it to the earlier record, not to the later one. *)
Lemma C7_counterexample :
  occurrences "Core" "Append" repeated_records = [appender; other_appender]
  /\ (forall indeterminate,
        lookup "Core" "Append"
          (loadLog4j2PluginCacheFile indeterminate
             (writeLog4j2PluginCacheFile repeated_records))
        = Some appender)
  /\ Some appender <> Some other_appender.
Proof. split; [reflexivity|]. split; [intros ind; reflexivity|discriminate]. Qed.

(** A category name of 65536 bytes is written, its length field reading
    [00 00]. *)
Lemma C8_counterexample :
  65535 < Z.of_nat (String.length long_name)
  /\ writeLog4j2PluginCacheFile [(long_name, [])]
     = [x00; x00; x00; x01; x00; x00] ++ list_byte_of_string long_name
       ++ [x00; x00; x00; x00].
Proof.
  assert (Hlen : Z.of_nat (String.length long_name) = 65536).
  { unfold long_name. rewrite length_string_of_list_ascii, repeat_length. reflexivity. }
  split; [rewrite Hlen; reflexivity|].
  rewrite writeLog4j2PluginCacheFile_layout.
  cbn [flat_map]. rewrite write_category_layout. unfold fst, snd. rewrite Hlen.
  cbn [flat_map List.length]. rewrite !app_nil_r.
  change (be32 (convert int (Z.of_nat 1))) with [x00; x00; x00; x01].
  change (be16 (65536 mod 65536)) with [x00; x00].
  change (be32 (convert int (Z.of_nat 0))) with [x00; x00; x00; x00].
  exact (app_assoc [x00; x00; x00; x01] [x00; x00] _).
Qed.

(** Two merges into a new combiner. *)
Lemma C9_category_field_witness :
  merge_all always_zeros no_inflater (new_combiner false)
    [stored (writeLog4j2PluginCacheFile core_catalog);
     stored (writeLog4j2PluginCacheFile [("Core", [("Console", console)])])]
  = Returned
      {| categories_ := [("Core", [("Append", appender); ("Console", console)])];
         inflater_ := false; no_duplicates_ := false |}
  /\ owned_by_category [("Core", [("Append", appender); ("Console", console)])].
Proof.
  assert (H : merge_all always_zeros no_inflater (new_combiner false)
                [stored (writeLog4j2PluginCacheFile core_catalog);
                 stored (writeLog4j2PluginCacheFile [("Core", [("Console", console)])])]
              = Returned
                  {| categories_ :=
                       [("Core", [("Append", appender); ("Console", console)])];
                     inflater_ := false; no_duplicates_ := false |})
    by (vm_compute; reflexivity).
  split; [exact H|].
  exact (C9_category_field_invariant always_zeros no_inflater false _ _ H).
Defined.

(** The first record wins in [repeated_records], the accumulator in the
    merge. *)
Lemma C10_first_seen_witness :
  (strings_fit repeated_records /\ counts_fit repeated_records
   /\ first_occurrence "Core" "Append" repeated_records = Some appender
   /\ lookup "Core" "Append" core_catalog = Some appender)
  /\ lookup "Core" "Append"
       (loadLog4j2PluginCacheFile all_zeros (writeLog4j2PluginCacheFile repeated_records))
     = first_occurrence "Core" "Append" repeated_records
  /\ exists acc',
       merge_categories false other_catalog core_catalog = Returned acc'
       /\ lookup "Core" "Append" acc' = Some appender.
Proof.
  assert (H : strings_fit repeated_records /\ counts_fit repeated_records
              /\ first_occurrence "Core" "Append" repeated_records = Some appender
              /\ lookup "Core" "Append" core_catalog = Some appender)
    by concrete.
  split; [exact H|].
  destruct H as [Hs [Hc [_ He]]]. split.
  - exact (proj1 (proj2 (C10_first_seen_kept all_zeros)) repeated_records "Core" "Append"
             Hs Hc).
  - exact (proj2 (proj2 (C10_first_seen_kept all_zeros)) core_catalog other_catalog
             "Core" "Append" appender He).
Defined.

(** ** Further examples of the specification *)

(** A combiner on which [Merge] was never called writes the four bytes of a
    count of zero. *)
Example empty_catalog_encoding (no_duplicates : bool) :
  OutputEntry (new_combiner no_duplicates) [] = [x00; x00; x00; x00].
Proof. reflexivity. Qed.

(** A compression method other than stored and deflated ends the run with
    exit value 2, whatever the bytes. *)
Example unsupported_compression (indeterminate : call -> string -> nat -> byte)
    (DecompressEntryContents : list byte -> list byte)
    (this : Log4J2PluginDatCombiner) (bytes : list byte) :
  Merge indeterminate DecompressEntryContents this
    {| compression_method := 12; data := bytes |}
  = Errx 2 neither_stored_nor_deflated.
Proof. reflexivity. Qed.

(** With duplicates rejected, merging the two catalogs of the example names
    [Append] of [Core]. *)
Example strict_duplicate_rejection :
  merge_categories true other_catalog core_catalog
  = Errx 1 (present_in_multiple_jars "Core" "Append").
Proof. reflexivity. Qed.

(** * Further properties of the combiner

    What the fields, the loader and [Merge] do beyond the claims above. *)

(** ** Fields written and read back *)

Lemma swapped32_range (v : Z) : 0 <= swapped32 v < 4294967296.
Proof. unfold swapped32. Z.div_mod_to_equations. lia. Qed.

Lemma swapped16_range (v : Z) : 0 <= swapped16 v < 65536.
Proof. unfold swapped16. Z.div_mod_to_equations. lia. Qed.

Lemma swapped32_involutive (v : Z) : swapped32 (swapped32 v) = v mod 4294967296.
Proof.
  replace (swapped32 v)
    with ((v / 16777216) mod 256
          + 256 * ((v / 65536) mod 256
                   + 256 * ((v / 256) mod 256 + 256 * (v mod 256 + 256 * 0))))
    by (unfold swapped32; lia).
  rewrite swapped32_digits by (repeat split; apply Z.mod_pos_bound; lia).
  Z.div_mod_to_equations. lia.
Qed.

Lemma swapped16_involutive (v : Z) : swapped16 (swapped16 v) = v mod 65536.
Proof.
  replace (swapped16 v) with ((v / 256) mod 256 + 256 * (v mod 256 + 256 * 0))
    by (unfold swapped16; lia).
  rewrite swapped16_digits by (repeat split; apply Z.mod_pos_bound; lia).
  Z.div_mod_to_equations. lia.
Qed.

Lemma swapped32_wrap_signed (v : Z) : swapped32 (wrap_signed 32 v) = swapped32 v.
Proof.
  unfold swapped32, wrap_signed.
  change (2 ^ (32 - 1)) with 2147483648. change (2 ^ 32) with 4294967296.
  assert (H3 : ((v + 2147483648) mod 4294967296 - 2147483648) / 16777216 mod 256
               = (v / 16777216) mod 256) by (Z.div_mod_to_equations; lia).
  assert (H2 : ((v + 2147483648) mod 4294967296 - 2147483648) / 65536 mod 256
               = (v / 65536) mod 256) by (Z.div_mod_to_equations; lia).
  assert (H1 : ((v + 2147483648) mod 4294967296 - 2147483648) / 256 mod 256
               = (v / 256) mod 256) by (Z.div_mod_to_equations; lia).
  assert (H0 : ((v + 2147483648) mod 4294967296 - 2147483648) mod 256
               = v mod 256) by (Z.div_mod_to_equations; lia).
  rewrite H3, H2, H1, H0. reflexivity.
Qed.

(** X1: for each of the three types it is used at, [swapByteOrder] applied
    twice gives the value back, as converted to the type: it is its own
    inverse on the values of the type. *)
Theorem swapByteOrder_twice (v : Z) :
  swapByteOrder uint32_t (swapByteOrder uint32_t v) = convert uint32_t v
  /\ swapByteOrder uint16_t (swapByteOrder uint16_t v) = convert uint16_t v
  /\ swapByteOrder int (swapByteOrder int v) = convert int v.
Proof.
  split; [|split].
  - rewrite !swapByteOrder_uint32_t. apply swapped32_involutive.
  - rewrite !swapByteOrder_uint16_t. apply swapped16_involutive.
  - rewrite !swapByteOrder_int, swapped32_wrap_signed, swapped32_involutive.
    cbn [convert int]. unfold wrap_signed. change (2 ^ (32 - 1)) with 2147483648.
    change (2 ^ 32) with 4294967296. Z.div_mod_to_equations. lia.
Qed.

Lemma length_read (stream : istringstream) (s : list byte) :
  List.length (fst (read stream s)) = List.length s.
Proof.
  unfold read. destruct (failbit stream); [reflexivity|].
  destruct (Nat.leb_spec (List.length s) (List.length (rdbuf stream))) as [H|H]; cbn [fst].
  - apply firstn_length_le. exact H.
  - rewrite length_app, length_skipn. lia.
Qed.

Lemma read_prefix (bs rest s : list byte) :
  (List.length s <= List.length bs)%nat ->
  read {| rdbuf := bs ++ rest; failbit := false |} s
  = (firstn (List.length s) bs,
     {| rdbuf := skipn (List.length s) bs ++ rest; failbit := false |}).
Proof.
  intros H. rewrite <- (firstn_skipn (List.length s) bs) at 1. rewrite <- app_assoc.
  apply read_exact. symmetry. apply firstn_length_le. exact H.
Qed.

Lemma length_string_of_list_byte (l : list byte) :
  String.length (string_of_list_byte l) = List.length l.
Proof.
  unfold string_of_list_byte. rewrite length_string_of_list_ascii, length_map.
  reflexivity.
Qed.

Lemma string_of_list_byte_app (l1 l2 : list byte) :
  string_of_list_byte (l1 ++ l2) = (string_of_list_byte l1 ++ string_of_list_byte l2)%string.
Proof.
  induction l1 as [|b l1 IH]; [reflexivity|].
  cbn [app]. unfold string_of_list_byte in *. cbn [List.map string_of_list_ascii].
  rewrite IH. reflexivity.
Qed.

Lemma length_list_byte_of_string (s : string) :
  List.length (list_byte_of_string s) = String.length s.
Proof.
  rewrite <- (string_of_list_byte_of_string s) at 2.
  symmetry. apply length_string_of_list_byte.
Qed.

Lemma for_fst {A B : Type} (body : nat -> A * B -> A * B) (a : A) :
  (forall i b, fst (body i (a, b)) = a) ->
  forall n b, fst (for_ n body (a, b)) = a.
Proof.
  intros H n b. apply (for_keeps (fun st => fst st = a)); [|reflexivity].
  intros i [a' b'] E. cbn [fst] in E. subst a'. apply H.
Qed.

Lemma for_snd {A B : Type} (P : B -> Prop) (body : nat -> A * B -> A * B) :
  (forall i st, P (snd st) -> P (snd (body i st))) ->
  forall n st, P (snd st) -> P (snd (for_ n body st)).
Proof. intros H n st. apply (for_keeps (fun st => P (snd st))). exact H. Qed.

Section Fields.
Variable indeterminate : string -> nat -> byte.

(** X2: [writeInt] appends four bytes to the buffer, and [readInt] on them
    returns the value written modulo 2^32 and consumes just them: a
    non-negative [int] comes back as it is, a negative one increased by
    2^32, since it is written as [int] and read as [uint32_t]. *)
Theorem readInt_writeInt (buffer rest : list byte) (value : Z) :
  writeInt buffer value = buffer ++ writeInt [] value
  /\ List.length (writeInt [] value) = 4%nat
  /\ readInt indeterminate {| rdbuf := writeInt [] value ++ rest; failbit := false |}
     = (value mod 4294967296, {| rdbuf := rest; failbit := false |}).
Proof.
  rewrite !writeInt_be32. split; [reflexivity|]. split; [reflexivity|].
  apply readInt_be32.
Qed.

(** X3: [readUTFString] on the bytes [writeUTFString] wrote for a string
    returns the first [n] bytes of the string, where [n] is its length
    modulo 65536, and leaves the other bytes of the string in the stream,
    ahead of what follows.  A string of at most 65535 bytes is read back
    whole; a longer one is cut, and the next field is read from its
    remains. *)
Theorem readUTFString_writeUTFString (str : string) (rest : list byte) :
  exists read_back left_over : string,
    str = (read_back ++ left_over)%string
    /\ Z.of_nat (String.length read_back) = Z.of_nat (String.length str) mod 65536
    /\ readUTFString indeterminate
         {| rdbuf := writeUTFString [] str ++ rest; failbit := false |}
       = (read_back,
          {| rdbuf := list_byte_of_string left_over ++ rest; failbit := false |}).
Proof.
  set (n := Z.to_nat (Z.of_nat (String.length str) mod 65536)).
  assert (Hn : (n <= String.length str)%nat).
  { unfold n. pose proof (Z.mod_le (Z.of_nat (String.length str)) 65536). lia. }
  exists (string_of_list_byte (firstn n (list_byte_of_string str))),
         (string_of_list_byte (skipn n (list_byte_of_string str))).
  split; [|split].
  - rewrite <- string_of_list_byte_app, firstn_skipn.
    symmetry. apply string_of_list_byte_of_string.
  - rewrite length_string_of_list_byte, firstn_length_le
      by (rewrite length_list_byte_of_string; exact Hn).
    unfold n. rewrite Z2Nat.id; [reflexivity|]. apply Z.mod_pos_bound. lia.
  - rewrite writeUTFString_be16. cbn [app]. unfold readUTFString.
    change (be16 ?v ++ ?l) with (be16 v ++ l).
    rewrite <- app_assoc.
    rewrite read_exact by (rewrite length_uninitialized; reflexivity).
    rewrite swapByteOrder_uint16_t.
    assert (Hv : swapped16 (object_value (be16 (Z.of_nat (String.length str) mod 65536)))
                 = Z.of_nat (String.length str) mod 65536).
    { unfold be16. cbn [object_value]. rewrite !Z_of_byte_of_Z.
      rewrite swapped16_digits by (repeat split; apply Z.mod_pos_bound; lia).
      Z.div_mod_to_equations. lia. }
    rewrite Hv. fold n.
    rewrite read_prefix
      by (rewrite repeat_length, length_list_byte_of_string; exact Hn).
    rewrite repeat_length, list_byte_of_string_of_list_byte. reflexivity.
Qed.

Lemma readUTFString_fits (stream : istringstream) :
  fits (fst (readUTFString indeterminate stream)).
Proof.
  unfold readUTFString, fits.
  destruct (read stream _) as [length s].
  rewrite swapByteOrder_uint16_t.
  pose proof (length_read s (repeat x00 (Z.to_nat (swapped16 (object_value length))))) as H.
  destruct (read s _) as [result s']. cbn [fst] in *.
  rewrite length_string_of_list_byte, H, repeat_length.
  pose proof (swapped16_range (object_value length)). lia.
Qed.

(** X4: whatever the stream holds, and whether or not it has failed,
    [readInt] returns a value from 0 to 2^32 - 1 and [readUTFString] a
    string of at most 65535 bytes, and neither puts back into the stream
    what it has consumed: the bytes left are a suffix of those there were. *)
Theorem read_values_bounded (stream : istringstream) :
  0 <= fst (readInt indeterminate stream) < 4294967296
  /\ fits (fst (readUTFString indeterminate stream))
  /\ (exists consumed,
        rdbuf stream = consumed ++ rdbuf (snd (readInt indeterminate stream)))
  /\ (exists consumed,
        rdbuf stream = consumed ++ rdbuf (snd (readUTFString indeterminate stream))).
Proof.
  assert (Hread : forall stream s,
            exists consumed, rdbuf stream = consumed ++ rdbuf (snd (read stream s))).
  { intros st s. unfold read. destruct (failbit st); [now exists []|].
    destruct (List.length s <=? List.length (rdbuf st))%nat; cbn [snd rdbuf].
    - exists (firstn (List.length s) (rdbuf st)). now rewrite firstn_skipn.
    - exists (rdbuf st). now rewrite app_nil_r. }
  split; [|split; [|split]].
  - unfold readInt. destruct (read stream _) as [values s]. cbn [fst].
    rewrite swapByteOrder_uint32_t. apply swapped32_range.
  - apply readUTFString_fits.
  - unfold readInt. specialize (Hread stream (uninitialized indeterminate "values" (sizeof uint32_t))).
    destruct (read stream _) as [values s]. exact Hread.
  - unfold readUTFString.
    pose proof (Hread stream (uninitialized indeterminate "length" (sizeof uint16_t))) as H1.
    destruct (read stream _) as [length s]. cbn [snd] in H1.
    pose proof (Hread s (repeat x00
                  (Z.to_nat (swapByteOrder uint16_t (object_value length))))) as H2.
    destruct (read s _) as [result s']. cbn [snd] in *.
    destruct H1 as [c1 H1], H2 as [c2 H2]. exists (c1 ++ c2).
    now rewrite H1, H2, app_assoc.
Qed.

End Fields.

Section Loader.
Variable indeterminate : call -> string -> nat -> byte.

(** X5: once a read has fallen short the loops of
    [loadLog4j2PluginCacheFile] go on for as many records as the counts
    announce, but they consume nothing more: the stream is left as it was,
    failed and with the bytes it had. *)
Theorem load_after_failure (n : nat) (stream : istringstream) (c : Catalog) :
  failbit stream = true ->
  fst (for_ n (load_category indeterminate) (stream, c)) = stream.
Proof.
  intros H. apply for_fst. intros i c'. now apply load_category_failed.
Qed.

(** X6: the bytes of a cache are read to the end of the last record and no
    further: whatever follows them is left in the stream, unread, and the
    catalog loaded is the one loaded from the cache alone, whatever the
    uninitialised locals hold. *)
Theorem load_ignores_trailing_bytes (records : Catalog) (rest : list byte)
    (other : call -> string -> nat -> byte) :
  strings_fit records -> counts_fit records ->
  load_stream indeterminate (writeLog4j2PluginCacheFile records ++ rest)
  = ({| rdbuf := rest; failbit := false |},
     loadLog4j2PluginCacheFile other (writeLog4j2PluginCacheFile records)).
Proof.
  intros Hfit Hcounts. unfold loadLog4j2PluginCacheFile.
  rewrite load_stream_written by assumption. cbn [snd].
  destruct Hcounts as [Hn Hlen]. unfold load_stream.
  rewrite writeLog4j2PluginCacheFile_layout, <- app_assoc.
  rewrite readInt_count by exact Hn. rewrite Nat2Z.id.
  apply load_categories_written; assumption.
Qed.

End Loader.

(** ** The strings of the catalogs built *)

Lemma strings_fit_insert_into (cat : string) (p : string * PluginEntry) (c : Catalog) :
  fits cat -> plugin_fits p -> strings_fit c -> strings_fit (insert_into cat p c).
Proof.
  intros Hcat Hp Hc. unfold strings_fit. rewrite insert_into_assign.
  apply Forall_assign; [exact Hc|]. cbn [fst snd]. split; [exact Hcat|].
  apply Forall_insert; [|exact Hp].
  apply (Forall_get (fun cp => fits (fst cp) /\ Forall plugin_fits (snd cp))
           (Forall plugin_fits) cat c); [now intros cp [_ H]|constructor|exact Hc].
Qed.

Lemma strings_fit_merged (inc c : Catalog) :
  strings_fit inc -> strings_fit c -> strings_fit (merged inc c).
Proof.
  revert c. induction inc as [|[cat l] inc IH]; intros c Hinc Hc; [exact Hc|].
  apply Forall_cons_iff in Hinc as [[Hcat Hl] Hinc]. cbn [fst snd] in Hcat, Hl.
  cbn [merged]. apply IH; [exact Hinc|].
  destruct (is_some (find cat c)).
  - clear IH Hinc. revert c Hc. induction l as [|p l IHl]; intros c Hc; [exact Hc|].
    apply Forall_cons_iff in Hl as [Hp Hl].
    cbn [fold_left]. apply IHl; [exact Hl|]. now apply strings_fit_insert_into.
  - apply Forall_assign; [exact Hc|]. split; assumption.
Qed.

Section Written.
Variable indeterminate : call -> string -> nat -> byte.
Variable DecompressEntryContents : list byte -> list byte.

Lemma strings_fit_load_plugin (cat : string) (i j : nat) (st : istringstream * Catalog) :
  fits cat -> strings_fit (snd st) ->
  strings_fit (snd (load_plugin indeterminate cat i j st)).
Proof.
  destruct st as [s c]. cbn [snd]. intros Hcat H. unfold load_plugin.
  pose proof (readUTFString_fits (indeterminate (key_call i j)) s) as Hk.
  destruct (readUTFString _ s) as [k s1].
  pose proof (readUTFString_fits (indeterminate (className_call i j)) s1) as Hcn.
  destruct (readUTFString _ s1) as [cn s2].
  pose proof (readUTFString_fits (indeterminate (name_call i j)) s2) as Hn.
  destruct (readUTFString _ s2) as [n s3].
  destruct (readBool _ s3) as [p s4].
  destruct (readBool _ s4) as [d s5].
  cbn [snd fst] in *. apply strings_fit_insert_into; [exact Hcat| |exact H].
  repeat split; assumption.
Qed.

Lemma strings_fit_load_category (i : nat) (st : istringstream * Catalog) :
  strings_fit (snd st) -> strings_fit (snd (load_category indeterminate i st)).
Proof.
  destruct st as [s c]. cbn [snd]. intros H. unfold load_category.
  pose proof (readUTFString_fits (indeterminate (category_call i)) s) as Hcat.
  destruct (readUTFString _ s) as [cat s1].
  destruct (readInt _ s1) as [n s2]. cbn [fst] in Hcat.
  apply (for_snd strings_fit); [|exact H].
  intros j st. now apply strings_fit_load_plugin.
Qed.

Lemma strings_fit_load (byteData : list byte) :
  strings_fit (loadLog4j2PluginCacheFile indeterminate byteData).
Proof.
  unfold loadLog4j2PluginCacheFile, load_stream.
  destruct (readInt _ _) as [n s].
  apply (for_snd strings_fit); [|constructor]. apply strings_fit_load_category.
Qed.

Lemma Merge_categories (this this' : Log4J2PluginDatCombiner) (lh : LH) :
  Merge indeterminate DecompressEntryContents this lh = Returned this' ->
  exists bytes_, categories_ this'
    = merged (loadLog4j2PluginCacheFile indeterminate bytes_) (categories_ this).
Proof.
  unfold Merge.
  destruct (if compression_method lh =? Z_NO_COMPRESSION then _ else _)
    as [[bytes_ inflater]|]; [|discriminate].
  destruct (merge_categories _ _ _) as [c|] eqn:E; [|discriminate].
  intros [= <-]. cbn [categories_]. exists bytes_.
  exact (merge_categories_returned _ _ _ _ E).
Qed.

Lemma Merge_fields (this this' : Log4J2PluginDatCombiner) (lh : LH) :
  Merge indeterminate DecompressEntryContents this lh = Returned this' ->
  no_duplicates_ this' = no_duplicates_ this
  /\ inflater_ this' = inflater_ this || deflated lh.
Proof.
  unfold Merge, deflated.
  destruct (Z.eqb_spec (compression_method lh) Z_NO_COMPRESSION) as [E0|E0].
  - rewrite E0. change (Z_NO_COMPRESSION =? Z_DEFLATED) with false.
    destruct (merge_categories _ _ _); [|discriminate].
    intros [= <-]. cbn [no_duplicates_ inflater_]. now rewrite orb_false_r.
  - destruct (compression_method lh =? Z_DEFLATED); [|discriminate].
    destruct (merge_categories _ _ _); [|discriminate].
    intros [= <-]. cbn [no_duplicates_ inflater_]. now rewrite orb_true_r.
Qed.



End Written.

Lemma strings_fit_merge_all (indeterminate : nat -> call -> string -> nat -> byte)
    (DecompressEntryContents : list byte -> list byte)
    (lhs : list LH) (this this' : Log4J2PluginDatCombiner) :
  strings_fit (categories_ this) ->
  merge_all indeterminate DecompressEntryContents this lhs = Returned this' ->
  strings_fit (categories_ this').
Proof.
  revert indeterminate this.
  induction lhs as [|lh lhs IH]; intros indeterminate this H; cbn [merge_all].
  - now intros [= <-].
  - destruct (Merge _ _ this lh) as [this1|] eqn:E; [|discriminate].
    apply IH. destruct (Merge_categories _ _ _ _ _ E) as [bytes_ ->].
    apply strings_fit_merged; [apply strings_fit_load|exact H].
Qed.

(** X7: after any sequence of [Merge] calls on a new combiner that all
    return, the bytes [OutputEntry] appends load back to the catalog the
    combiner holds, provided the number of its categories and the number of
    entries of each are below 2^32.  Nothing is asked of the strings: those
    the loader builds never exceed 65535 bytes. *)
Theorem OutputEntry_loads_back (indeterminate : nat -> call -> string -> nat -> byte)
    (DecompressEntryContents : list byte -> list byte)
    (no_duplicates : bool) (lhs : list LH)
    (this : Log4J2PluginDatCombiner) (other : call -> string -> nat -> byte) :
  merge_all indeterminate DecompressEntryContents (new_combiner no_duplicates) lhs
    = Returned this ->
  counts_fit (categories_ this) ->
  loadLog4j2PluginCacheFile other (OutputEntry this []) = categories_ this.
Proof.
  intros Hrun Hcounts.
  assert (Hinv : invariant (categories_ this)).
  { exact (invariant_merge_all indeterminate DecompressEntryContents lhs
             (new_combiner no_duplicates) this invariant_nil Hrun). }
  assert (Hfit : strings_fit (categories_ this)).
  { exact (strings_fit_merge_all indeterminate DecompressEntryContents lhs
             (new_combiner no_duplicates) this (Forall_nil _) Hrun). }
  destruct Hinv as [Hok [Hk [Ho Hn]]].
  unfold OutputEntry, loadLog4j2PluginCacheFile. cbn [app].
  rewrite load_stream_written by assumption. cbn [snd].
  rewrite replay_sorted by (assumption || constructor). reflexivity.
Qed.


(** X9: a run of [Merge] calls that all return never changes
    [no_duplicates_], and it leaves an [Inflater] exactly when there was
    one before or one of the entries was deflated: the inflater is created
    for the first deflated entry and kept from then on. *)
Theorem merge_all_fields (indeterminate : nat -> call -> string -> nat -> byte)
    (DecompressEntryContents : list byte -> list byte)
    (lhs : list LH) (this this' : Log4J2PluginDatCombiner) :
  merge_all indeterminate DecompressEntryContents this lhs = Returned this' ->
  no_duplicates_ this' = no_duplicates_ this
  /\ inflater_ this' = inflater_ this || existsb deflated lhs.
Proof.
  revert indeterminate this.
  induction lhs as [|lh lhs IH]; intros indeterminate this; cbn [merge_all existsb].
  - intros [= <-]. now rewrite orb_false_r.
  - destruct (Merge _ _ this lh) as [this1|] eqn:E; [|discriminate].
    intros H. destruct (IH _ _ H) as [H1 H2].
    destruct (Merge_fields _ _ _ _ _ E) as [H3 H4].
    rewrite H1, H2, H3, H4, orb_assoc. split; reflexivity.
Qed.

(** ** The lenient merge as a union *)

Lemma find_cons_below {V : Type} (k k' : string) (v : V) (m : map V) :
  less k k' -> find k ((k', v) :: m) = None.
Proof. intros H. cbn [find]. now rewrite (compare_lt k k'). Qed.

Lemma find_cons_same {V : Type} (k : string) (v : V) (m : map V) :
  find k ((k, v) :: m) = Some v.
Proof. cbn [find]. now rewrite compare_refl. Qed.

Lemma find_cons_above {V : Type} (k k' : string) (v : V) (m : map V) :
  less k' k -> find k ((k', v) :: m) = find k m.
Proof. intros H. cbn [find]. now rewrite (compare_gt k k'). Qed.

Lemma find_below {V : Type} (k : string) (m : map V) :
  Forall (less k) (keys m) -> find k m = None.
Proof.
  destruct m as [|[k' v] m]; [reflexivity|]. intros H.
  apply Forall_cons_iff in H as [H _]. now apply find_cons_below.
Qed.

Lemma find_tail {V : Type} (k k' : string) (v : V) (m : map V) :
  k <> k' -> Forall (less k') (keys m) ->
  find k ((k', v) :: m) = find k m.
Proof.
  intros Hne Hm. destruct (compare_spec k k') as [E|Hlt|Hgt].
  - contradiction.
  - rewrite find_cons_below by exact Hlt. symmetry. apply find_below.
    apply (Forall_impl _ (fun x => less_trans k k' x Hlt)). exact Hm.
  - now apply find_cons_above.
Qed.

(** What the loop over the plugins of a category leaves under a pair when
    duplicates are accepted. *)
Lemma lookup_fold_insert_into (cat k : string) (l : map PluginEntry) (c : Catalog) :
  map_ok l ->
  lookup cat k (fold_left (fun c p => insert_into cat p c) l c)
  = match lookup cat k c with Some e => Some e | None => find k l end.
Proof.
  unfold map_ok. revert c. induction l as [|[k0 e0] l IH]; intros c Hl.
  - cbn [fold_left find]. now destruct (lookup cat k c).
  - change (keys ((k0, e0) :: l)) with (k0 :: keys l) in Hl.
    apply StronglySorted_inv in Hl as [Hl Hk].
    cbn [fold_left]. rewrite (IH _ Hl).
    destruct (string_dec k k0) as [->|Hne].
    + rewrite lookup_insert_into_same, find_cons_same.
      now destruct (lookup cat k0 c).
    + rewrite lookup_insert_into_other by (right; exact Hne).
      rewrite (find_tail k k0 e0 l Hne Hk). reflexivity.
Qed.

Lemma lookup_tail (cat cat' k : string) (l : map PluginEntry) (inc : Catalog) :
  cat <> cat' -> Forall (less cat') (keys inc) ->
  lookup cat k ((cat', l) :: inc) = lookup cat k inc.
Proof. intros Hne H. unfold lookup. now rewrite find_tail. Qed.

Lemma lookup_merged (cat k : string) (inc c : Catalog) :
  Catalog_ok inc ->
  lookup cat k (merged inc c)
  = match lookup cat k c with Some e => Some e | None => lookup cat k inc end.
Proof.
  intros [Hs Hm]. unfold map_ok in Hs. revert c.
  induction inc as [|[cat0 l] inc IH]; intros c.
  - cbn [merged]. now destruct (lookup cat k c).
  - change (keys ((cat0, l) :: inc)) with (cat0 :: keys inc) in Hs.
    apply StronglySorted_inv in Hs as [Hs Hk].
    apply Forall_cons_iff in Hm as [Hl Hm]. cbn [snd] in Hl.
    cbn [merged]. rewrite (IH Hs Hm).
    destruct (string_dec cat cat0) as [->|Hne].
    + assert (Hinc : lookup cat0 k inc = None).
      { unfold lookup. now rewrite find_below. }
      assert (Hhd : lookup cat0 k ((cat0, l) :: inc) = find k l).
      { unfold lookup. now rewrite find_cons_same. }
      rewrite Hinc, Hhd.
      destruct (find cat0 c) as [inner|] eqn:E; cbn [is_some].
      * rewrite lookup_fold_insert_into by exact Hl.
        destruct (lookup cat0 k c); [reflexivity|]. now destruct (find k l).
      * rewrite lookup_assign_same.
        assert (Hc : lookup cat0 k c = None) by (unfold lookup; now rewrite E).
        rewrite Hc. now destruct (find k l).
    + rewrite (lookup_tail cat cat0 k l inc Hne Hk).
      destruct (is_some (find cat0 c)).
      * now rewrite lookup_fold_insert_into_other.
      * now rewrite lookup_assign_other.
Qed.

(** X10: with [no_duplicates_] unset the loops of [Merge] return, and the
    catalog they leave is the union of the two that prefers the
    accumulator: under every category and key it holds the accumulator's
    entry if there is one, and otherwise what the incoming catalog holds. *)
Theorem lenient_merge_lookup (inc c : Catalog) :
  Catalog_ok inc ->
  exists c', merge_categories false inc c = Returned c'
    /\ forall cat k,
         lookup cat k c'
         = match lookup cat k c with Some e => Some e | None => lookup cat k inc end.
Proof.
  intros H. exists (merged inc c). split; [apply merge_categories_lenient|].
  intros cat k. now apply lookup_merged.
Qed.

Lemma first_duplicate_none (inc c : Catalog) :
  Catalog_ok inc ->
  (forall cat k, lookup cat k c = None \/ lookup cat k inc = None) ->
  first_duplicate inc c = None.
Proof.
  intros Hok H. destruct (first_duplicate inc c) as [[cat k]|] eqn:E; [|reflexivity].
  destruct (first_duplicate_sound _ _ _ _ Hok E) as [H1 H2].
  destruct (H cat k); contradiction.
Qed.

(** X11: the loops of [Merge] give the same outcome with [no_duplicates_]
    set as with it unset exactly when the two catalogs share no category
    and key: the strict merge differs from the lenient one only by its
    error. *)
Theorem strict_merge_agrees (inc c : Catalog) :
  Catalog_ok inc ->
  (forall cat k, lookup cat k c = None \/ lookup cat k inc = None)
  <-> merge_categories true inc c = merge_categories false inc c.
Proof.
  intros Hok. rewrite merge_categories_strict by exact Hok.
  rewrite merge_categories_lenient. split.
  - intros H. now rewrite first_duplicate_none.
  - intros H cat k.
    destruct (lookup cat k c) eqn:Ec; [|now left].
    destruct (lookup cat k inc) eqn:Ei; [|now right].
    exfalso. apply (first_duplicate_complete cat k inc c); [congruence|congruence|].
    destruct (first_duplicate inc c) as [[cat' k']|]; [discriminate|reflexivity].
Qed.

(** ** Merging again, and in another order *)

Lemma insert_present {V : Type} (p : string * V) (m : map V) :
  find (fst p) m <> None -> insert p m = m.
Proof.
  induction m as [|[k' v'] m IH]; cbn [find insert]; [congruence|].
  destruct (String.compare (fst p) k'); [reflexivity|congruence|].
  intros H. f_equal. now apply IH.
Qed.

Lemma assign_present {V : Type} (k : string) (v : V) (m : map V) :
  find k m = Some v -> assign k v m = m.
Proof.
  induction m as [|[k' v'] m IH]; cbn [find assign]; [discriminate|].
  destruct (compare_spec k k') as [E|Hlt|Hgt]; [|discriminate|].
  - intros [= ->]. reflexivity.
  - intros H. f_equal. now apply IH.
Qed.

Lemma insert_into_present (cat : string) (p : string * PluginEntry) (c : Catalog) :
  lookup cat (fst p) c <> None -> insert_into cat p c = c.
Proof.
  unfold lookup. intros H. rewrite insert_into_assign. unfold get.
  destruct (find cat c) as [inner|] eqn:E; [|congruence].
  rewrite insert_present by exact H. now apply assign_present.
Qed.

Lemma merged_present (inc c : Catalog) :
  (forall cat l, In (cat, l) inc ->
     find cat c <> None /\ forall p, In p l -> lookup cat (fst p) c <> None) ->
  merged inc c = c.
Proof.
  induction inc as [|[cat l] inc IH]; intros H; [reflexivity|].
  cbn [merged]. destruct (H cat l (or_introl eq_refl)) as [Hc Hl].
  destruct (find cat c) as [inner|] eqn:E; [|congruence]. cbn [is_some].
  assert (Hfold : fold_left (fun c p => insert_into cat p c) l c = c).
  { clear -Hl. induction l as [|p l IHl]; [reflexivity|].
    cbn [fold_left]. rewrite insert_into_present by (apply Hl; now left).
    apply IHl. intros q Hq. apply Hl. now right. }
  rewrite Hfold. apply IH. intros cat' l' Hin. apply H. now right.
Qed.

Lemma find_insert_into_present {V : Type} (k k' : string) (p : string * V)
    (m : map (map V)) :
  find k m <> None -> find k (insert_into k' p m) <> None.
Proof.
  intros H. destruct (string_dec k k') as [->|Hne].
  - rewrite find_insert_into_same. discriminate.
  - now rewrite find_insert_into_other.
Qed.

Lemma find_fold_insert_into_present (k k' : string) (l : map PluginEntry) (c : Catalog) :
  find k c <> None ->
  find k (fold_left (fun c p => insert_into k' p c) l c) <> None.
Proof.
  revert c. induction l as [|p l IH]; intros c H; [exact H|].
  cbn [fold_left]. apply IH. now apply find_insert_into_present.
Qed.

Lemma find_merged_kept (cat : string) (inc c : Catalog) :
  find cat c <> None -> find cat (merged inc c) <> None.
Proof.
  revert c. induction inc as [|[cat' l] inc IH]; intros c H; [exact H|].
  cbn [merged]. apply IH. destruct (is_some (find cat' c)).
  - now apply find_fold_insert_into_present.
  - destruct (string_dec cat cat') as [->|Hne].
    + rewrite find_assign_same. discriminate.
    + now rewrite find_assign_other.
Qed.

Lemma find_merged_new (cat : string) (l : map PluginEntry) (inc c : Catalog) :
  In (cat, l) inc -> find cat (merged inc c) <> None.
Proof.
  revert c. induction inc as [|[cat' l'] inc IH]; intros c Hin; [contradiction|].
  cbn [merged]. destruct Hin as [[= -> ->]|Hin]; [|now apply IH].
  apply find_merged_kept. destruct (find cat c) as [inner|] eqn:E; cbn [is_some].
  - apply find_fold_insert_into_present. congruence.
  - rewrite find_assign_same. discriminate.
Qed.

Lemma In_lookup (cat k : string) (l : map PluginEntry) (e : PluginEntry) (c : Catalog) :
  Catalog_ok c -> In (cat, l) c -> In (k, e) l -> lookup cat k c = Some e.
Proof.
  intros [Hs Hm] Hl He. unfold lookup. rewrite (In_find cat l c Hs Hl).
  apply In_find; [|exact He]. rewrite Forall_forall in Hm. exact (Hm _ Hl).
Qed.

(** Merging a catalog a second time changes nothing. *)
Lemma merged_idempotent (inc c : Catalog) :
  Catalog_ok inc -> merged inc (merged inc c) = merged inc c.
Proof.
  intros Hok. apply merged_present. intros cat l Hl. split.
  - exact (find_merged_new cat l inc c Hl).
  - intros [k e] He. cbn [fst]. rewrite lookup_merged by exact Hok.
    destruct (lookup cat k c); [discriminate|].
    rewrite (In_lookup cat k l e inc Hok Hl He). discriminate.
Qed.

Lemma fold_insert_into_grow (cat : string) (l pre : map PluginEntry) (c : Catalog) :
  StronglySorted less (keys (pre ++ l)) ->
  fold_left (fun c p => insert_into cat p c) l (assign cat pre c)
  = assign cat (pre ++ l) c.
Proof.
  revert pre. induction l as [|[k e] l IH]; intros pre Hs.
  - now rewrite app_nil_r.
  - cbn [fold_left]. rewrite insert_into_assign, get_assign_same, assign_assign.
    assert (Hpre : Forall (fun k' => less k' k) (keys pre)).
    { clear IH. induction pre as [|[k' e'] pre IHp]; [constructor|].
      cbn [app] in Hs. change (keys ((k', e') :: pre ++ (k, e) :: l))
        with (k' :: keys (pre ++ (k, e) :: l)) in Hs.
      apply StronglySorted_inv in Hs as [Hs Hk]. constructor; [|now apply IHp].
      rewrite Forall_forall in Hk. apply Hk. unfold keys. rewrite map_app.
      apply in_or_app. right. now left. }
    rewrite insert_last by exact Hpre.
    rewrite IH by (rewrite <- app_assoc; exact Hs).
    now rewrite <- app_assoc.
Qed.

(** Assigning the plugins of a new category is inserting them one by one. *)
Lemma fold_insert_into_absent (cat : string) (l : map PluginEntry) (c : Catalog) :
  find cat c = None -> map_ok l -> l <> [] ->
  fold_left (fun c p => insert_into cat p c) l c = assign cat l c.
Proof.
  intros Hc Hl Hne. destruct l as [|p l]; [congruence|].
  cbn [fold_left]. rewrite insert_into_assign. unfold get. rewrite Hc.
  change (insert p []) with [p].
  now rewrite (fold_insert_into_grow cat l [p] c).
Qed.

Lemma merged_pairs (inc c : Catalog) :
  Catalog_ok inc -> no_empty_category inc ->
  merged inc c = fold_left insert_pair (pairs inc) c.
Proof.
  intros [_ Hm] Hn. revert c. induction inc as [|[cat l] inc IH]; intros c; [reflexivity|].
  apply Forall_cons_iff in Hm as [Hl Hm]. apply Forall_cons_iff in Hn as [Hne Hn].
  cbn [snd] in Hl, Hne.
  cbn [merged]. rewrite (IH Hm Hn). unfold pairs. rewrite flat_map_head.
  rewrite fold_left_app. f_equal. cbn [fst snd].
  assert (Hfold : forall c, fold_left insert_pair (List.map (pair cat) l) c
                  = fold_left (fun c p => insert_into cat p c) l c).
  { clear. induction l as [|p l IHl]; intros c; [reflexivity|]. apply IHl. }
  rewrite Hfold. destruct (find cat c) eqn:E; cbn [is_some]; [reflexivity|].
  symmetry. now apply fold_insert_into_absent.
Qed.

Lemma In_pairs (cat : string) (p : string * PluginEntry) (c : Catalog) :
  In (cat, p) (pairs c) -> exists l, In (cat, l) c /\ In p l.
Proof.
  unfold pairs. rewrite in_flat_map. intros [[cat' l] [Hl Hp]].
  cbn [fst snd] in Hp. apply in_map_iff in Hp as [q [[= <- <-] Hq]].
  now exists l.
Qed.

Lemma fold_left_push {A B : Type} (f : A -> B -> A) (x : B) (l : list B) :
  (forall y a, In y l -> f (f a x) y = f (f a y) x) ->
  forall a, fold_left f l (f a x) = f (fold_left f l a) x.
Proof.
  induction l as [|y l IH]; intros H a; [reflexivity|].
  cbn [fold_left]. rewrite H by now left. apply IH.
  intros y' a' Hy'. apply H. now right.
Qed.

Lemma fold_left_swap {A B : Type} (f : A -> B -> A) (l1 l2 : list B) :
  (forall x y a, In x l1 -> In y l2 -> f (f a x) y = f (f a y) x) ->
  forall a, fold_left f l2 (fold_left f l1 a) = fold_left f l1 (fold_left f l2 a).
Proof.
  induction l1 as [|x l1 IH]; intros H a; [reflexivity|].
  cbn [fold_left]. rewrite IH by (intros x' y a' Hx' Hy; apply H; [now right|exact Hy]).
  f_equal. apply fold_left_push. intros y a' Hy. apply H; [now left|exact Hy].
Qed.

(** Catalogs that share no pair are merged to the same in either order. *)
Lemma merged_comm (a b c : Catalog) :
  Catalog_ok a -> no_empty_category a -> Catalog_ok b -> no_empty_category b ->
  (forall cat k, lookup cat k a = None \/ lookup cat k b = None) ->
  merged b (merged a c) = merged a (merged b c).
Proof.
  intros Ha Hna Hb Hnb Hdis. rewrite !merged_pairs by assumption.
  apply fold_left_swap. intros [cat1 [k1 e1]] [cat2 [k2 e2]] c' H1 H2.
  unfold insert_pair. cbn [fst snd]. symmetry. apply insert_into_comm. cbn [fst].
  destruct (string_dec cat1 cat2) as [->|Hne]; [|now left]. right. intros ->.
  apply In_pairs in H1 as [l1 [Hl1 He1]]. apply In_pairs in H2 as [l2 [Hl2 He2]].
  pose proof (In_lookup _ _ _ _ _ Ha Hl1 He1) as E1.
  pose proof (In_lookup _ _ _ _ _ Hb Hl2 He2) as E2.
  destruct (Hdis cat2 k2); congruence.
Qed.

Lemma assign_append {V : Type} (k : string) (v : V) (m : map V) :
  Forall (fun k' => less k' k) (keys m) -> assign k v m = m ++ [(k, v)].
Proof.
  induction m as [|[k' v'] m IH]; cbn [assign app]; intros H; [reflexivity|].
  apply Forall_cons_iff in H as [H1 H]. rewrite (compare_gt k k') by exact H1.
  f_equal. now apply IH.
Qed.

(** Categories that come after all those of the accumulator are appended. *)
Lemma merged_append (inc acc : Catalog) :
  map_ok inc ->
  Forall (fun k' => Forall (less k') (keys inc)) (keys acc) ->
  merged inc acc = acc ++ inc.
Proof.
  unfold map_ok. revert acc. induction inc as [|[cat l] inc IH]; intros acc Hs Hacc.
  - now rewrite app_nil_r.
  - change (keys ((cat, l) :: inc)) with (cat :: keys inc) in *.
    apply StronglySorted_inv in Hs as [Hs Hk].
    assert (Hlt : Forall (fun k' => less k' cat) (keys acc)).
    { apply (Forall_impl _ (fun k' (H : Forall (less k') (cat :: keys inc)) =>
                              Forall_inv H)). exact Hacc. }
    cbn [merged]. rewrite find_above by exact Hlt. cbn [is_some].
    rewrite assign_append by exact Hlt.
    rewrite IH; [now rewrite <- app_assoc|exact Hs|].
    unfold keys. rewrite map_app. apply Forall_app. split.
    + apply (Forall_impl _ (fun k' (H : Forall (less k') (cat :: keys inc)) =>
                              Forall_inv_tail H)). exact Hacc.
    + constructor; [exact Hk|constructor].
Qed.

Lemma merge_categories_first (nd : bool) (inc : Catalog) :
  Catalog_ok inc -> merge_categories nd inc [] = Returned inc.
Proof.
  intros Hok. assert (Hm : merged inc [] = inc).
  { rewrite merged_append; [reflexivity|exact (proj1 Hok)|constructor]. }
  destruct nd.
  - rewrite merge_categories_strict by exact Hok.
    rewrite first_duplicate_none; [now rewrite Hm|exact Hok|]. intros cat k. now left.
  - now rewrite merge_categories_lenient, Hm.
Qed.

Section Merges.
Variable indeterminate : call -> string -> nat -> byte.
Variable DecompressEntryContents : list byte -> list byte.

Lemma Merge_stored (this : Log4J2PluginDatCombiner) (bytes : list byte) :
  Merge indeterminate DecompressEntryContents this (stored bytes)
  = match merge_categories (no_duplicates_ this)
            (loadLog4j2PluginCacheFile indeterminate bytes) (categories_ this) with
    | Returned c => Returned {| categories_ := c; inflater_ := inflater_ this;
                                no_duplicates_ := no_duplicates_ this |}
    | Errx exit_value message => Errx exit_value message
    end.
Proof. reflexivity. Qed.

Lemma Merge_contents (this : Log4J2PluginDatCombiner) (lh : LH) :
  Merge indeterminate DecompressEntryContents this lh
  = if supported lh
    then match merge_categories (no_duplicates_ this)
                 (loadLog4j2PluginCacheFile indeterminate
                    (contents DecompressEntryContents lh))
                 (categories_ this) with
         | Returned c => Returned {| categories_ := c;
                                     inflater_ := inflater_ this || deflated lh;
                                     no_duplicates_ := no_duplicates_ this |}
         | Errx exit_value message => Errx exit_value message
         end
    else Errx 2 neither_stored_nor_deflated.
Proof.
  unfold Merge, supported, contents, deflated.
  destruct (Z.eqb_spec (compression_method lh) Z_NO_COMPRESSION) as [E0|E0].
  - rewrite E0. change (Z_NO_COMPRESSION =? Z_DEFLATED) with false.
    cbn [orb]. now rewrite orb_false_r.
  - cbn [orb]. destruct (compression_method lh =? Z_DEFLATED); [|reflexivity].
    now rewrite orb_true_r.
Qed.

(** X12: the first [Merge] of a new combiner returns for every stored
    entry, with or without [no_duplicates_], and the combiner then holds
    the catalog this call has loaded from the bytes of the entry, as it
    is: the check for duplicates is made against the accumulator only,
    never within the cache being merged. *)
Theorem first_Merge_adopts (no_duplicates : bool) (bytes : list byte) :
  Merge indeterminate DecompressEntryContents (new_combiner no_duplicates) (stored bytes)
  = Returned {| categories_ := loadLog4j2PluginCacheFile indeterminate bytes;
                inflater_ := false;
                no_duplicates_ := no_duplicates |}.
Proof.
  rewrite Merge_stored. cbn [new_combiner no_duplicates_ categories_ inflater_].
  rewrite merge_categories_first; [reflexivity|].
  exact (proj1 (invariant_load indeterminate bytes)).
Qed.

End Merges.

(** X13: with [no_duplicates_] unset, merging an entry a second time
    changes nothing, when no read of its bytes falls short: [Merge] on the
    combiner a first [Merge] of the entry has left returns that same
    combiner, whatever the uninitialised locals hold at either call. *)
Theorem Merge_again (indeterminate indeterminate' : call -> string -> nat -> byte)
    (DecompressEntryContents : list byte -> list byte)
    (this this' : Log4J2PluginDatCombiner) (lh : LH) :
  no_duplicates_ this = false ->
  failbit (fst (load_stream indeterminate (contents DecompressEntryContents lh))) = false ->
  Merge indeterminate DecompressEntryContents this lh = Returned this' ->
  Merge indeterminate' DecompressEntryContents this' lh = Returned this'.
Proof.
  intros Hnd Hgood. rewrite !Merge_contents.
  destruct (supported lh); [|discriminate].
  rewrite (load_agree indeterminate indeterminate' _ Hgood).
  rewrite Hnd, merge_categories_lenient. intros [= <-].
  cbn [categories_ inflater_ no_duplicates_].
  rewrite merge_categories_lenient.
  rewrite merged_idempotent by exact (proj1 (invariant_load indeterminate _)).
  rewrite <- orb_assoc, orb_diag. reflexivity.
Qed.

(** X14: with [no_duplicates_] unset, two stored entries whose caches are
    read without a read falling short and share no category and key can be
    merged in either order: both orders return, and they leave the same
    combiner, whatever the uninitialised locals hold in either run. *)
Theorem Merge_either_order (indeterminate indeterminate' : nat -> call -> string -> nat -> byte)
    (DecompressEntryContents : list byte -> list byte)
    (this : Log4J2PluginDatCombiner) (bytes1 bytes2 : list byte) :
  no_duplicates_ this = false ->
  failbit (fst (load_stream (indeterminate 0%nat) bytes1)) = false ->
  failbit (fst (load_stream (indeterminate 1%nat) bytes2)) = false ->
  (forall cat k,
     lookup cat k (loadLog4j2PluginCacheFile (indeterminate 0%nat) bytes1) = None
     \/ lookup cat k (loadLog4j2PluginCacheFile (indeterminate 1%nat) bytes2) = None) ->
  exists this',
    merge_all indeterminate DecompressEntryContents this [stored bytes1; stored bytes2]
      = Returned this'
    /\ merge_all indeterminate' DecompressEntryContents this [stored bytes2; stored bytes1]
      = Returned this'.
Proof.
  intros Hnd Hgood1 Hgood2 Hdis.
  destruct (invariant_load (indeterminate 0%nat) bytes1) as [H1 [_ [_ Hn1]]].
  destruct (invariant_load (indeterminate 1%nat) bytes2) as [H2 [_ [_ Hn2]]].
  exists {| categories_ :=
              merged (loadLog4j2PluginCacheFile (indeterminate 1%nat) bytes2)
                (merged (loadLog4j2PluginCacheFile (indeterminate 0%nat) bytes1)
                   (categories_ this));
            inflater_ := inflater_ this; no_duplicates_ := false |}.
  cbn [merge_all]. rewrite !Merge_stored, Hnd, !merge_categories_lenient.
  rewrite !Merge_stored. cbn [categories_ inflater_ no_duplicates_].
  rewrite !merge_categories_lenient. split; [reflexivity|].
  rewrite (load_agree (indeterminate 1%nat) (indeterminate' 0%nat) _ Hgood2).
  rewrite (load_agree (indeterminate 0%nat) (indeterminate' 1%nat) _ Hgood1).
  now rewrite (merged_comm (loadLog4j2PluginCacheFile (indeterminate 0%nat) bytes1)
                 (loadLog4j2PluginCacheFile (indeterminate 1%nat) bytes2)).
Qed.

(** ** The properties on the examples *)

(** Two records announced on a stream that has failed. *)
Lemma load_after_failure_witness :
  failbit failed_stream = true
  /\ fst (for_ 2 (load_category all_ones) (failed_stream, core_catalog)) = failed_stream.
Proof.
  split; [reflexivity|].
  exact (load_after_failure all_ones 2 failed_stream core_catalog eq_refl).
Defined.

(** The cache of [core_catalog] followed by two more bytes. *)
Lemma load_ignores_trailing_bytes_witness :
  (strings_fit core_catalog /\ counts_fit core_catalog)
  /\ load_stream all_zeros (writeLog4j2PluginCacheFile core_catalog ++ [x01; x02])
     = ({| rdbuf := [x01; x02]; failbit := false |},
        loadLog4j2PluginCacheFile all_ones (writeLog4j2PluginCacheFile core_catalog)).
Proof.
  assert (H : strings_fit core_catalog /\ counts_fit core_catalog) by concrete.
  split; [exact H|]. destruct H as [Hs Hc].
  exact (load_ignores_trailing_bytes all_zeros core_catalog [x01; x02] all_ones Hs Hc).
Defined.

(** What is written after the two merges of the example. *)
Lemma OutputEntry_loads_back_witness :
  (merge_all always_zeros no_inflater (new_combiner false)
     [stored (writeLog4j2PluginCacheFile core_catalog);
      stored (writeLog4j2PluginCacheFile console_catalog)]
   = Returned
       {| categories_ := [("Core", [("Append", appender); ("Console", console)])];
          inflater_ := false; no_duplicates_ := false |}
   /\ counts_fit [("Core", [("Append", appender); ("Console", console)])])
  /\ loadLog4j2PluginCacheFile all_ones
       (OutputEntry
          {| categories_ := [("Core", [("Append", appender); ("Console", console)])];
             inflater_ := false; no_duplicates_ := false |} [])
     = [("Core", [("Append", appender); ("Console", console)])].
Proof.
  assert (H : merge_all always_zeros no_inflater (new_combiner false)
                [stored (writeLog4j2PluginCacheFile core_catalog);
                 stored (writeLog4j2PluginCacheFile console_catalog)]
              = Returned
                  {| categories_ :=
                       [("Core", [("Append", appender); ("Console", console)])];
                     inflater_ := false; no_duplicates_ := false |})
    by (vm_compute; reflexivity).
  assert (Hc : counts_fit [("Core", [("Append", appender); ("Console", console)])])
    by concrete.
  split; [split; [exact H|exact Hc]|].
  exact (OutputEntry_loads_back always_zeros no_inflater false _ _ all_ones H Hc).
Defined.


(** A stored entry and then a deflated one. *)
Lemma merge_all_fields_witness :
  merge_all always_zeros no_inflater (new_combiner false)
    [stored core_bytes; {| compression_method := Z_DEFLATED; data := core_bytes |}]
  = Returned {| categories_ := core_catalog; inflater_ := true; no_duplicates_ := false |}
  /\ no_duplicates_
       {| categories_ := core_catalog; inflater_ := true; no_duplicates_ := false |}
     = no_duplicates_ (new_combiner false)
  /\ inflater_
       {| categories_ := core_catalog; inflater_ := true; no_duplicates_ := false |}
     = inflater_ (new_combiner false)
       || existsb deflated
            [stored core_bytes; {| compression_method := Z_DEFLATED; data := core_bytes |}].
Proof.
  assert (H : merge_all always_zeros no_inflater (new_combiner false)
                [stored core_bytes;
                 {| compression_method := Z_DEFLATED; data := core_bytes |}]
              = Returned {| categories_ := core_catalog; inflater_ := true;
                            no_duplicates_ := false |})
    by (vm_compute; reflexivity).
  split; [exact H|].
  exact (merge_all_fields always_zeros no_inflater _ _ _ H).
Defined.

(** The two catalogs of the example, which share a pair. *)
Lemma lenient_merge_lookup_witness :
  Catalog_ok other_catalog
  /\ exists c', merge_categories false other_catalog core_catalog = Returned c'
       /\ forall cat k,
            lookup cat k c'
            = match lookup cat k core_catalog with
              | Some e => Some e
              | None => lookup cat k other_catalog
              end.
Proof.
  assert (H : Catalog_ok other_catalog) by concrete.
  split; [exact H|]. exact (lenient_merge_lookup other_catalog core_catalog H).
Defined.

(** Two catalogs that share no pair. *)
Lemma strict_merge_agrees_witness :
  Catalog_ok console_catalog
  /\ ((forall cat k, lookup cat k core_catalog = None \/ lookup cat k console_catalog = None)
      <-> merge_categories true console_catalog core_catalog
          = merge_categories false console_catalog core_catalog).
Proof.
  assert (H : Catalog_ok console_catalog) by concrete.
  split; [exact H|]. exact (strict_merge_agrees console_catalog core_catalog H).
Defined.

(** The entry of the example merged twice, the locals holding zeros at the
    first call and ones at the second. *)
Lemma Merge_again_witness :
  (no_duplicates_ (new_combiner false) = false
   /\ failbit (fst (load_stream all_zeros (contents no_inflater (stored core_bytes))))
      = false
   /\ Merge all_zeros no_inflater (new_combiner false) (stored core_bytes)
      = Returned {| categories_ := core_catalog; inflater_ := false;
                    no_duplicates_ := false |})
  /\ Merge all_ones no_inflater
       {| categories_ := core_catalog; inflater_ := false; no_duplicates_ := false |}
       (stored core_bytes)
     = Returned {| categories_ := core_catalog; inflater_ := false;
                   no_duplicates_ := false |}.
Proof.
  assert (H : Merge all_zeros no_inflater (new_combiner false) (stored core_bytes)
              = Returned {| categories_ := core_catalog; inflater_ := false;
                            no_duplicates_ := false |})
    by (vm_compute; reflexivity).
  split; [split; [reflexivity|split; [reflexivity|exact H]]|].
  exact (Merge_again all_zeros all_ones no_inflater (new_combiner false) _
           (stored core_bytes) eq_refl eq_refl H).
Defined.

Lemma core_console_disjoint (cat k : string) :
  lookup cat k core_catalog = None \/ lookup cat k console_catalog = None.
Proof.
  destruct (string_dec k "Append") as [->|Hne].
  - right. unfold lookup, console_catalog. cbn [find].
    destruct (String.compare cat "Core"); reflexivity.
  - left. unfold lookup, core_catalog. cbn [find].
    destruct (String.compare cat "Core"); [|reflexivity..]. cbn [find].
    destruct (compare_spec k "Append") as [E|_|_]; [contradiction|reflexivity..].
Qed.

(** The caches of [core_catalog] and of [console_catalog], in both orders,
    the locals holding zeros in one run and ones in the other. *)
Lemma Merge_either_order_witness :
  (no_duplicates_ (new_combiner false) = false
   /\ failbit (fst (load_stream (always_zeros 0%nat)
                      (writeLog4j2PluginCacheFile core_catalog))) = false
   /\ failbit (fst (load_stream (always_zeros 1%nat)
                      (writeLog4j2PluginCacheFile console_catalog))) = false
   /\ forall cat k,
        lookup cat k
          (loadLog4j2PluginCacheFile (always_zeros 0%nat)
             (writeLog4j2PluginCacheFile core_catalog))
        = None
        \/ lookup cat k
             (loadLog4j2PluginCacheFile (always_zeros 1%nat)
                (writeLog4j2PluginCacheFile console_catalog))
           = None)
  /\ exists this',
       merge_all always_zeros no_inflater (new_combiner false)
         [stored (writeLog4j2PluginCacheFile core_catalog);
          stored (writeLog4j2PluginCacheFile console_catalog)] = Returned this'
       /\ merge_all always_ones no_inflater (new_combiner false)
            [stored (writeLog4j2PluginCacheFile console_catalog);
             stored (writeLog4j2PluginCacheFile core_catalog)] = Returned this'.
Proof.
  assert (H : forall cat k,
            lookup cat k
              (loadLog4j2PluginCacheFile (always_zeros 0%nat)
                 (writeLog4j2PluginCacheFile core_catalog))
            = None
            \/ lookup cat k
                 (loadLog4j2PluginCacheFile (always_zeros 1%nat)
                    (writeLog4j2PluginCacheFile console_catalog))
               = None).
  { assert (E1 : loadLog4j2PluginCacheFile (always_zeros 0%nat)
                   (writeLog4j2PluginCacheFile core_catalog)
                 = core_catalog) by (vm_compute; reflexivity).
    assert (E2 : loadLog4j2PluginCacheFile (always_zeros 1%nat)
                   (writeLog4j2PluginCacheFile console_catalog)
                 = console_catalog) by (vm_compute; reflexivity).
    rewrite E1, E2. exact core_console_disjoint. }
  split; [split; [reflexivity|split; [reflexivity|split; [reflexivity|exact H]]]|].
  exact (Merge_either_order always_zeros always_ones no_inflater (new_combiner false)
           (writeLog4j2PluginCacheFile core_catalog)
           (writeLog4j2PluginCacheFile console_catalog) eq_refl eq_refl eq_refl H).
Defined.

(** * Further properties of the path utilities *)

(** ** [Strip] *)

Lemma nth_repeat_app {A : Type} (c d : A) (n i : nat) (rest : list A) :
  (i < n)%nat -> nth i (repeat c n ++ rest) d = c.
Proof.
  intros H. rewrite app_nth1 by (rewrite repeat_length; exact H).
  apply nth_repeat_lt. exact H.
Qed.

Lemma nth_after_repeat {A : Type} (c d : A) (n : nat) (x : A) (rest : list A) :
  nth n (repeat c n ++ x :: rest) d = x.
Proof.
  rewrite app_nth2 by (rewrite repeat_length; lia).
  rewrite repeat_length, Nat.sub_diag. reflexivity.
Qed.

Lemma Strip_right_all (c : wchar_t) (n i : nat) :
  (i < n)%nat -> Strip_right (repeat c n) c i = None.
Proof.
  induction i as [|i IH]; intros H; cbn [Strip_right].
  - rewrite nth_repeat_lt by exact H. rewrite Z.eqb_refl. reflexivity.
  - rewrite nth_repeat_lt by exact H. rewrite Z.eqb_refl. cbn [negb].
    apply IH. lia.
Qed.

Lemma Strip_right_run (c y : wchar_t) (pre : wstring) (k j : nat) :
  y <> c -> (j < k)%nat ->
  Strip_right (pre ++ y :: repeat c k) c (List.length pre + j) = Some (pre ++ [y]).
Proof.
  intros Hy. induction j as [|j IH]; intros Hj.
  - rewrite Nat.add_0_r. destruct (List.length pre) as [|n] eqn:E.
    + apply length_zero_iff_nil in E. subst pre. cbn [Strip_right app nth].
      apply Z.eqb_neq in Hy. rewrite Hy. cbn [negb].
      destruct k as [|k]; [lia|]. cbn [Nat.add repeat nth firstn].
      now rewrite Z.eqb_refl.
    + cbn [Strip_right]. rewrite <- E.
      rewrite (app_nth2 pre) by lia. rewrite Nat.sub_diag. cbn [nth].
      apply Z.eqb_neq in Hy. rewrite Hy. cbn [negb].
      rewrite (app_nth2 pre) by lia.
      replace (List.length pre + 1 - List.length pre)%nat with 1%nat by lia.
      destruct k as [|k]; [lia|]. cbn [repeat nth]. rewrite Z.eqb_refl.
      rewrite firstn_app, firstn_all2 by lia.
      replace (List.length pre + 1 - List.length pre)%nat with 1%nat by lia.
      reflexivity.
  - assert (Hc : nth (List.length pre + S j) (pre ++ y :: repeat c k) 0 = c).
    { rewrite app_nth2 by lia.
      replace (List.length pre + S j - List.length pre)%nat with (S j) by lia.
      cbn [nth]. apply nth_repeat_lt. lia. }
    rewrite Nat.add_succ_r. cbn [Strip_right]. rewrite <- Nat.add_succ_r, Hc.
    rewrite Z.eqb_refl. cbn [negb]. apply IH. lia.
Qed.

Lemma Strip_left_run (c x : wchar_t) (rest : wstring) (n k j : nat) :
  x <> c -> (1 <= j)%nat -> (j + k = n)%nat ->
  forall len, (k < len)%nat ->
  Strip_left (repeat c n ++ x :: rest) c (seq j len) = x :: rest.
Proof.
  intros Hx. revert j. induction k as [|k IH]; intros j Hj Hn len Hlen.
  - destruct len as [|len]; [lia|]. cbn [seq Strip_left].
    replace j with n by lia.
    rewrite nth_after_repeat. apply Z.eqb_neq in Hx. rewrite Hx. cbn [negb].
    rewrite orb_true_r.
    rewrite nth_repeat_app by lia. rewrite Z.eqb_refl.
    replace (0 <? n)%nat with true by (symmetry; apply Nat.ltb_lt; lia).
    cbn [andb]. rewrite skipn_app, repeat_length, Nat.sub_diag.
    rewrite skipn_all2 by (rewrite repeat_length; lia). reflexivity.
  - destruct len as [|len]; [lia|]. cbn [seq Strip_left].
    rewrite nth_repeat_app by lia. rewrite Z.eqb_refl. cbn [negb].
    rewrite orb_false_r.
    replace (j =? List.length (repeat c n ++ x :: rest))%nat with false
      by (symmetry; apply Nat.eqb_neq; rewrite length_app, repeat_length; cbn; lia).
    apply IH; lia.
Qed.

Lemma hd_error_rev_last (r : wstring) (c : wchar_t) :
  r <> [] -> hd_error (rev r) <> Some c ->
  exists r0 y, r = r0 ++ [y] /\ y <> c.
Proof.
  intros Hne H. destruct (exists_last Hne) as [r0 [y ->]].
  exists r0, y. split; [reflexivity|].
  rewrite rev_app_distr in H. cbn in H. congruence.
Qed.

Lemma last_char (pre : wstring) (y : wchar_t) :
  nth (List.length (pre ++ [y]) - 1) (pre ++ [y]) 0 = y.
Proof.
  rewrite length_app. cbn [List.length]. rewrite app_nth2 by lia.
  replace (List.length pre + 1 - 1 - List.length pre)%nat with 0%nat by lia.
  reflexivity.
Qed.

Lemma Strip_from_left_run (c : wchar_t) (n : nat) (r : wstring) :
  r <> [] -> hd_error r <> Some c ->
  Strip_from_left (repeat c n ++ r) c = r.
Proof.
  intros Hne Hhd. destruct r as [|x r]; [congruence|].
  assert (Hx : x <> c) by (cbn in Hhd; congruence).
  unfold Strip_from_left. destruct n as [|n].
  - cbn [repeat app nth List.length Nat.eqb negb andb].
    apply Z.eqb_neq in Hx. now rewrite Hx.
  - rewrite nth_repeat_app by lia. rewrite Z.eqb_refl.
    replace (List.length (repeat c (S n) ++ x :: r) =? 0)%nat with false
      by (symmetry; apply Nat.eqb_neq; rewrite length_app, repeat_length; lia).
    cbn [negb andb].
    apply (Strip_left_run c x r (S n) n 1 Hx); [lia|lia|].
    rewrite length_app, repeat_length. cbn [List.length]. lia.
Qed.

Lemma Strip_some (s s1 : wstring) (c : wchar_t) :
  (if (1 <? List.length s)%nat && (nth (List.length s - 1) s 0 =? c)
   then Strip_right s c (List.length s - 2)
   else Some s) = Some s1 ->
  Strip s c = Some (Strip_from_left s1 c).
Proof. intros H. unfold Strip. rewrite H. reflexivity. Qed.

Lemma Strip_run (c : wchar_t) (n m : nat) (r : wstring) :
  r <> [] -> hd_error r <> Some c -> hd_error (rev r) <> Some c ->
  Strip (repeat c n ++ r ++ repeat c m) c = Some r.
Proof.
  intros Hne Hhd Hlast.
  destruct (hd_error_rev_last r c Hne Hlast) as [r0 [y [Hr Hy]]].
  rewrite (Strip_some _ (repeat c n ++ r)).
  - now rewrite Strip_from_left_run.
  - destruct m as [|m].
    + cbn [repeat]. rewrite app_nil_r. subst r. rewrite app_assoc, last_char.
      apply Z.eqb_neq in Hy. rewrite Hy. now rewrite andb_false_r.
    + assert (Hlen : List.length (repeat c n ++ r ++ repeat c (S m))
                     = (List.length (repeat c n ++ r0) + 1 + S m)%nat).
      { subst r. rewrite !length_app, !repeat_length. cbn [List.length]. lia. }
      replace (1 <? List.length (repeat c n ++ r ++ repeat c (S m)))%nat with true
        by (symmetry; apply Nat.ltb_lt; lia).
      assert (Hs : repeat c n ++ r ++ repeat c (S m)
                   = (repeat c n ++ r0) ++ y :: repeat c (S m)).
      { subst r. now rewrite <- !app_assoc. }
      rewrite Hlen, Hs.
      rewrite (app_nth2 (repeat c n ++ r0)) by lia.
      replace (List.length (repeat c n ++ r0) + 1 + S m - 1
               - List.length (repeat c n ++ r0))%nat with (S m) by lia.
      cbn [nth]. rewrite (nth_repeat_lt c) by lia. rewrite Z.eqb_refl. cbn [andb].
      replace (List.length (repeat c n ++ r0) + 1 + S m - 2)%nat
        with (List.length (repeat c n ++ r0) + m)%nat by lia.
      rewrite Strip_right_run by (assumption || lia).
      subst r. now rewrite <- app_assoc.
Qed.


Lemma Strip_short (c : wchar_t) (n : nat) :
  (n <= 1)%nat -> Strip (repeat c n) c = Some [].
Proof.
  intros H. destruct n as [|[|n]]; [reflexivity| |lia].
  unfold Strip. cbn [repeat List.length Nat.ltb Nat.leb andb seq Strip_left negb
                     Nat.eqb nth Nat.sub].
  rewrite Z.eqb_refl. cbn [negb orb andb Nat.ltb Nat.leb skipn]. reflexivity.
Qed.

Lemma Strip_all (c : wchar_t) (n : nat) :
  (2 <= n)%nat -> Strip (repeat c n) c = None.
Proof.
  intros H. unfold Strip. rewrite repeat_length.
  replace (1 <? n)%nat with true by (symmetry; apply Nat.ltb_lt; lia).
  rewrite nth_repeat_lt by lia. rewrite Z.eqb_refl. cbn [andb].
  rewrite Strip_right_all by lia. reflexivity.
Qed.

(** X15: [Strip] removes every [c] that leads and every [c] that trails: a
    string made of [n] times [c], then a part [r] that neither begins nor
    ends with [c], then [m] times [c], is stripped to [r].  When [r] is
    empty this holds for the strings of at most one character. *)
Theorem Strip_strips (c : wchar_t) (n m : nat) (r : wstring) :
  hd_error r <> Some c -> hd_error (rev r) <> Some c ->
  (r = [] -> (n + m <= 1)%nat) ->
  Strip (repeat c n ++ r ++ repeat c m) c = Some r.
Proof.
  intros Hhd Hlast Hshort. destruct r as [|x r].
  - cbn [app]. rewrite <- repeat_app. apply Strip_short. now apply Hshort.
  - now apply Strip_run.
Qed.

Lemma leading (c : wchar_t) (s : wstring) :
  exists n r, s = repeat c n ++ r /\ hd_error r <> Some c.
Proof.
  induction s as [|x s [n [r [-> Hr]]]].
  - exists 0%nat, []. split; [reflexivity|discriminate].
  - destruct (Z.eq_dec x c) as [->|Hx].
    + exists (S n), r. split; [reflexivity|exact Hr].
    + exists 0%nat, (x :: repeat c n ++ r). split; [reflexivity|]. cbn. congruence.
Qed.

Lemma rev_repeat {A : Type} (c : A) (n : nat) : rev (repeat c n) = repeat c n.
Proof.
  induction n as [|n IH]; [reflexivity|].
  cbn [repeat rev]. rewrite IH. symmetry. apply repeat_cons.
Qed.

Lemma around (c : wchar_t) (s : wstring) :
  exists n m r, s = repeat c n ++ r ++ repeat c m
    /\ hd_error r <> Some c /\ hd_error (rev r) <> Some c
    /\ (r = [] -> m = 0%nat).
Proof.
  destruct (leading c s) as [n [r1 [-> H1]]].
  destruct (leading c (rev r1)) as [m [r2 [E H2]]].
  assert (Hr1 : r1 = rev r2 ++ repeat c m).
  { rewrite <- (rev_involutive r1), E, rev_app_distr, rev_repeat. reflexivity. }
  exists n, m, (rev r2). rewrite rev_involutive. repeat split.
  - now rewrite Hr1.
  - subst r1. destruct (rev r2) as [|x r]; [discriminate|exact H1].
  - exact H2.
  - intros Hnil. rewrite Hnil in Hr1. cbn [app] in Hr1. subst r1.
    destruct m as [|m]; [reflexivity|]. cbn in H1. congruence.
Qed.

(** X16: [Strip] reads outside the string exactly when the string has two
    characters or more and all of them are [c]: the loop that strips from the
    right then finds no character to stop at, and its unsigned index wraps
    around below zero. *)
Theorem Strip_out_of_bounds (s : wstring) (c : wchar_t) :
  Strip s c = None <-> (2 <= List.length s)%nat /\ Forall (eq c) s.
Proof.
  split.
  - intros H. destruct (around c s) as [n [m [r [-> [Hhd [Hlast Hm]]]]]].
    destruct r as [|x r].
    + rewrite (Hm eq_refl) in *. cbn [app repeat] in *. rewrite app_nil_r in *.
      destruct (Nat.le_gt_cases n 1) as [Hn|Hn].
      * rewrite Strip_short in H by exact Hn. discriminate.
      * rewrite repeat_length. split; [lia|]. apply Forall_forall.
        intros y Hy. symmetry. exact (repeat_spec _ _ _ Hy).
    + rewrite Strip_run in H by (assumption || discriminate). discriminate.
  - intros [Hlen Hall].
    assert (Hs : s = repeat c (List.length s)).
    { clear Hlen. induction Hall as [|x s <- _ IH]; [reflexivity|].
      cbn [List.length repeat]. now rewrite <- IH. }
    rewrite Hs. apply Strip_all. exact Hlen.
Qed.

(** X17: what [Strip] returns neither begins nor ends with [c], it is the
    string without some [c]s at its two ends, and stripping it again returns
    it unchanged. *)
Theorem Strip_twice (s r : wstring) (c : wchar_t) :
  Strip s c = Some r ->
  Strip r c = Some r
  /\ hd_error r <> Some c /\ hd_error (rev r) <> Some c
  /\ exists n m, s = repeat c n ++ r ++ repeat c m.
Proof.
  intros H. destruct (around c s) as [n [m [r' [-> [Hhd [Hlast Hm]]]]]].
  assert (Hr : r' = r).
  { destruct r' as [|x r'].
    - rewrite (Hm eq_refl) in *. cbn [app repeat] in *. rewrite app_nil_r in *.
      destruct (Nat.le_gt_cases n 1) as [Hn|Hn].
      + rewrite Strip_short in H by exact Hn. congruence.
      + rewrite Strip_all in H by lia. discriminate.
    - rewrite Strip_run in H by (assumption || discriminate). congruence. }
  subst r'. split; [|split; [exact Hhd|split; [exact Hlast|now exists n, m]]].
  destruct r as [|x r]; [reflexivity|].
  apply (Strip_run c 0 0 (x :: r)) in Hhd; [|discriminate|exact Hlast].
  cbn [repeat app] in Hhd. now rewrite app_nil_r in Hhd.
Qed.

(** X18: the constructor of [StdHandles] counts in [valid_handles_] the
    handles among the three that are not [INVALID_HANDLE_VALUE], and
    [valid_handle_array_] lists just those, in the order stdin, stdout,
    stderr, followed by [INVALID_HANDLE_VALUE] up to its three entries. *)
Theorem StdHandles_valid (stdin_h stdout_h stderr_h : HANDLE) :
  valid_handles_ (new_StdHandles stdin_h stdout_h stderr_h)
  = List.length (filter valid_handle [stdin_h; stdout_h; stderr_h])
  /\ valid_handle_array_ (new_StdHandles stdin_h stdout_h stderr_h)
     = filter valid_handle [stdin_h; stdout_h; stderr_h]
       ++ repeat INVALID_HANDLE_VALUE
            (3 - List.length (filter valid_handle [stdin_h; stdout_h; stderr_h])).
Proof.
  unfold new_StdHandles, add_valid_handle, valid_handle. cbn [filter].
  destruct (stdin_h =? INVALID_HANDLE_VALUE);
    destruct (stdout_h =? INVALID_HANDLE_VALUE);
    destruct (stderr_h =? INVALID_HANDLE_VALUE); split; reflexivity.
Qed.


(** ** [NormalizeImpl] and the segments of the path *)

Lemma skipn_cons_nth {A : Type} (d c : A) (i : nat) (p q : list A) :
  skipn i p = c :: q ->
  nth i p d = c /\ (i < List.length p)%nat /\ skipn (S i) p = q.
Proof.
  revert p. induction i as [|i IH]; intros p H.
  - destruct p as [|x p]; [discriminate|]. cbn in H. injection H as -> ->.
    cbn. repeat split. lia.
  - destruct p as [|x p]; [discriminate|]. cbn [skipn] in H.
    destruct (IH p H) as [H1 [H2 H3]]. cbn [nth List.length]. repeat split; [exact H1|lia|exact H3].
Qed.

Lemma length_substr (p : Str) (s n : nat) :
  (s + n <= List.length p)%nat -> List.length (substr p s n) = n.
Proof. intros H. unfold substr. rewrite firstn_length_le; [reflexivity|]. rewrite length_skipn. lia. Qed.

Lemma nth_substr (p : Str) (s n j : nat) :
  (j < n)%nat -> nth j (substr p s n) 0 = nth (s + j) p 0.
Proof.
  intros H. unfold substr. rewrite nth_firstn.
  replace (j <? n)%nat with true by (symmetry; apply Nat.ltb_lt; exact H).
  apply nth_skipn.
Qed.

Lemma substr_snoc (p q : Str) (c : Z) (s i : nat) :
  (s <= i)%nat -> skipn i p = c :: q ->
  substr p s (S i - s) = substr p s (i - s) ++ [c].
Proof.
  intros Hs H. unfold substr.
  assert (E : skipn s p = firstn (i - s) (skipn s p) ++ c :: q).
  { rewrite <- H. replace i with ((i - s) + s)%nat at 2 by lia.
    rewrite <- skipn_skipn. symmetry. apply firstn_skipn. }
  assert (Hlen : List.length (firstn (i - s) (skipn s p)) = (i - s)%nat).
  { apply firstn_length_le. rewrite length_skipn.
    destruct (skipn_cons_nth 0 c i p q H) as [_ [Hi _]]. lia. }
  rewrite E at 1. rewrite firstn_app, Hlen.
  replace (S i - s - (i - s))%nat with 1%nat by lia.
  rewrite firstn_all2 by lia. reflexivity.
Qed.

Lemma last_map {A B : Type} (f : A -> B) (l : list A) (d : A) (d' : B) :
  l <> [] -> last (List.map f l) d' = f (last l d).
Proof.
  induction l as [|x l IH]; [congruence|]. intros _.
  destruct l as [|y l]; [reflexivity|].
  change (last (List.map f (x :: y :: l)) d') with (last (List.map f (y :: l)) d').
  change (last (x :: y :: l) d) with (last (y :: l) d). apply IH. discriminate.
Qed.

Lemma map_removelast {A B : Type} (f : A -> B) (l : list A) :
  List.map f (removelast l) = removelast (List.map f l).
Proof.
  induction l as [|x l IH]; [reflexivity|].
  destruct l as [|y l]; [reflexivity|].
  change (removelast (x :: y :: l)) with (x :: removelast (y :: l)).
  change (List.map f (x :: y :: l)) with (f x :: f y :: List.map f l).
  change (removelast (f x :: f y :: List.map f l))
    with (f x :: removelast (List.map f (y :: l))).
  cbn [List.map]. f_equal. exact IH.
Qed.

Lemma is_drive_substr (p : Str) (s n : nat) :
  (s + n <= List.length p)%nat ->
  (n =? 2)%nat
  && (((chr "A" <=? nth s p 0) && (nth s p 0 <=? chr "Z"))
      || ((chr "a" <=? nth s p 0) && (nth s p 0 <=? chr "z")))
  && (nth (s + 1) p 0 =? chr ":")
  = is_drive (substr p s n).
Proof.
  intros H. unfold is_drive. rewrite length_substr by exact H.
  destruct (Nat.eqb_spec n 2) as [->|Hn]; [|reflexivity].
  rewrite !nth_substr by lia. now rewrite Nat.add_0_r.
Qed.

Lemma end_of_segment_keep (p : Str) (v : Normalizing) (s i : nat) :
  (s <= i)%nat -> (i <= List.length p)%nat ->
  kept_of p (end_of_segment p v s i) = keep (kept_of p v) (substr p s (i - s))
  /\ start (end_of_segment p v s i) = None.
Proof.
  intros Hs Hi. unfold end_of_segment, keep, compare_is_0, kept_of.
  cbn [at_first absolute dot_only kept].
  rewrite is_drive_substr by lia.
  destruct (first v).
  { cbn [segs first abs starts_with_dot start]. rewrite map_app. split; reflexivity. }
  destruct (Str_eqb (substr p s (i - s)) kDot).
  { rewrite length_map. destruct (List.length (segs v) =? 0)%nat;
      cbn [segs first abs starts_with_dot start]; [rewrite map_app|]; split; reflexivity. }
  destruct (starts_with_dot v).
  { cbn [List.length Nat.eqb orb List.map]. destruct (Str_eqb (substr p s (i - s)) kDotDot);
      split; reflexivity. }
  rewrite length_map.
  destruct (Str_eqb (substr p s (i - s)) kDotDot).
  - destruct (segs v) as [|x l] eqn:E; [split; reflexivity|].
    rewrite <- E.
    assert (Hne : segs v <> []) by (rewrite E; discriminate).
    rewrite (last_map (fun i => substr p (fst i) (snd i)) (segs v) (0%nat, 0%nat) [])
      by exact Hne.
    replace (List.length (segs v) =? 0)%nat with false by (rewrite E; reflexivity).
    cbn [orb].
    destruct (Str_eqb _ kDotDot).
    + cbn [segs first abs starts_with_dot start]. rewrite map_app. split; reflexivity.
    + destruct (negb (abs v) || (1 <? List.length (segs v))%nat);
        cbn [segs first abs starts_with_dot start]; [rewrite map_removelast|];
        split; reflexivity.
  - cbn [segs first abs starts_with_dot start]. rewrite map_app. split; reflexivity.
Qed.

Lemma begun_nonempty (p : Str) (v : Normalizing) (i s : nat) :
  start v = Some s -> (s < i)%nat -> (i <= List.length p)%nat ->
  exists c cur, begun p v i = c :: cur.
Proof.
  intros E Hs Hi. unfold begun. rewrite E.
  pose proof (length_substr p s (i - s)) as H.
  destruct (substr p s (i - s)) as [|c cur]; [cbn in H; lia|]. now exists c, cur.
Qed.

Lemma scan (p q : Str) :
  forall (i : nat) (v : Normalizing),
    skipn i p = q -> (i <= List.length p)%nat -> begun_before v i ->
    kept_of p (fold_left (Normalize_step p) (seq i (List.length q + 1)) v)
    = fold_left keep (segments_from (begun p v i) q) (kept_of p v).
Proof.
  induction q as [|c q IH]; intros i v Hq Hi Hb.
  - assert (Hlen : i = List.length p).
    { pose proof (f_equal (@List.length Z) Hq) as H. rewrite length_skipn in H.
      cbn in H. lia. }
    cbn [List.length Nat.add seq fold_left segments_from]. unfold Normalize_step.
    destruct (start v) as [s|] eqn:E.
    + unfold begun_before in Hb. rewrite E in Hb.
      destruct (begun_nonempty p v i s E Hb Hi) as [x [cur Hcur]]. rewrite Hcur, <- Hcur.
      replace (i =? List.length p)%nat with true by (symmetry; now apply Nat.eqb_eq).
      cbn [orb fold_left].
      destruct (end_of_segment_keep p v s i) as [H _]; [lia|lia|].
      rewrite H. unfold begun. now rewrite E.
    + replace (i <? List.length p)%nat with false by (symmetry; apply Nat.ltb_ge; lia).
      unfold begun. rewrite E. reflexivity.
  - destruct (skipn_cons_nth 0 c i p q Hq) as [Hc [Hlt Hq']].
    change (List.length (c :: q) + 1)%nat with (S (List.length q + 1)).
    cbn [seq fold_left segments_from]. unfold Normalize_step at 2. rewrite Hc.
    fold (is_separator c).
    destruct (start v) as [s|] eqn:E.
    + unfold begun_before in Hb. rewrite E in Hb.
      destruct (begun_nonempty p v i s E Hb Hi) as [x [cur Hcur]].
      replace (i =? List.length p)%nat with false by (symmetry; apply Nat.eqb_neq; lia).
      cbn [orb]. destruct (is_separator c) eqn:Esep.
      * destruct (end_of_segment_keep p v s i) as [H Hnone]; [lia|lia|].
        rewrite IH; [|exact Hq'|lia|unfold begun_before; now rewrite Hnone].
        rewrite H. unfold begun at 1. rewrite Hnone.
        rewrite Hcur. cbn [fold_left]. rewrite <- Hcur. unfold begun. now rewrite E.
      * rewrite IH; [|exact Hq'|lia|unfold begun_before; rewrite E; lia].
        unfold begun. rewrite E. now rewrite (substr_snoc p q c s i) by (lia || exact Hq).
    + replace (i <? List.length p)%nat with true by (symmetry; apply Nat.ltb_lt; lia).
      assert (Hbegun : begun p v i = []) by (unfold begun; now rewrite E).
      rewrite Hbegun. cbn [andb].
      assert (Hsep : negb (c =? chr "/") && negb (c =? chr "\") = negb (is_separator c)).
      { unfold is_separator. now rewrite negb_orb. }
      rewrite Hsep. destruct (is_separator c); cbn [negb].
      * rewrite IH; [|exact Hq'|lia|unfold begun_before; now rewrite E].
        unfold begun. now rewrite E.
      * rewrite IH; [|exact Hq'|lia|unfold begun_before; cbn [start]; lia].
        unfold begun. cbn [start].
        rewrite (substr_snoc p q c i i) by (lia || exact Hq).
        rewrite Nat.sub_diag. reflexivity.
Qed.


Lemma join_cons (s : Str) (l : list Str) : join (s :: l) = s ++ join_tail l.
Proof.
  revert s. induction l as [|s' l IH]; intros s.
  - cbn. now rewrite app_nil_r.
  - change (join (s :: s' :: l)) with (s ++ chr "\" :: join (s' :: l)).
    rewrite IH. reflexivity.
Qed.

Lemma write_segments (p : Str) (l : list (nat * nat)) (res : Str) :
  fold_left (write_segment p) l (res, false)
  = (res ++ join_tail (List.map (fun i => substr p (fst i) (snd i)) l), false).
Proof.
  revert res. induction l as [|i l IH]; intros res.
  - cbn. now rewrite app_nil_r.
  - cbn [fold_left List.map]. unfold write_segment at 2. cbn [fst snd].
    rewrite IH. unfold join_tail. cbn [flat_map]. now rewrite <- !app_assoc.
Qed.

Lemma write_segments_join (p : Str) (l : list (nat * nat)) :
  fst (fold_left (write_segment p) l ([], true))
  = join (List.map (fun i => substr p (fst i) (snd i)) l).
Proof.
  destruct l as [|i l]; [reflexivity|].
  cbn [fold_left List.map]. unfold write_segment at 2. cbn [fst snd app].
  rewrite write_segments, join_cons. reflexivity.
Qed.

(** [NormalizeImpl] computes on the segments of the path. *)
Lemma NormalizeImpl_normal (p : Str) : NormalizeImpl p = normal (segments (after_unc p)).
Proof.
  unfold NormalizeImpl, normal, written, after_unc. fold (has_unc p).
  set (from := if has_unc p then 4%nat else 0%nat).
  assert (Hfrom : (from <= List.length p)%nat).
  { unfold from, has_unc. destruct (Nat.leb_spec 4 (List.length p)); cbn [andb]; [|lia].
    destruct (_ && _); lia. }
  pose proof (scan p (skipn from p) from
                {| segs := []; start := None; first := true; abs := false;
                   starts_with_dot := false |} eq_refl Hfrom I) as H.
  rewrite length_skipn in H.
  replace (List.length p - from + 1)%nat with (List.length p + 1 - from)%nat in H by lia.
  change (kept_of p {| segs := []; start := None; first := true; abs := false;
                       starts_with_dot := false |}) with nothing_kept in H.
  change (begun p _ from) with (@nil Z) in H. fold (segments (skipn from p)) in H.
  rewrite <- H. cbn [kept_of absolute kept]. rewrite length_map, write_segments_join.
  reflexivity.
Qed.

(** ** The segments of a path *)

Lemma segments_from_ok (q cur : Str) :
  free_of_separators cur -> Forall segment (segments_from cur q).
Proof.
  revert cur. induction q as [|c q IH]; intros cur Hcur; cbn [segments_from].
  - destruct cur; constructor; [|constructor]. split; [discriminate|exact Hcur].
  - destruct (is_separator c) eqn:E.
    + destruct cur as [|x cur]; [apply IH; constructor|].
      constructor; [split; [discriminate|exact Hcur]|apply IH; constructor].
    + apply IH. apply Forall_app. split; [exact Hcur|]. now constructor.
Qed.

Lemma segments_ok (q : Str) : Forall segment (segments q).
Proof. apply segments_from_ok. constructor. Qed.

Lemma segments_from_app (s q cur : Str) :
  free_of_separators s -> segments_from cur (s ++ q) = segments_from (cur ++ s) q.
Proof.
  revert cur. induction s as [|c s IH]; intros cur Hs.
  - now rewrite app_nil_r.
  - apply Forall_cons_iff in Hs as [Hc Hs]. cbn [app segments_from]. rewrite Hc.
    rewrite IH by exact Hs. now rewrite <- app_assoc.
Qed.

Lemma segments_from_join_tail (l : list Str) (cur tail : Str) :
  Forall segment l -> cur <> [] -> tail = [] \/ tail = [chr "\"] ->
  segments_from cur (join_tail l ++ tail) = cur :: l.
Proof.
  intros Hl. revert cur. induction Hl as [|s l [Hne Hs] _ IH]; intros cur Hcur Htail.
  - destruct cur as [|x cur]; [congruence|].
    destruct Htail as [->| ->]; reflexivity.
  - unfold join_tail. cbn [flat_map]. fold (join_tail l).
    change ((chr "\" :: s) ++ join_tail l) with (chr "\" :: s ++ join_tail l).
    cbn [app segments_from].
    change (is_separator (chr "\")) with true. cbn iota.
    destruct cur as [|x cur]; [congruence|]. f_equal.
    rewrite <- app_assoc, segments_from_app by exact Hs. cbn [app].
    now apply IH.
Qed.

Lemma segments_join (l : list Str) (tail : Str) :
  Forall segment l -> tail = [] \/ (l <> [] /\ tail = [chr "\"]) ->
  segments (join l ++ tail) = l.
Proof.
  intros Hl Htail. destruct l as [|s l].
  - destruct Htail as [->|[H _]]; [reflexivity|congruence].
  - rewrite join_cons. apply Forall_cons_iff in Hl as [[Hne Hs] Hl].
    unfold segments. rewrite <- app_assoc, segments_from_app by exact Hs.
    apply segments_from_join_tail; [exact Hl|exact Hne|].
    destruct Htail as [->|[_ ->]]; [now left|now right].
Qed.

Lemma In_join (c : Z) (l : list Str) :
  In c (join l) -> c = chr "\" \/ exists s, In s l /\ In c s.
Proof.
  destruct l as [|s l]; [contradiction|]. rewrite join_cons. intros H.
  apply in_app_or in H as [H|H]; [right; exists s; split; [now left|exact H]|].
  unfold join_tail in H. apply in_flat_map in H as [s' [Hs' [H|H]]].
  - now left.
  - right. exists s'. split; [now right|exact H].
Qed.

Lemma Str_eqb_eq (s1 s2 : Str) : Str_eqb s1 s2 = true <-> s1 = s2.
Proof.
  revert s2. induction s1 as [|c1 s1 IH]; intros [|c2 s2]; cbn [Str_eqb];
    try (split; [discriminate|congruence]); [split; reflexivity|].
  rewrite andb_true_iff, Z.eqb_eq, IH. split; [intros [-> ->]; reflexivity|].
  intros [= -> ->]. split; reflexivity.
Qed.

Lemma Str_eqb_neq (s1 s2 : Str) : Str_eqb s1 s2 = false <-> s1 <> s2.
Proof.
  rewrite <- Str_eqb_eq. destruct (Str_eqb s1 s2); split; congruence.
Qed.


(** ** What [NormalizeImpl] keeps *)

Lemma drive_not_dots (s : Str) : is_drive s = true -> s <> kDot /\ s <> kDotDot.
Proof.
  unfold is_drive. intros H. split; intros ->; vm_compute in H; discriminate.
Qed.

Lemma repeat_snoc {A : Type} (x : A) (n : nat) : repeat x n ++ [x] = repeat x (S n).
Proof. symmetry. apply repeat_cons. Qed.

Lemma In_last {A : Type} (l : list A) (d : A) : l <> [] -> In (last l d) l.
Proof.
  induction l as [|x l IH]; [congruence|]. intros _.
  destruct l as [|y l]; [now left|]. right. apply IH. discriminate.
Qed.

Lemma last_app_nonempty {A : Type} (l1 l2 : list A) (d : A) :
  l2 <> [] -> last (l1 ++ l2) d = last l2 d.
Proof.
  intros H. induction l1 as [|x l1 IH]; [reflexivity|].
  cbn [app]. destruct (l1 ++ l2) eqn:E; [|exact IH].
  apply app_eq_nil in E as [_ E]. congruence.
Qed.

Lemma In_removelast {A : Type} (x : A) (l : list A) : In x (removelast l) -> In x l.
Proof.
  induction l as [|y l IH]; [contradiction|].
  destruct l as [|z l]; [contradiction|].
  change (removelast (y :: z :: l)) with (y :: removelast (z :: l)).
  intros [H|H]; [now left|right; now apply IH].
Qed.

Lemma Forall_removelast {A : Type} (P : A -> Prop) (l : list A) :
  Forall P l -> Forall P (removelast l).
Proof.
  rewrite !Forall_forall. intros H x Hx. apply H. now apply In_removelast.
Qed.

Lemma leading_push_dotdot (l : list Str) :
  leading_dotdots l -> l = [] \/ last l [] = kDotDot ->
  leading_dotdots (l ++ [kDotDot]).
Proof.
  intros [n [rest [-> Hrest]]] H. destruct rest as [|s rest].
  - exists (S n), []. rewrite app_nil_r, repeat_snoc. split; [now rewrite app_nil_r|exact Hrest].
  - exfalso. destruct H as [H|H].
    + apply app_eq_nil in H as [_ H]. discriminate.
    + rewrite last_app_nonempty in H by discriminate. apply Hrest. rewrite <- H.
      apply In_last. discriminate.
Qed.

Lemma leading_push (l : list Str) (s : Str) :
  leading_dotdots l -> s <> kDotDot -> leading_dotdots (l ++ [s]).
Proof.
  intros [n [rest [-> Hrest]]] Hs. exists n, (rest ++ [s]).
  split; [now rewrite app_assoc|]. intros H. apply in_app_or in H as [H|[H|[]]]; auto.
Qed.

Lemma leading_pop (l : list Str) : leading_dotdots l -> leading_dotdots (removelast l).
Proof.
  intros [n [rest [-> Hrest]]]. destruct rest as [|s rest].
  - rewrite app_nil_r. destruct n as [|n]; [exists 0%nat, []; now split|].
    rewrite <- repeat_snoc, removelast_last. exists n, []. split; [now rewrite app_nil_r|exact Hrest].
  - rewrite removelast_app by discriminate. exists n, (removelast (s :: rest)).
    split; [reflexivity|]. intros H. apply Hrest. now apply In_removelast.
Qed.

Lemma leading_single (s : Str) : leading_dotdots [s].
Proof.
  destruct (Str_eqb s kDotDot) eqn:E.
  - apply Str_eqb_eq in E. subst s. exists 1%nat, []. split; [reflexivity|intros []].
  - apply Str_eqb_neq in E. exists 0%nat, [s]. split; [reflexivity|].
    intros [H|[]]. congruence.
Qed.

Lemma kept_ok_nothing : kept_ok nothing_kept.
Proof.
  unfold kept_ok, nothing_kept. cbn. repeat split; try discriminate; auto.
  exists 0%nat, []. split; [reflexivity|intros []].
Qed.

Lemma absolute_no_push (l : list Str) :
  (exists d rest, l = d :: rest /\ is_drive d = true /\ ~ In kDotDot rest) ->
  (List.length l =? 0)%nat || Str_eqb (last l []) kDotDot = false.
Proof.
  intros [d [rest [-> [Hd Hrest]]]]. cbn [List.length Nat.eqb orb].
  apply Str_eqb_neq. intros H. destruct rest as [|s rest].
  - cbn in H. subst d. vm_compute in Hd. discriminate.
  - apply Hrest. rewrite <- H. change (last (d :: s :: rest) []) with (last (s :: rest) []).
    apply In_last. discriminate.
Qed.


Lemma keep_ok (k : Kept) (seg : Str) : kept_ok k -> segment seg -> kept_ok (keep k seg).
Proof.
  destruct k as [l f a d]. unfold kept_ok, keep. cbn [kept at_first absolute dot_only].
  intros (Hseg & Hf & Hd & Hnd & Ha & Hna) Hs.
  destruct f.
  { (* the first segment *)
    destruct (Hf eq_refl) as (-> & -> & ->). cbn [app kept at_first absolute dot_only].
    split; [now constructor|]. split; [discriminate|].
    destruct (is_drive seg) eqn:Edrive; cbn [negb andb].
    - destruct (drive_not_dots seg Edrive) as [H1 H2].
      split; [discriminate|]. split; [intros _ [H|[]]; congruence|].
      split; [|discriminate]. intros _. exists seg, []. repeat split; auto.
    - destruct (Str_eqb seg kDot) eqn:Edot.
      + apply Str_eqb_eq in Edot. subst seg.
        split; [now intros _|]. split; [discriminate|]. split; [discriminate|].
        intros _. apply leading_single.
      + apply Str_eqb_neq in Edot.
        split; [discriminate|]. split; [intros _ [H|[]]; congruence|].
        split; [discriminate|]. intros _. apply leading_single. }
  destruct (Str_eqb seg kDot) eqn:Edot.
  { (* a dot *)
    apply Str_eqb_eq in Edot. subst seg.
    destruct l as [|x l]; cbn [List.length Nat.eqb kept at_first absolute dot_only app].
    - assert (Ea : a = false).
      { destruct a; [|reflexivity]. destruct (Ha eq_refl) as [d0 [rest [H _]]]. discriminate. }
      subst a. split; [now constructor|]. split; [discriminate|].
      split; [now intros _|]. split; [discriminate|]. split; [discriminate|].
      intros _. apply leading_single.
    - exact (conj Hseg (conj Hf (conj Hd (conj Hnd (conj Ha Hna))))). }
  apply Str_eqb_neq in Edot.
  destruct d.
  { (* the dot kept is dropped *)
    destruct (Hd eq_refl) as (-> & ->).
    assert (Hgoal : Forall segment [seg]
              /\ (false = true -> [seg] = [] /\ false = false /\ false = false)
              /\ (false = true -> [seg] = [kDot] /\ false = false)
              /\ (false = false -> ~ In kDot [seg])
              /\ (false = true ->
                  exists d rest, [seg] = d :: rest /\ is_drive d = true /\ ~ In kDotDot rest)
              /\ (false = false -> leading_dotdots [seg])).
    { split; [now constructor|]. split; [discriminate|]. split; [discriminate|].
      split; [intros _ [H|[]]; congruence|]. split; [discriminate|].
      intros _. apply leading_single. }
    destruct (Str_eqb seg kDotDot); exact Hgoal. }
  cbn [kept at_first absolute dot_only].
  specialize (Hnd eq_refl).
  destruct (Str_eqb seg kDotDot) eqn:Edd.
  - apply Str_eqb_eq in Edd. subst seg.
    destruct ((List.length l =? 0)%nat || Str_eqb (last l []) kDotDot) eqn:Epush.
    + (* one more [..] *)
      assert (Ea : a = false).
      { destruct a; [|reflexivity]. rewrite (absolute_no_push l (Ha eq_refl)) in Epush.
        discriminate. }
      subst a. split; [apply Forall_app; split; [exact Hseg|now constructor]|].
      split; [discriminate|]. split; [discriminate|].
      split; [intros _ H; apply in_app_or in H as [H|[H|[]]]; [auto|discriminate]|].
      split; [discriminate|]. intros _. apply leading_push_dotdot; [now apply Hna|].
      apply orb_true_iff in Epush as [H|H].
      * left. apply Nat.eqb_eq in H. now apply length_zero_iff_nil.
      * right. now apply Str_eqb_eq.
    + destruct (negb a || (1 <? List.length l)%nat) eqn:Epop.
      * (* the last segment is popped *)
        split; [now apply Forall_removelast|]. split; [discriminate|].
        split; [discriminate|]. split; [intros _ H; apply Hnd; now apply In_removelast|].
        split.
        -- intros Ea. subst a. destruct (Ha eq_refl) as [d0 [rest [-> [Hd0 Hrest]]]].
           cbn [negb orb List.length] in Epop. apply Nat.ltb_lt in Epop.
           destruct rest as [|s rest]; [cbn in Epop; lia|].
           exists d0, (removelast (s :: rest)). repeat split; [exact Hd0|].
           intros H. apply Hrest. now apply In_removelast.
        -- intros Ea. apply leading_pop. now apply Hna.
      * split; [exact Hseg|]. split; [discriminate|]. split; [discriminate|].
        split; [intros _; exact Hnd|]. split; assumption.
  - (* any other segment *)
    apply Str_eqb_neq in Edd.
    split; [apply Forall_app; split; [exact Hseg|now constructor]|].
    split; [discriminate|]. split; [discriminate|].
    split; [intros _ H; apply in_app_or in H as [H|[H|[]]]; [auto|congruence]|].
    split.
    + intros Ea. destruct (Ha Ea) as [d0 [rest [-> [Hd0 Hrest]]]].
      exists d0, (rest ++ [seg]). repeat split; [exact Hd0|].
      intros H. apply in_app_or in H as [H|[H|[]]]; [auto|congruence].
    + intros Ea. apply leading_push; [now apply Hna|exact Edd].
Qed.

Lemma kept_ok_fold (l : list Str) (k : Kept) :
  kept_ok k -> Forall segment l -> kept_ok (fold_left keep l k).
Proof.
  revert k. induction l as [|s l IH]; intros k Hk Hl; [exact Hk|].
  apply Forall_cons_iff in Hl as [Hs Hl]. cbn [fold_left].
  apply IH; [now apply keep_ok|exact Hl].
Qed.

Lemma kept_at_end_ok (p : Str) : kept_ok (kept_at_end p).
Proof. apply kept_ok_fold; [apply kept_ok_nothing|apply segments_ok]. Qed.

Lemma NormalizeImpl_written (p : Str) : NormalizeImpl p = written (kept_at_end p).
Proof. apply NormalizeImpl_normal. Qed.


Lemma written_cases (k : Kept) :
  kept_ok k ->
  (written k = join (kept k) /\ (absolute k = true -> List.length (kept k) <> 1%nat))
  \/ (exists d, kept k = [d] /\ is_drive d = true /\ absolute k = true
                /\ written k = d ++ [chr "\"]).
Proof.
  intros (_ & _ & _ & _ & Ha & _). unfold written.
  destruct (absolute k) eqn:Ea; [|left; split; [reflexivity|discriminate]].
  destruct (Nat.eqb_spec (List.length (kept k)) 1) as [E|E]; cbn [andb].
  - right. destruct (Ha eq_refl) as [d [rest [Hk [Hd _]]]]. rewrite Hk in *.
    destruct rest; [|discriminate]. exists d. repeat split. exact Hd.
  - left. split; [reflexivity|]. intros _. exact E.
Qed.

Lemma segments_written (k : Kept) : kept_ok k -> segments (written k) = kept k.
Proof.
  intros Hk. pose proof Hk as (Hseg & _).
  destruct (written_cases k Hk) as [[-> _]|[d [Hd [_ [_ ->]]]]].
  - rewrite <- (app_nil_r (join (kept k))). apply segments_join; [exact Hseg|now left].
  - rewrite Hd in *. change d with (join [d]) at 1. apply segments_join; [exact Hseg|].
    right. split; [discriminate|reflexivity].
Qed.

Lemma segment_no_slash (s : Str) (c : Z) : segment s -> In c s -> is_separator c = false.
Proof.
  intros [_ H] Hc. unfold free_of_separators in H. rewrite Forall_forall in H.
  now apply H.
Qed.

Lemma join_no_slash (l : list Str) : Forall segment l -> ~ In (chr "/") (join l).
Proof.
  intros Hl H. apply In_join in H as [H|[s [Hs H]]]; [discriminate|].
  rewrite Forall_forall in Hl. pose proof (segment_no_slash s _ (Hl s Hs) H) as E.
  discriminate.
Qed.

Lemma written_no_slash (k : Kept) : kept_ok k -> ~ In (chr "/") (written k).
Proof.
  intros Hk. pose proof Hk as (Hseg & _).
  destruct (written_cases k Hk) as [[-> _]|[d [Hd [_ [_ ->]]]]].
  - now apply join_no_slash.
  - intros H. apply in_app_or in H as [H|[H|[]]]; [|discriminate].
    rewrite Hd in Hseg. apply Forall_inv in Hseg.
    pose proof (segment_no_slash d _ Hseg H). discriminate.
Qed.

(** X19: the result of [NormalizeImpl] holds no forward slash, and it is
    its own segments joined by single backslashes, with none leading and none
    trailing, but for a drive alone, which is followed by one backslash. *)
Theorem Normalize_canonical (p : Str) :
  ~ In (chr "/") (NormalizeImpl p)
  /\ (join (segments (NormalizeImpl p)) = NormalizeImpl p
      \/ exists d, is_drive d = true /\ NormalizeImpl p = d ++ [chr "\"]).
Proof.
  rewrite NormalizeImpl_written. pose proof (kept_at_end_ok p) as Hk.
  split; [now apply written_no_slash|].
  rewrite segments_written by exact Hk.
  destruct (written_cases _ Hk) as [[-> _]|[d [_ [Hd [_ ->]]]]]; [now left|].
  right. now exists d.
Qed.

(** X20: among the segments of the result of [NormalizeImpl], [.] occurs
    only when the result is [.] itself, and every [..] stands before every
    other segment. *)
Theorem Normalize_dots (p : Str) :
  (In kDot (segments (NormalizeImpl p)) -> NormalizeImpl p = kDot)
  /\ exists n rest,
       segments (NormalizeImpl p) = repeat kDotDot n ++ rest /\ ~ In kDotDot rest.
Proof.
  rewrite NormalizeImpl_written. pose proof (kept_at_end_ok p) as Hk.
  rewrite segments_written by exact Hk.
  pose proof Hk as (_ & _ & Hd & Hnd & Ha & Hna). split.
  - intros Hin. destruct (dot_only (kept_at_end p)) eqn:E; [|now destruct (Hnd eq_refl)].
    destruct (Hd eq_refl) as [Hkept Habs]. unfold written. now rewrite Habs, Hkept.
  - destruct (absolute (kept_at_end p)) eqn:E; [|now apply Hna].
    destruct (Ha eq_refl) as [d [rest [-> [Hdrive Hrest]]]].
    exists 0%nat, (d :: rest). split; [reflexivity|].
    intros [H|H]; [|contradiction]. subst d. vm_compute in Hdrive. discriminate.
Qed.

(** X21: the result of [NormalizeImpl] depends only on the segments of the
    path that follow its UNC prefix, if it has one: which of the two
    separators stands between them, how many of them, and whether some lead
    or trail, makes no difference. *)
Theorem Normalize_by_segments (p p' : Str) :
  segments (after_unc p) = segments (after_unc p') -> NormalizeImpl p = NormalizeImpl p'.
Proof. intros H. now rewrite !NormalizeImpl_normal, H. Qed.

Lemma keep_on_drive (k : Kept) (d seg : Str) :
  kept_ok k -> absolute k = true -> hd [] (kept k) = d ->
  absolute (keep k seg) = true /\ hd [] (kept (keep k seg)) = d.
Proof.
  destruct k as [l f a dt]. unfold kept_ok, keep. cbn [kept at_first absolute dot_only].
  intros (_ & Hf & Hd & _ & Ha & _) -> Hhd.
  destruct (Ha eq_refl) as [d0 [rest [-> [Hd0 Hrest]]]]. cbn [hd] in Hhd. subst d0.
  destruct f; [destruct (Hf eq_refl) as [H _]; discriminate|].
  destruct dt; [destruct (Hd eq_refl) as [_ H]; discriminate|].
  destruct (Str_eqb seg kDot); [split; reflexivity|].
  cbn [kept absolute].
  destruct (Str_eqb seg kDotDot); [|split; reflexivity].
  rewrite absolute_no_push by (exists d, rest; auto).
  cbn [negb orb List.length].
  destruct rest as [|s rest]; [split; reflexivity|].
  split; reflexivity.
Qed.

Lemma fold_keep_on_drive (l : list Str) (k : Kept) (d : Str) :
  kept_ok k -> Forall segment l -> absolute k = true -> hd [] (kept k) = d ->
  absolute (fold_left keep l k) = true /\ hd [] (kept (fold_left keep l k)) = d.
Proof.
  revert k. induction l as [|s l IH]; intros k Hk Hl Ha Hd; [now split|].
  apply Forall_cons_iff in Hl as [Hs Hl]. cbn [fold_left].
  destruct (keep_on_drive k d s Hk Ha Hd) as [Ha' Hd'].
  apply IH; [now apply keep_ok|assumption..].
Qed.

(** X22: a path whose first segment is a drive is normalized to a path on
    that drive: the result begins with the drive and a backslash, and none of
    the segments after the drive is [..]: no [..] climbs above the root of
    the drive. *)
Theorem Normalize_drive (p d : Str) (rest : list Str) :
  segments (after_unc p) = d :: rest -> is_drive d = true ->
  exists l tail,
    segments (NormalizeImpl p) = d :: l /\ ~ In kDotDot l
    /\ NormalizeImpl p = d ++ chr "\" :: tail.
Proof.
  intros Hp Hd. rewrite NormalizeImpl_written. pose proof (kept_at_end_ok p) as Hk.
  rewrite segments_written by exact Hk.
  assert (Hseg : Forall segment (d :: rest)) by (rewrite <- Hp; apply segments_ok).
  apply Forall_cons_iff in Hseg as [Hsd Hrest].
  assert (H1 : kept_ok (keep nothing_kept d)) by (apply keep_ok; [apply kept_ok_nothing|exact Hsd]).
  destruct (fold_keep_on_drive rest (keep nothing_kept d) d H1 Hrest) as [Ha Hhd].
  { unfold keep. cbn. exact Hd. }
  { reflexivity. }
  unfold kept_at_end in *. rewrite Hp in *. cbn [fold_left] in *.
  set (k := fold_left keep rest (keep nothing_kept d)) in *.
  pose proof Hk as (_ & _ & _ & _ & Habs & _).
  destruct (Habs Ha) as [d' [l [Hkept [_ Hl]]]].
  rewrite Hkept in Hhd. cbn [hd] in Hhd. subst d'.
  unfold written. rewrite Ha, Hkept. exists l.
  destruct l as [|s l]; cbn [List.length Nat.eqb andb].
  - exists []. repeat split; auto.
  - exists (s ++ join_tail l). repeat split; [exact Hl|].
    rewrite join_cons. unfold join_tail. cbn [flat_map]. reflexivity.
Qed.


(** ** Paths that are normal already *)

Lemma leading_split (l l1 l2 : list Str) :
  leading_dotdots l -> l = l1 ++ kDotDot :: l2 -> Forall (eq kDotDot) l1.
Proof.
  intros [n [rest [-> Hrest]]]. revert l1. induction n as [|n IH]; intros l1 H.
  - exfalso. apply Hrest. cbn [repeat app] in H. rewrite H.
    apply in_or_app. right. now left.
  - destruct l1 as [|x l1]; [constructor|].
    cbn [repeat app] in H. injection H as <- H. constructor; [reflexivity|]. now apply IH.
Qed.

Lemma last_all {A : Type} (x d : A) (l : list A) :
  l <> [] -> Forall (eq x) l -> last l d = x.
Proof.
  intros Hne H. pose proof (In_last l d Hne) as Hin.
  rewrite Forall_forall in H. symmetry. now apply H.
Qed.

Lemma keep_rest (todo done : list Str) (k : Kept) :
  kept k = done -> at_first k = false -> dot_only k = false -> done <> [] ->
  ~ In kDot todo ->
  (forall l1 l2, done ++ todo = l1 ++ kDotDot :: l2 -> Forall (eq kDotDot) l1) ->
  kept (fold_left keep todo k) = done ++ todo
  /\ absolute (fold_left keep todo k) = absolute k.
Proof.
  revert done k. induction todo as [|seg todo IH]; intros done k Hk Hf Hd Hne Hdot Hlead.
  - rewrite app_nil_r. now split.
  - cbn [fold_left].
    assert (Hseg : seg <> kDot) by (intros ->; apply Hdot; now left).
    assert (Hkeep : keep k seg
                    = {| kept := done ++ [seg]; at_first := false;
                         absolute := absolute k; dot_only := false |}).
    { unfold keep. rewrite Hf, Hd, Hk. apply Str_eqb_neq in Hseg. rewrite Hseg.
      destruct (Str_eqb seg kDotDot) eqn:Edd; [|reflexivity].
      apply Str_eqb_eq in Edd. subst seg.
      rewrite (last_all kDotDot [] done Hne (Hlead done todo eq_refl)).
      change (Str_eqb kDotDot kDotDot) with true. now rewrite orb_true_r. }
    rewrite Hkeep. destruct (IH (done ++ [seg])
      {| kept := done ++ [seg]; at_first := false; absolute := absolute k;
         dot_only := false |}) as [H1 H2]; try reflexivity.
    + intros H. apply app_eq_nil in H as [_ H]. discriminate.
    + intros H. apply Hdot. now right.
    + intros l1 l2 H. apply (Hlead l1 l2). rewrite <- H, <- app_assoc. reflexivity.
    + rewrite H1, H2, <- app_assoc. split; reflexivity.
Qed.

(** The segments of a normal path are all kept. *)
Lemma keep_all (l : list Str) :
  (In kDot l -> l = [kDot]) -> leading_dotdots l ->
  kept (fold_left keep l nothing_kept) = l
  /\ absolute (fold_left keep l nothing_kept) = is_drive (hd [] l).
Proof.
  intros Hdot Hlead. destruct l as [|seg todo]; [now split|].
  destruct (Str_eqb seg kDot) eqn:E.
  - apply Str_eqb_eq in E. subst seg. rewrite (Hdot (or_introl eq_refl)).
    split; reflexivity.
  - cbn [fold_left hd].
    assert (Hkeep : keep nothing_kept seg
                    = {| kept := [seg]; at_first := false;
                         absolute := is_drive seg; dot_only := false |}).
    { unfold keep, nothing_kept. cbn [at_first kept app]. rewrite E.
      now rewrite andb_false_r. }
    rewrite Hkeep.
    destruct (keep_rest todo [seg]
      {| kept := [seg]; at_first := false; absolute := is_drive seg;
         dot_only := false |}) as [H1 H2]; try reflexivity.
    + discriminate.
    + intros H. assert (Hl : seg :: todo = [kDot]) by (apply Hdot; now right).
      injection Hl as -> _. discriminate.
    + intros l1 l2 H. now apply (leading_split (seg :: todo) l1 l2).
    + split; assumption.
Qed.

Lemma not_has_unc (p : Str) : is_separator (nth 0 p 0) = false -> has_unc p = false.
Proof.
  unfold has_unc, is_separator. intros H. apply orb_false_iff in H as [_ H].
  rewrite H. now rewrite andb_false_r.
Qed.

Lemma written_not_unc (k : Kept) : kept_ok k -> has_unc (written k) = false.
Proof.
  intros Hk. apply not_has_unc. pose proof Hk as (Hseg & _).
  assert (Hjoin : forall tail, is_separator (nth 0 (join (kept k) ++ tail) 0) = false
                               \/ kept k = []).
  { intros tail. destruct (kept k) as [|s l]; [now right|]. left.
    apply Forall_inv in Hseg. destruct Hseg as [Hne Hs].
    destruct s as [|c s]; [congruence|]. rewrite join_cons. cbn [app nth].
    now apply Forall_inv in Hs. }
  destruct (written_cases k Hk) as [[-> _]|[d [Hd [_ [_ ->]]]]].
  - destruct (Hjoin []) as [H|H]; [now rewrite app_nil_r in H|]. now rewrite H.
  - destruct (Hjoin [chr "\"]) as [H|H]; [|congruence]. now rewrite Hd in H.
Qed.

Lemma length_join_two (s1 s2 : Str) (l : list Str) :
  s1 <> [] -> s2 <> [] -> (3 <= List.length (join (s1 :: s2 :: l)))%nat.
Proof.
  intros H1 H2. rewrite join_cons. unfold join_tail. cbn [flat_map].
  rewrite length_app. cbn [List.length]. rewrite length_app.
  destruct s1; [congruence|]. destruct s2; [congruence|]. cbn [List.length]. lia.
Qed.

Lemma is_drive_length (s : Str) : List.length s <> 2%nat -> is_drive s = false.
Proof.
  intros H. unfold is_drive. apply Nat.eqb_neq in H. now rewrite H.
Qed.

(** X23: normalizing a second time changes nothing, with one exception:
    when the result is a drive alone, a letter and a colon without the
    backslash, the second pass appends the backslash.  The first pass leaves
    such a result when the drive was not the first segment of the path, as
    in [x\..\c:]. *)
Theorem Normalize_twice (p : Str) :
  NormalizeImpl (NormalizeImpl p)
  = if is_drive (NormalizeImpl p)
    then NormalizeImpl p ++ [chr "\"]
    else NormalizeImpl p.
Proof.
  rewrite (NormalizeImpl_normal (NormalizeImpl p)), (NormalizeImpl_written p).
  pose proof (kept_at_end_ok p) as Hk. set (k := kept_at_end p) in *.
  unfold after_unc. rewrite written_not_unc by exact Hk. cbn [skipn].
  rewrite segments_written by exact Hk.
  pose proof Hk as (Hseg & _ & Hd & Hnd & Ha & Hna).
  assert (Hdot : In kDot (kept k) -> kept k = [kDot]).
  { intros H. destruct (dot_only k) eqn:E; [now apply Hd|now destruct (Hnd eq_refl)]. }
  assert (Hlead : leading_dotdots (kept k)).
  { destruct (absolute k) eqn:E; [|now apply Hna].
    destruct (Ha eq_refl) as [d [rest [-> [Hdrive Hrest]]]].
    exists 0%nat, (d :: rest). split; [reflexivity|].
    intros [H|H]; [|contradiction]. subst d. vm_compute in Hdrive. discriminate. }
  destruct (keep_all (kept k) Hdot Hlead) as [H1 H2].
  unfold normal. unfold written at 1. rewrite H1, H2.
  destruct (written_cases k Hk) as [[-> Hlen]|[d [Hkept [Hdrive [Habs ->]]]]].
  - destruct (kept k) as [|s1 [|s2 l]] eqn:E.
    + reflexivity.
    + cbn [hd List.length Nat.eqb join]. now rewrite andb_true_r.
    + apply Forall_cons_iff in Hseg as [[Hs1 _] Hseg].
      apply Forall_inv in Hseg. destruct Hseg as [Hs2 _].
      cbn [List.length Nat.eqb]. rewrite andb_false_r.
      rewrite is_drive_length; [reflexivity|].
      pose proof (length_join_two s1 s2 l Hs1 Hs2). lia.
  - rewrite Hkept. cbn [hd List.length Nat.eqb join]. rewrite Hdrive. cbn [andb].
    rewrite is_drive_length; [reflexivity|].
    rewrite length_app. cbn [List.length]. unfold is_drive in Hdrive.
    apply andb_true_iff in Hdrive as [Hdrive _]. apply andb_true_iff in Hdrive as [Hdrive _].
    apply Nat.eqb_eq in Hdrive. lia.
Qed.

(** X24: a path that consists of segments joined by single backslashes,
    none of them [.] or [..], and that is not a drive alone, is returned as
    it is. *)
Theorem Normalize_fixed (l : list Str) :
  Forall segment l -> ~ In kDot l -> ~ In kDotDot l -> is_drive (join l) = false ->
  NormalizeImpl (join l) = join l.
Proof.
  intros Hseg Hdot Hdd Hdrive.
  assert (Hunc : has_unc (join l) = false).
  { apply not_has_unc. destruct l as [|s l]; [reflexivity|].
    apply Forall_inv in Hseg. destruct Hseg as [Hne Hs].
    destruct s as [|c s]; [congruence|]. rewrite join_cons. cbn [app nth].
    now apply Forall_inv in Hs. }
  rewrite NormalizeImpl_normal. unfold after_unc. rewrite Hunc. cbn [skipn].
  rewrite <- (app_nil_r (join l)) at 1. rewrite segments_join by (exact Hseg || now left).
  destruct (keep_all l) as [H1 H2].
  { intros H. contradiction. }
  { exists 0%nat, l. now split. }
  unfold normal, written. rewrite H1, H2.
  destruct l as [|s [|s' l]]; [reflexivity| |].
  - cbn [hd List.length Nat.eqb join] in *. rewrite Hdrive. reflexivity.
  - cbn [List.length Nat.eqb]. now rewrite andb_false_r.
Qed.


(** ** [AsShortPath] *)

Lemma MakeErrorMessage_not_empty (file : wstring) (line : Z)
    (failed_func func_arg message : wstring) :
  MakeErrorMessage file line failed_func func_arg message <> [].
Proof. unfold MakeErrorMessage. discriminate. Qed.

Lemma length_not_empty (s : wstring) : (List.length s =? 0)%nat = false <-> s <> [].
Proof. destruct s; cbn; split; congruence. Qed.

Lemma not_In_replace (s : wstring) : ~ In (chr "/") (replace s (chr "/") (chr "\")).
Proof.
  unfold replace. intros H. apply in_map_iff in H as [c [H _]].
  destruct (c =? chr "/") eqn:E; [discriminate H|].
  apply Z.eqb_neq in E. congruence.
Qed.

Lemma length_replace (s : wstring) (old_value new_value : wchar_t) :
  List.length (replace s old_value new_value) = List.length s.
Proof. apply length_map. Qed.

Lemma nth_replace (s : wstring) (i : nat) :
  nth i (replace s (chr "/") (chr "\")) 0
  = if nth i s 0 =? chr "/" then chr "\" else nth i s 0.
Proof.
  unfold replace.
  change 0 with ((fun c => if c =? chr "/" then chr "\" else c) 0) at 1.
  apply map_nth.
Qed.

Section Short_paths.
Variable env : Environment.

Lemma AsShortPath_error (path result : wstring) :
  fst (AsShortPath env path result) <> [] -> snd (AsShortPath env path result) = result.
Proof.
  unfold AsShortPath.
  repeat match goal with
         | |- context [if ?b then _ else _] => destruct b
         end; cbn [fst snd]; congruence.
Qed.

(** X25: when [AsShortPath] succeeds on a path shorter than [MAX_PATH], the
    result is the path with every forward slash replaced by a backslash; it
    holds no forward slash; and if the path has a separator, it begins with a
    letter (as [isalpha] says), a colon and a backslash. *)
Theorem AsShortPath_fast_track (path result : wstring) :
  (List.length path < MAX_PATH)%nat ->
  fst (AsShortPath env path result) = [] ->
  snd (AsShortPath env path result) = replace path (chr "/") (chr "\")
  /\ ~ In (chr "/") (snd (AsShortPath env path result))
  /\ (HasSeparator path = true ->
      isalpha env (nth 0 path 0) = true
      /\ nth 1 (snd (AsShortPath env path result)) 0 = chr ":"
      /\ nth 2 (snd (AsShortPath env path result)) 0 = chr "\").
Proof.
  intros Hlen. unfold AsShortPath.
  destruct (List.length path =? 0)%nat eqn:E0.
  { apply Nat.eqb_eq, length_zero_iff_nil in E0. subst path. cbn [fst snd].
    intros _. repeat split; [intros []|discriminate..]. }
  destruct (nth 0 path 0 =? quote);
    [intros H; now destruct (MakeErrorMessage_not_empty _ _ _ _ _ H)|].
  destruct (IsSeparator (nth 0 path 0)) eqn:Esep;
    [intros H; now destruct (MakeErrorMessage_not_empty _ _ _ _ _ H)|].
  destruct (_ || _ || _ || _);
    [intros H; now destruct (MakeErrorMessage_not_empty _ _ _ _ _ H)|].
  destruct (_ && negb (HasSeparator path));
    [intros H; now destruct (MakeErrorMessage_not_empty _ _ _ _ _ H)|].
  destruct (HasSeparator path && _) eqn:Eabs;
    [intros H; now destruct (MakeErrorMessage_not_empty _ _ _ _ _ H)|].
  cbv zeta. rewrite length_replace.
  replace (List.length path <? MAX_PATH)%nat with true
    by (symmetry; now apply Nat.ltb_lt).
  cbn [fst snd]. intros _. split; [reflexivity|]. split; [apply not_In_replace|].
  intros Hsep. rewrite Hsep in Eabs. cbn [andb] in Eabs.
  apply negb_false_iff in Eabs. apply andb_true_iff in Eabs as [Eabs H2].
  apply andb_true_iff in Eabs as [H0 H1]. apply Z.eqb_eq in H1.
  split; [exact H0|]. rewrite !nth_replace, H1. split; [reflexivity|].
  unfold IsSeparator in H2. destruct (nth 2 path 0 =? chr "/") eqn:E; [reflexivity|].
  cbn [orb] in H2. now apply Z.eqb_eq in H2.
Qed.

(** X26: [AsShortPath] returns the empty string, or else it leaves
    [*result] as it was: the result is written only on success.  Every error
    message is non-empty, so that the empty string does stand for success. *)
Theorem AsShortPath_keeps_result_on_error (path result : wstring) :
  fst (AsShortPath env path result) = [] \/ snd (AsShortPath env path result) = result.
Proof.
  destruct (fst (AsShortPath env path result)) eqn:E; [now left|right].
  apply AsShortPath_error. rewrite E. discriminate.
Qed.

(** X27: [AsExecutablePathForCreateProcess] succeeds exactly when the path
    is not empty and [AsShortPath] succeeds on it; it then leaves in
    [*result] the result of [AsShortPath] between two double quotes, and
    otherwise it leaves [*result] as it was. *)
Theorem AsExecutablePath_quotes (path result : wstring) :
  (fst (AsExecutablePathForCreateProcess env path result) = []
   <-> path <> [] /\ fst (AsShortPath env path result) = [])
  /\ snd (AsExecutablePathForCreateProcess env path result)
     = if (List.length (fst (AsExecutablePathForCreateProcess env path result)) =? 0)%nat
       then quote :: snd (AsShortPath env path result) ++ [quote]
       else result.
Proof.
  pose proof (AsShortPath_error path result) as Herr.
  unfold AsExecutablePathForCreateProcess.
  pose proof (MakeErrorMessage_not_empty (file env) 267
                (L "AsExecutablePathForCreateProcess") path
                (L "path should not be empty")) as H267.
  destruct path as [|c path]; cbn [List.length Nat.eqb fst snd].
  - destruct (MakeErrorMessage (file env) 267 _ _ _) as [|x m]; [congruence|].
    cbn [List.length Nat.eqb]. split; [|reflexivity].
    split; [discriminate|]. intros [H _]. congruence.
  - destruct (AsShortPath env (c :: path) result) as [error res]. cbn [fst snd] in *.
    pose proof (MakeErrorMessage_not_empty (file env) 274
                  (L "AsExecutablePathForCreateProcess") (c :: path) error) as H274.
    destruct error as [|e error]; cbn [List.length Nat.eqb negb fst snd].
    + split; [|reflexivity]. split; [intros _; split; [discriminate|reflexivity]|reflexivity].
    + destruct (MakeErrorMessage (file env) 274 _ _ _) as [|x m]; [congruence|].
      cbn [List.length Nat.eqb]. split; [|apply Herr; discriminate].
      split; [discriminate|]. intros [_ H]. discriminate.
Qed.

End Short_paths.

(** ** The properties on examples *)

(** Two slashes before [a/b] and one behind. *)
Lemma Strip_strips_witness :
  (hd_error (L "a/b") <> Some (chr "/") /\ hd_error (rev (L "a/b")) <> Some (chr "/")
   /\ (L "a/b" = [] -> (2 + 1 <= 1)%nat))
  /\ Strip (repeat (chr "/") 2 ++ L "a/b" ++ repeat (chr "/") 1) (chr "/") = Some (L "a/b").
Proof.
  assert (H : hd_error (L "a/b") <> Some (chr "/")
              /\ hd_error (rev (L "a/b")) <> Some (chr "/")
              /\ (L "a/b" = [] -> (2 + 1 <= 1)%nat))
    by (repeat split; discriminate).
  split; [exact H|]. destruct H as [H1 [H2 H3]].
  exact (Strip_strips (chr "/") 2 1 (L "a/b") H1 H2 H3).
Defined.

Lemma Strip_twice_witness :
  Strip (L "//a/b/") (chr "/") = Some (L "a/b")
  /\ Strip (L "a/b") (chr "/") = Some (L "a/b")
  /\ hd_error (L "a/b") <> Some (chr "/") /\ hd_error (rev (L "a/b")) <> Some (chr "/")
  /\ exists n m, L "//a/b/" = repeat (chr "/") n ++ L "a/b" ++ repeat (chr "/") m.
Proof.
  assert (H : Strip (L "//a/b/") (chr "/") = Some (L "a/b")) by reflexivity.
  split; [exact H|]. exact (Strip_twice (L "//a/b/") (L "a/b") (chr "/") H).
Defined.

(** A path with the prefix [\\?\] and one with forward slashes. *)
Lemma Normalize_by_segments_witness :
  segments (after_unc (L "\\?\c:\foo")) = segments (after_unc (L "c:/foo/"))
  /\ NormalizeImpl (L "\\?\c:\foo") = NormalizeImpl (L "c:/foo/").
Proof.
  assert (H : segments (after_unc (L "\\?\c:\foo")) = segments (after_unc (L "c:/foo/")))
    by reflexivity.
  split; [exact H|]. exact (Normalize_by_segments _ _ H).
Defined.

(** Two [..] behind one directory of the drive. *)
Lemma Normalize_drive_witness :
  (segments (after_unc (L "c:\foo\..\..\bar")) = [L "c:"; L "foo"; L ".."; L ".."; L "bar"]
   /\ is_drive (L "c:") = true)
  /\ exists l tail,
       segments (NormalizeImpl (L "c:\foo\..\..\bar")) = L "c:" :: l
       /\ ~ In kDotDot l
       /\ NormalizeImpl (L "c:\foo\..\..\bar") = L "c:" ++ chr "\" :: tail.
Proof.
  assert (H : segments (after_unc (L "c:\foo\..\..\bar"))
              = [L "c:"; L "foo"; L ".."; L ".."; L "bar"]) by reflexivity.
  split; [split; [exact H|reflexivity]|].
  exact (Normalize_drive (L "c:\foo\..\..\bar") (L "c:") _ H eq_refl).
Defined.

Lemma Normalize_fixed_witness :
  (Forall segment [L "c:"; L "foo"] /\ ~ In kDot [L "c:"; L "foo"]
   /\ ~ In kDotDot [L "c:"; L "foo"] /\ is_drive (join [L "c:"; L "foo"]) = false)
  /\ NormalizeImpl (join [L "c:"; L "foo"]) = join [L "c:"; L "foo"].
Proof.
  assert (H : Forall segment [L "c:"; L "foo"] /\ ~ In kDot [L "c:"; L "foo"]
              /\ ~ In kDotDot [L "c:"; L "foo"]
              /\ is_drive (join [L "c:"; L "foo"]) = false).
  { split; [|split; [|split]].
    - repeat constructor; discriminate.
    - intros [H|[H|[]]]; discriminate H.
    - intros [H|[H|[]]]; discriminate H.
    - reflexivity. }
  split; [exact H|]. destruct H as [H1 [H2 [H3 H4]]].
  exact (Normalize_fixed _ H1 H2 H3 H4).
Defined.

(** A path with forward slashes on the drive [c:]. *)
Lemma AsShortPath_fast_track_witness :
  ((List.length (L "c:/foo/bar.exe") < MAX_PATH)%nat
   /\ fst (AsShortPath example_environment (L "c:/foo/bar.exe") []) = [])
  /\ snd (AsShortPath example_environment (L "c:/foo/bar.exe") [])
     = replace (L "c:/foo/bar.exe") (chr "/") (chr "\")
  /\ ~ In (chr "/") (snd (AsShortPath example_environment (L "c:/foo/bar.exe") []))
  /\ (HasSeparator (L "c:/foo/bar.exe") = true ->
      isalpha example_environment (nth 0 (L "c:/foo/bar.exe") 0) = true
      /\ nth 1 (snd (AsShortPath example_environment (L "c:/foo/bar.exe") [])) 0 = chr ":"
      /\ nth 2 (snd (AsShortPath example_environment (L "c:/foo/bar.exe") [])) 0 = chr "\").
Proof.
  assert (H : (List.length (L "c:/foo/bar.exe") < MAX_PATH)%nat
              /\ fst (AsShortPath example_environment (L "c:/foo/bar.exe") []) = []).
  { split; [vm_compute; lia|reflexivity]. }
  split; [exact H|]. destruct H as [H1 H2].
  exact (AsShortPath_fast_track example_environment (L "c:/foo/bar.exe") [] H1 H2).
Defined.
